(** * postgres-s3-backups: the scheduling and retention core of [backup.ts]

    A shallow embedding of [src/backup.ts] and of the entry point
    [src/index.ts].  The program is asynchronous but strictly sequential
    (every promise is awaited before the next statement runs), so it is
    modelled in a state-and-exception monad over

    - the state of the outside world (clock, file system, database dump
      utility, object store), reached only through the operations of the
      class [Collaborators];
    - the module-level map [lastBackupTimes];
    - a trace that records every call to a collaborator together with the
      answer it gave, and every console line.

    One piece of code runs outside that sequence: the callback of [exec] in
    [dumpToFile], which the event loop calls.  What is thrown there, outside
    the executor of the promise and outside every [try], is caught by nobody:
    the runtime reports the uncaught exception and the process ends with
    exit code 1.  This is the result [Uncaught] of the monad.

    Dates are integers: the number of milliseconds since the epoch, as
    returned by [Date.prototype.getTime]. *)

From Stdlib Require Import Ascii String.
From stdpp Require Import gmap strings list sorting.

Local Open Scope string_scope.
Local Open Scope list_scope.
Local Open Scope Z_scope.

(** ** Data model *)

(** [type BackupFrequency = '10min' | 'hourly' | 'daily' | 'weekly'] *)
Inductive BackupFrequency := freq_10min | hourly | daily | weekly.

Global Instance BackupFrequency_eq_dec : EqDecision BackupFrequency.
Proof. solve_decision. Defined.

Global Instance BackupFrequency_countable : Countable BackupFrequency.
Proof.
  refine (inj_countable'
            (λ f, match f with
                  | freq_10min => 0%nat | hourly => 1%nat
                  | daily => 2%nat | weekly => 3%nat end)
            (λ n, match n with
                  | O => freq_10min | 1%nat => hourly
                  | 2%nat => daily | _ => weekly end) _).
  by intros [].
Defined.

(** The string a frequency is in the source; it is spliced into keys and
    console lines. *)
Definition frequency_name (f : BackupFrequency) : string :=
  match f with
  | freq_10min => "10min"
  | hourly => "hourly"
  | daily => "daily"
  | weekly => "weekly"
  end.

(** [interface BackupInterval] *)
Record BackupInterval := {
  frequency : BackupFrequency;
  milliseconds : Z
}.

Definition BACKUP_INTERVALS : list BackupInterval :=
  [ {| frequency := weekly; milliseconds := 7 * 24 * 60 * 60 * 1000 |};
    {| frequency := daily; milliseconds := 24 * 60 * 60 * 1000 |};
    {| frequency := hourly; milliseconds := 60 * 60 * 1000 |};
    {| frequency := freq_10min; milliseconds := 10 * 60 * 1000 |} ].

(** An entry of [response.Contents]: the two fields the program reads, both
    optional in the client's type. *)
Record S3Object := {
  Key : option string;
  LastModified : option Z
}.

(** A thrown value or a promise's rejection reason. *)
Definition Error := string.

(** How an awaited promise of a collaborator settles. *)
Inductive settled (A : Type) :=
| Resolved (a : A)
| Rejected (e : Error).
Arguments Resolved {A} a.
Arguments Rejected {A} e.

(** How a synchronous call of a collaborator completes: it returns a value
    or it throws. *)
Inductive completed (A : Type) :=
| Returned (a : A)
| Threw (e : Error).
Arguments Returned {A} a.
Arguments Threw {A} e.

(** The fields of [env] ([./env.js]) that the modelled code reads.  A string
    option that is unset is the empty string, which is falsy. *)
Record Env := {
  AWS_S3_BUCKET : string;
  AWS_S3_ENDPOINT : string;
  BUCKET_SUBFOLDER : string;
  BACKUP_FILE_PREFIX : string;
  BACKUP_RETENTION_COUNT : Z;
  SUPPORT_OBJECT_LOCK : bool;
  RUN_ON_STARTUP : bool;
  SINGLE_SHOT_MODE : bool
}.

(** ** Observable events *)

Inductive Event :=
| EvLog (line : string)                       (* console.log *)
| EvError (line : string) (e : Error)         (* console.error *)
| EvNow (t : Z)                               (* new Date() *)
| EvExec (filePath : string) (r : settled string)
| EvGzipHead (filePath : string) (n : Z)
| EvMD5 (path : string) (r : settled string)
| EvUpload (bucket key path : string) (md5 : option string) (r : settled unit)
| EvList (bucket prefix : string) (r : settled (option (list S3Object)))
| EvDelete (bucket key : string) (r : settled unit)
| EvUnlink (path : string) (r : settled unit)
| EvSleep (ms : Z)
| EvEvaluate (f : BackupFrequency) (now : Z) (due : bool)
| EvUncaught (e : Error).                     (* the runtime's report of an
                                                 uncaught exception *)

(** ** The collaborators

    Everything the program does not compute itself.  Each operation may
    depend on and change the state [W] of the outside world. *)
Class Collaborators (W : Type) := {
  (** [new Date().getTime()] *)
  clock : W → Z * W;
  (** [Date.prototype.toISOString] *)
  toISOString : Z → string;
  (** [os.tmpdir()] *)
  tmpdir : string;
  (** the [exec] of [pg_dump ... && tar ... && rm ...]: its callback gets
      an [error], or else the text of [stderr] *)
  exec_pg_dump : string → W → settled string * W;
  (** [execSync(`gzip -cd ${filePath} | head -c1`).length]; [execSync]
      throws when the command cannot be run or fails *)
  gzip_head_length : string → W → completed Z * W;
  (** [filesize(statSync(filePath).size)]; [statSync] throws when the file
      cannot be examined *)
  stat_filesize : string → W → completed string * W;
  (** [path.basename] *)
  basename : string → string;
  (** [createMD5(path)] of [./util.js] *)
  createMD5 : string → W → settled string * W;
  (** [Buffer.from(h, 'hex').toString('base64')] *)
  hex_to_base64 : string → string;
  (** [new Upload({client, params}).done()] *)
  upload_done : string → string → string → option string → W → settled unit * W;
  (** [client.send(new ListObjectsV2Command(...))]: [response.Contents] *)
  list_objects : string → string → W → settled (option (list S3Object)) * W;
  (** [client.send(new DeleteObjectCommand(...))] *)
  delete_object : string → string → W → settled unit * W;
  (** [fs.unlink] *)
  unlink : string → W → settled unit * W;
  (** [setTimeout] behind [sleep] *)
  elapse : Z → W → W
}.

(** ** Program state and the monad of the program *)

Record State (W : Type) := mkState {
  world : W;
  lastBackupTimes : gmap BackupFrequency Z;
  trace : list Event
}.
Arguments mkState {W}.
Arguments world {W}.
Arguments lastBackupTimes {W}.
Arguments trace {W}.

(** How a piece of program ends: it returns, it throws, the process exits
    ([process.exit]), it is still running when the observation stops (the
    scheduler's [while (true)]), or an exception is thrown where no handler
    can catch it (in a callback of the event loop, outside every promise and
    every [try]): the runtime reports the uncaught exception and the
    process ends with exit code 1. *)
Inductive result (A : Type) :=
| Ok (a : A)
| Throw (e : Error)
| Exit (code : Z)
| Pending
| Uncaught (e : Error).
Arguments Ok {A} a.
Arguments Throw {A} e.
Arguments Exit {A} code.
Arguments Pending {A}.
Arguments Uncaught {A} e.

Definition M (W A : Type) : Type := State W → result A * State W.

Definition ret {W A} (a : A) : M W A := λ st, (Ok a, st).

Definition bind {W A B} (m : M W A) (k : A → M W B) : M W B :=
  λ st, match m st with
        | (Ok a, st') => k a st'
        | (Throw e, st') => (Throw e, st')
        | (Exit c, st') => (Exit c, st')
        | (Pending, st') => (Pending, st')
        | (Uncaught e, st') => (Uncaught e, st')
        end.

Notation "x <- c1 ;; c2" := (bind c1 (λ x, c2))
  (at level 100, c1 at next level, right associativity).
Notation "c1 ;;; c2" := (bind c1 (λ _, c2))
  (at level 100, right associativity).

(** [throw e] *)
Definition throw {W A} (e : Error) : M W A := λ st, (Throw e, st).

(** [try { body } catch (error) { handler }]: only a thrown value is caught. *)
Definition try_catch {W A} (body : M W A) (handler : Error → M W A) : M W A :=
  λ st, match body st with
        | (Throw e, st') => handler e st'
        | r => r
        end.

(** [process.exit(code)] *)
Definition process_exit {W A} (code : Z) : M W A := λ st, (Exit code, st).

Definition emit {W} (ev : Event) : M W unit :=
  λ st, (Ok tt, mkState (world st) (lastBackupTimes st) (trace st ++ [ev])).

Definition console_log {W} (line : string) : M W unit := emit (EvLog line).
Definition console_error {W} (line : string) (e : Error) : M W unit :=
  emit (EvError line e).

(** A call that cannot fail. *)
Definition call {W A} (op : W → A * W) (ev : A → Event) : M W A :=
  λ st, let '(a, w) := op (world st) in
        (Ok a, mkState w (lastBackupTimes st) (trace st ++ [ev a])).

(** A synchronous call made in a callback of the event loop, outside the
    executor of the promise and outside every [try]: what it throws is
    caught by nobody. *)
Definition call_in_callback {W A} (op : W → completed A * W) (ev : A → Event)
    : M W A :=
  λ st, let '(r, w) := op (world st) in
        match r with
        | Returned a =>
            (Ok a, mkState w (lastBackupTimes st) (trace st ++ [ev a]))
        | Threw e =>
            (Uncaught e,
             mkState w (lastBackupTimes st) (trace st ++ [EvUncaught e]))
        end.

(** [await] of a collaborator's promise: a rejection is thrown. *)
Definition await {W A} (op : W → settled A * W) (ev : settled A → Event) : M W A :=
  λ st, let '(r, w) := op (world st) in
        let st' := mkState w (lastBackupTimes st) (trace st ++ [ev r]) in
        match r with
        | Resolved a => (Ok a, st')
        | Rejected e => (Throw e, st')
        end.

(** [for (const x of xs) { body }] *)
Fixpoint for_of {W A} (xs : list A) (body : A → M W unit) : M W unit :=
  match xs with
  | [] => ret tt
  | x :: xs' => body x ;;; for_of xs' body
  end.

(** ** Arrays *)

(** [Array.prototype.sort(compareFn)], which is stable: an element goes
    before the first one it does not compare greater than. *)
Fixpoint sort_insert {A} (compareFn : A → A → Z) (x : A) (l : list A) : list A :=
  match l with
  | [] => [x]
  | y :: l' => if compareFn x y <=? 0 then x :: l
               else y :: sort_insert compareFn x l'
  end.

Definition array_sort {A} (compareFn : A → A → Z) (l : list A) : list A :=
  foldr (sort_insert compareFn) [] l.

(** [Array.prototype.slice(start)] for an integer [start]. *)
Definition array_slice {A} (start : Z) (l : list A) : list A :=
  let len := Z.of_nat (length l) in
  let k := if start <? 0 then Z.max (len + start) 0 else Z.min start len in
  drop (Z.to_nat k) l.

(** [o.LastModified?.getTime() || 0] *)
Definition time_or_0 (o : S3Object) : Z :=
  match LastModified o with
  | Some t => t
  | None => 0
  end.

(** [(a, b) => (b.LastModified?.getTime() || 0) - (a.LastModified?.getTime() || 0)] *)
Definition newest_first (a b : S3Object) : Z := time_or_0 b - time_or_0 a.

(** [s.replace(/[:.]+/g, '-')]: every maximal run of colons and periods
    becomes one hyphen. *)
Definition colon_or_period (c : ascii) : bool :=
  bool_decide (c = ":"%char) || bool_decide (c = "."%char).

Fixpoint replace_runs (in_run : bool) (s : string) : string :=
  match s with
  | EmptyString => EmptyString
  | String c s' =>
      if colon_or_period c
      then (if in_run then replace_runs true s'
            else String "-"%char (replace_runs true s'))
      else String c (replace_runs false s')
  end.

(** [Date.prototype.getSeconds] and [getMilliseconds]. *)
Definition getSeconds (t : Z) : Z := (t `div` 1000) `mod` 60.
Definition getMilliseconds (t : Z) : Z := t `mod` 1000.

(** ** The program *)

Section Program.
Context {W : Type} `{!Collaborators W} (env : Env).

Abbreviation Prog := (M W).

(** [new Date()] *)
Definition new_Date : Prog Z := call clock EvNow.

(** [const sleep = (ms) => new Promise(resolve => setTimeout(resolve, ms))] *)
Definition sleep (ms : Z) : Prog unit :=
  call (λ w, (tt, elapse ms w)) (λ _, EvSleep ms).

(** [lastBackupTimes.get(frequency)] *)
Definition lastBackupTimes_get (f : BackupFrequency) : Prog (option Z) :=
  λ st, (Ok (lastBackupTimes st !! f), st).

(** [lastBackupTimes.set(frequency, date)] *)
Definition lastBackupTimes_set (f : BackupFrequency) (date : Z) : Prog unit :=
  λ st, (Ok tt, mkState (world st) (<[f := date]> (lastBackupTimes st)) (trace st)).

(** The body of the loop of [getLastBackupTimes]; [result] is the map
    under construction.  The console line leaves out the text of the
    date. *)
Definition getLastBackupTime (bucket prefix : string)
    (result : gmap BackupFrequency Z) (interval : BackupInterval)
    : Prog (gmap BackupFrequency Z) :=
  let f := frequency interval in
  try_catch
    (response <- await (list_objects bucket (prefix +:+ frequency_name f +:+ "/"))
                       (EvList bucket (prefix +:+ frequency_name f +:+ "/")) ;;
     match response with
     | Some (o :: contents) =>
         let sortedObjects := array_sort newest_first (o :: contents) in
         match sortedObjects with
         | {| LastModified := Some date |} :: _ =>
             console_log ("Found last " +:+ frequency_name f +:+ " backup") ;;;
             ret (<[f := date]> result)
         | _ => ret result
         end
     | _ => ret result
     end)
    (λ error,
       console_error ("Error getting last backup time for " +:+ frequency_name f +:+ ":") error ;;;
       ret result).

Fixpoint getLastBackupTimes_loop (bucket prefix : string)
    (intervals : list BackupInterval) (result : gmap BackupFrequency Z)
    : Prog (gmap BackupFrequency Z) :=
  match intervals with
  | [] => ret result
  | interval :: rest =>
      result' <- getLastBackupTime bucket prefix result interval ;;
      getLastBackupTimes_loop bucket prefix rest result'
  end.

Definition getLastBackupTimes (bucket prefix : string)
    : Prog (gmap BackupFrequency Z) :=
  console_log "Getting last backup times from S3..." ;;;
  getLastBackupTimes_loop bucket prefix BACKUP_INTERVALS ∅.

(** [BACKUP_INTERVALS.find(i => i.frequency === frequency)] *)
Definition find_interval (f : BackupFrequency) : option BackupInterval :=
  List.find (λ i, bool_decide (frequency i = f)) BACKUP_INTERVALS.

Definition shouldRunBackup (f : BackupFrequency) (now : Z) : Prog bool :=
  lastBackup <- lastBackupTimes_get f ;;
  match lastBackup with
  | None => ret true
  | Some lastBackup =>
      match find_interval f with
      | Some interval =>
          let timeSinceLastBackup := now - lastBackup in
          ret (bool_decide (timeSinceLastBackup >= milliseconds interval))
      | None => throw "TypeError: Cannot read properties of undefined"
      end
  end.

(** The callback of [exec] rejects the promise when the command failed and
    when the archive is invalid; [execSync] and [statSync] are called in the
    callback itself. *)
Definition dumpToFile (filePath : string) : Prog unit :=
  console_log "Dumping DB to file..." ;;;
  stderr <- await (exec_pg_dump filePath) (EvExec filePath) ;;
  n <- call_in_callback (gzip_head_length filePath) (EvGzipHead filePath) ;;
  (if bool_decide (n = 1) then ret tt
   else throw "Backup archive file is invalid or empty; check for errors above") ;;;
  (if bool_decide (stderr = "") then ret tt else console_log stderr) ;;;
  console_log "Backup archive file is valid" ;;;
  call_in_callback (stat_filesize filePath)
    (λ size, EvLog ("Backup filesize: " +:+ size)) ;;;
  (if bool_decide (stderr = "") then ret tt
   else console_log ("Potential warnings detected; Please ensure the backup file "
                     +:+ basename filePath +:+ " contains all needed data")) ;;;
  console_log "DB dumped to file...".

Definition deleteFile (path : string) : Prog unit :=
  console_log "Deleting file..." ;;;
  await (unlink path) (EvUnlink path) ;;;
  console_log "File deleted...".

(** The body of the loop of [cleanupOldBackups]; [!object.Key] holds of a
    missing and of an empty key. *)
Definition deleteObject (bucket : string) (object : S3Object) : Prog unit :=
  match Key object with
  | None => ret tt
  | Some key =>
      if bool_decide (key = "") then ret tt
      else
        await (delete_object bucket key) (EvDelete bucket key) ;;;
        console_log ("Deleted old backup: " +:+ key)
  end.

Definition cleanupOldBackups (bucket prefix : string) (f : BackupFrequency)
    : Prog unit :=
  console_log ("Cleaning up old " +:+ frequency_name f +:+ " backups...") ;;;
  response <- await (list_objects bucket (prefix +:+ frequency_name f +:+ "/"))
                    (EvList bucket (prefix +:+ frequency_name f +:+ "/")) ;;
  match response with
  | None => ret tt
  | Some contents =>
      let sortedObjects := array_sort newest_first contents in
      let objectsToDelete :=
        array_slice (BACKUP_RETENTION_COUNT env) sortedObjects in
      for_of objectsToDelete (deleteObject bucket)
  end.

(** [env.BUCKET_SUBFOLDER ? `${env.BUCKET_SUBFOLDER}/` : ''] *)
Definition key_prefix : string :=
  if bool_decide (BUCKET_SUBFOLDER env = "") then ""
  else BUCKET_SUBFOLDER env +:+ "/".

Definition uploadToS3 (name path : string) (f : BackupFrequency) : Prog unit :=
  console_log "Uploading backup to S3..." ;;;
  let bucket := AWS_S3_BUCKET env in
  let prefix := key_prefix in
  let s3Key := prefix +:+ frequency_name f +:+ "/" +:+ name in
  ContentMD5 <-
    (if SUPPORT_OBJECT_LOCK env then
       console_log "MD5 hashing file..." ;;;
       md5Hash <- await (createMD5 path) (EvMD5 path) ;;
       console_log "Done hashing file" ;;;
       ret (Some (hex_to_base64 md5Hash))
     else ret None) ;;
  await (upload_done bucket s3Key path ContentMD5)
        (EvUpload bucket s3Key path ContentMD5) ;;;
  console_log "Backup uploaded to S3" ;;;
  cleanupOldBackups bucket prefix f.

(** The [try] block of [runBackup]. *)
Definition runBackup_try (f : BackupFrequency) (now : Z) : Prog unit :=
  let timestamp := replace_runs false (toISOString now) in
  let filename := BACKUP_FILE_PREFIX env +:+ "-" +:+ timestamp +:+ ".tar.gz" in
  let filepath := tmpdir +:+ "/" +:+ filename in
  dumpToFile filepath ;;;
  uploadToS3 filename filepath f ;;;
  deleteFile filepath ;;;
  lastBackupTimes_set f now ;;;
  console_log ("DB backup complete (" +:+ frequency_name f +:+ " backup)...").

Definition runBackup (f : BackupFrequency) : Prog unit :=
  console_log ("Initiating " +:+ frequency_name f +:+ " backup...") ;;;
  now <- new_Date ;;
  try_catch (runBackup_try f now)
            (λ error, console_error "Backup failed:" error).

(** [export const backup]: a manual backup uses the 10min frequency. *)
Definition backup : Prog unit := runBackup freq_10min.

(** The body of the [for] loop of the scheduler.  The evaluation of
    [shouldRunBackup] is recorded in the trace. *)
Definition check_interval (interval : BackupInterval) : Prog unit :=
  let f := frequency interval in
  now <- new_Date ;;
  due <- shouldRunBackup f now ;;
  emit (EvEvaluate f now due) ;;;
  if due then
    console_log ("Triggering " +:+ frequency_name f +:+ " backup") ;;;
    runBackup f
  else ret tt.

(** One iteration of [while (true)]. *)
Definition tick : Prog unit :=
  now <- new_Date ;;
  let waitMs := (60 - getSeconds now) * 1000 - getMilliseconds now in
  sleep waitMs ;;;
  for_of BACKUP_INTERVALS check_interval ;;;
  sleep (60 * 1000).

(** [while (true) { ... }], observed for [ticks] iterations. *)
Fixpoint scheduler_loop (ticks : nat) : Prog unit :=
  match ticks with
  | O => λ st, (Pending, st)
  | S n => tick ;;; scheduler_loop n
  end.

(** [for (const [frequency, date] of initialBackupTimes)
       lastBackupTimes.set(frequency, date)].  The entries have distinct
    keys, so the order in which they are visited does not matter
    ([seed_spec]). *)
Definition seed (initialBackupTimes : gmap BackupFrequency Z) : Prog unit :=
  for_of (map_to_list initialBackupTimes)
         (λ entry, lastBackupTimes_set entry.1 entry.2).

Definition startBackupScheduler (ticks : nat) : Prog unit :=
  console_log "Starting backup scheduler..." ;;;
  let bucket := AWS_S3_BUCKET env in
  let prefix := key_prefix in
  initialBackupTimes <- getLastBackupTimes bucket prefix ;;
  seed initialBackupTimes ;;;
  scheduler_loop ticks.

(** ** The entry point, [index.ts] *)

Definition tryBackup : Prog unit :=
  try_catch backup
            (λ error,
               console_error "Error while running backup: " error ;;;
               process_exit 1).

Definition main (ticks : nat) : Prog unit :=
  try_catch
    ((if RUN_ON_STARTUP env || SINGLE_SHOT_MODE env then
        console_log "Running on start backup..." ;;;
        tryBackup ;;;
        if SINGLE_SHOT_MODE env then
          console_log "Database backup complete, exiting..." ;;;
          process_exit 0
        else ret tt
      else ret tt) ;;;
     startBackupScheduler ticks)
    (λ error,
       console_error "Application failed:" error ;;;
       process_exit 1).

(** [main().catch(...)] *)
Definition start (ticks : nat) : Prog unit :=
  try_catch (main ticks)
            (λ error,
               console_error "Failed to start application:" error ;;;
               process_exit 1).

End Program.

(** ** Reading a trace *)

(** The keys whose deletion was attempted, in order. *)
Definition deletions (evs : list Event) : list string :=
  omap (λ ev, match ev with EvDelete _ key _ => Some key | _ => None end) evs.

(** The frequencies the scheduler evaluated, in order. *)
Definition evaluated (evs : list Event) : list BackupFrequency :=
  omap (λ ev, match ev with EvEvaluate f _ _ => Some f | _ => None end) evs.

(** The dumps that were started: one per backup cycle. *)
Definition dumps (evs : list Event) : list string :=
  omap (λ ev, match ev with EvExec filePath _ => Some filePath | _ => None end) evs.

(** The listings the store was asked for, with its answers. *)
Definition listings (evs : list Event)
    : list (string * settled (option (list S3Object))) :=
  omap (λ ev, match ev with EvList _ prefix r => Some (prefix, r) | _ => None end) evs.

Definition sleeps (evs : list Event) : list Z :=
  omap (λ ev, match ev with EvSleep ms => Some ms | _ => None end) evs.

(** The uploads that were made, with how they ended. *)
Definition uploads (evs : list Event) : list (string * settled unit) :=
  omap (λ ev, match ev with EvUpload _ key _ _ r => Some (key, r) | _ => None end) evs.

(** The deletions of local files, with how they ended. *)
Definition unlinks (evs : list Event) : list (string * settled unit) :=
  omap (λ ev, match ev with EvUnlink path r => Some (path, r) | _ => None end) evs.

(** The state after a console line. *)
Definition logged {W} (line : string) (st : State W) : State W :=
  mkState (world st) (lastBackupTimes st) (trace st ++ [EvLog line]).

Definition not_unlink (ev : Event) : Prop :=
  match ev with
  | EvUnlink _ _ => False
  | _ => True
  end.

(** An event that is not the scheduler's own. *)
Definition unscheduled (ev : Event) : Prop :=
  match ev with
  | EvSleep _ | EvEvaluate _ _ _ => False
  | _ => True
  end.

(** ** Ordering of objects *)

(** [a] is at least as recent as [b], in the eyes of the comparator. *)
Definition newer_or_equal (a b : S3Object) : Prop := time_or_0 b <= time_or_0 a.

(** [d] is the maximum last-modified time among [objs]. *)
Definition latest (d : Z) (objs : list S3Object) : Prop :=
  (∃ o, o ∈ objs ∧ LastModified o = Some d) ∧
  ∀ o t, o ∈ objs → LastModified o = Some t → t <= d.

Definition dated (o : S3Object) : Prop := is_Some (LastModified o).

(** The object has a key that [!object.Key] does not reject. *)
Definition keyed (o : S3Object) : Prop := ∃ key, Key o = Some key ∧ key ≠ "".

Definition key_of (o : S3Object) : string := default "" (Key o).

(** The interval of a cadence, from the table. *)
Definition cadence_duration (f : BackupFrequency) : Z :=
  match find_interval f with
  | Some interval => milliseconds interval
  | None => 0
  end.

(** ** Outcomes, due-ness and what a run leaves behind *)

(** The program piece returned or threw: the process did not exit and the
    piece is not still running. *)
Definition settles {A} (r : result A) : Prop :=
  match r with
  | Ok _ | Throw _ => True
  | Exit _ | Pending | Uncaught _ => False
  end.

(** The program piece returned or threw, or it ended in an uncaught
    exception, whose report [evs] then ends with. *)
Definition settles_or_crashes {A} (evs : list Event) (r : result A) : Prop :=
  match r with
  | Ok _ | Throw _ => True
  | Uncaught e => ∃ evs', evs = evs' ++ [EvUncaught e]
  | Exit _ | Pending => False
  end.

(** What a piece of the pipeline can do at most: return, throw or end in an
    uncaught exception, leave [lastBackupTimes] alone, and add events of the
    kind [P] to the trace. *)
Definition confined {W A} (P : Event → Prop) (m : M W A) : Prop :=
  ∀ st, ∃ r w evs,
    m st = (r, mkState w (lastBackupTimes st) (trace st ++ evs)) ∧
    Forall P evs ∧ settles_or_crashes evs r.

(** The exit code of the process, once it has ended. *)
Definition exit_code {A} (r : result A) : option Z :=
  match r with
  | Exit code => Some code
  | Uncaught _ => Some 1
  | Ok _ | Throw _ | Pending => None
  end.

(** How one run of [runBackup] ended: with success, with an error thrown
    by the dump, the upload or the cleanup, with an error thrown by the
    deletion of the local file, or with an exception that nobody caught. *)
Inductive Outcome :=
| Succeeded
| FailedEarly (e : Error)
| FailedUnlink (e : Error)
| Crashed (e : Error).

(** How [runBackup] ends for each outcome of the run: it returns, unless the
    run crashed. *)
Definition ending (o : Outcome) : result unit :=
  match o with
  | Succeeded | FailedEarly _ | FailedUnlink _ => Ok tt
  | Crashed e => Uncaught e
  end.

(** Whether a cadence is due, given the recorded times. *)
Definition due_at (times : gmap BackupFrequency Z) (f : BackupFrequency)
    (now : Z) : bool :=
  match times !! f with
  | None => true
  | Some lastBackup => bool_decide (now - lastBackup >= cadence_duration f)
  end.

(** The date [getLastBackupTimes] takes from the answer to a listing: the
    [LastModified] of the first object after sorting. *)
Definition first_date (answer : settled (option (list S3Object))) : option Z :=
  match answer with
  | Resolved (Some (o :: contents)) =>
      match array_sort newest_first (o :: contents) with
      | first :: _ => LastModified first
      | [] => None
      end
  | _ => None
  end.

Definition seeded (f : BackupFrequency)
    (answer : settled (option (list S3Object)))
    (result : gmap BackupFrequency Z) : gmap BackupFrequency Z :=
  match first_date answer with
  | Some date => <[f := date]> result
  | None => result
  end.

(** The key under which the deletion of an object is requested, if any:
    the loop skips an object whose key is missing or empty. *)
Definition candidate_key (o : S3Object) : option string :=
  match Key o with
  | Some key => if bool_decide (key = "") then None else Some key
  | None => None
  end.

Definition candidate_keys (objs : list S3Object) : list string :=
  omap candidate_key objs.

(** The last event of a run. *)
Definition final_event (f : BackupFrequency) (o : Outcome) : Event :=
  match o with
  | Succeeded =>
      EvLog ("DB backup complete (" +:+ frequency_name f +:+ " backup)...")
  | FailedEarly e | FailedUnlink e => EvError "Backup failed:" e
  | Crashed e => EvUncaught e
  end.

Section Vocabulary.
Context {W : Type} `{!Collaborators W} (env : Env).

(** The local path of the archive of a backup started at [now]. *)
Definition filepath_at (now : Z) : string :=
  tmpdir +:+ "/" +:+
  (BACKUP_FILE_PREFIX env +:+ "-" +:+ replace_runs false (toISOString now)
     +:+ ".tar.gz").

(** What a run for the cadence [f] may leave in the trace: nothing of the
    scheduler's own, and store requests only on the configured bucket and
    under the prefix of [f]. *)
Definition of_cadence (f : BackupFrequency) (ev : Event) : Prop :=
  match ev with
  | EvSleep _ | EvEvaluate _ _ _ => False
  | EvUpload bucket key _ _ _ =>
      bucket = AWS_S3_BUCKET env ∧
      ∃ name, key = key_prefix env +:+ frequency_name f +:+ "/" +:+ name
  | EvList bucket prefix _ =>
      bucket = AWS_S3_BUCKET env ∧
      prefix = key_prefix env +:+ frequency_name f +:+ "/"
  | EvDelete bucket _ _ => bucket = AWS_S3_BUCKET env
  | _ => True
  end.

Definition before_unlink (f : BackupFrequency) (ev : Event) : Prop :=
  of_cadence f ev ∧ not_unlink ev.

(** The events a run ends with, after the dump and the upload. *)
Definition trigger_tail (f : BackupFrequency) (now : Z) (o : Outcome)
    : list Event :=
  match o with
  | Succeeded =>
      [ EvLog "Deleting file..."; EvUnlink (filepath_at now) (Resolved tt);
        EvLog "File deleted...";
        EvLog ("DB backup complete (" +:+ frequency_name f +:+ " backup)...") ]
  | FailedEarly e => [ EvError "Backup failed:" e ]
  | FailedUnlink e =>
      [ EvLog "Deleting file..."; EvUnlink (filepath_at now) (Rejected e);
        EvError "Backup failed:" e ]
  | Crashed e => [ EvUncaught e ]
  end.

(** [lastBackupTimes] after a run that ended with [o]. *)
Definition marked (f : BackupFrequency) (now : Z) (o : Outcome)
    (times : gmap BackupFrequency Z) : gmap BackupFrequency Z :=
  match o with
  | Succeeded => <[f := now]> times
  | FailedEarly _ | FailedUnlink _ | Crashed _ => times
  end.

(** What one run of [runBackup] adds to the trace. *)
Definition run_events (f : BackupFrequency) (now : Z) (evs : list Event)
    (o : Outcome) : list Event :=
  EvLog ("Initiating " +:+ frequency_name f +:+ " backup...")
  :: EvNow now :: evs ++ trigger_tail f now o.

(** What the scheduler's check of one cadence does: it reads the clock
    and evaluates the cadence and, when the cadence is due, makes one run.
    [segment f times seg times' r] relates the recorded times before, the
    events added, the recorded times after, and how the check ended. *)
Inductive segment (f : BackupFrequency) (times : gmap BackupFrequency Z)
    : list Event → gmap BackupFrequency Z → result unit → Prop :=
| segment_idle t :
    due_at times f t = false →
    segment f times [EvNow t; EvEvaluate f t false] times (Ok tt)
| segment_run t now evs o :
    due_at times f t = true →
    Forall (before_unlink f) evs →
    segment f times
      (EvNow t :: EvEvaluate f t true
       :: EvLog ("Triggering " +:+ frequency_name f +:+ " backup")
       :: run_events f now evs o)
      (marked f now o times) (ending o).

(** The checks of the cadences [fs], one after the other, each of which
    returned. *)
Inductive segments
    : gmap BackupFrequency Z → list BackupFrequency → list Event
      → gmap BackupFrequency Z → Prop :=
| segments_nil times :
    segments times [] [] times
| segments_cons times f fs seg times1 evs times2 :
    segment f times seg times1 (Ok tt) →
    segments times1 fs evs times2 →
    segments times (f :: fs) (seg ++ evs) times2.

(** [waitMs] of the scheduler. *)
Definition waitMs (now : Z) : Z :=
  (60 - getSeconds now) * 1000 - getMilliseconds now.

(** One iteration of the loop: the alignment sleep, the four cadences in
    the order of the table, each starting from what the one before it
    left, and the one-minute sleep. *)
Inductive tick_events (times : gmap BackupFrequency Z)
    : list Event → gmap BackupFrequency Z → Prop :=
| tick_events_intro t0 sw sd sh sm times1 times2 times3 times4 :
    segment weekly times sw times1 (Ok tt) →
    segment daily times1 sd times2 (Ok tt) →
    segment hourly times2 sh times3 (Ok tt) →
    segment freq_10min times3 sm times4 (Ok tt) →
    tick_events times
      (EvNow t0 :: EvSleep (waitMs t0) :: sw ++ sd ++ sh ++ sm
         ++ [EvSleep (60 * 1000)])
      times4.

(** An iteration that a crash cut short: the alignment sleep, the checks
    of the cadences [checked], in the order of the table, which returned,
    and the check of the next cadence [f], whose run ended in the uncaught
    exception [e].  The cadences [unchecked] are not reached. *)
Inductive tick_cut_short (times : gmap BackupFrequency Z)
    : list Event → gmap BackupFrequency Z → Error → Prop :=
| tick_cut_short_intro t0 checked f unchecked segs times1 seg times2 e :
    frequency <$> BACKUP_INTERVALS = checked ++ f :: unchecked →
    segments times checked segs times1 →
    segment f times1 seg times2 (Uncaught e) →
    tick_cut_short times
      (EvNow t0 :: EvSleep (waitMs t0) :: segs ++ seg) times2 e.

Definition listing_prefix (prefix : string) (f : BackupFrequency) : string :=
  prefix +:+ frequency_name f +:+ "/".

(** The map built from the answers to the four listings. *)
Definition seeded_all (answer : BackupFrequency → settled (option (list S3Object)))
    : gmap BackupFrequency Z :=
  seeded freq_10min (answer freq_10min)
    (seeded hourly (answer hourly)
       (seeded daily (answer daily)
          (seeded weekly (answer weekly) ∅))).

(** The listings asked for, cadence by cadence in the order of the table. *)
Definition listings_asked (prefix : string)
    (answer : BackupFrequency → settled (option (list S3Object)))
    : list (string * settled (option (list S3Object))) :=
  (λ interval, (listing_prefix prefix (frequency interval),
                answer (frequency interval))) <$> BACKUP_INTERVALS.

(** [objectsToDelete] *)
Definition objectsToDelete (contents : list S3Object) : list S3Object :=
  array_slice (BACKUP_RETENTION_COUNT env) (array_sort newest_first contents).

(** The exception [e] is one that the validity check of an archive threw:
    its [execSync] or its [statSync]. *)
Definition thrown_by_check (e : Error) : Prop :=
  ∃ filePath w w',
    gzip_head_length filePath w = (Threw e, w') ∨
    stat_filesize filePath w = (Threw e, w').

(** A program piece that ends in an uncaught exception only when the
    validity check threw it. *)
Definition crashes_in_check {A} (m : M W A) : Prop :=
  ∀ st e st', m st = (Uncaught e, st') → thrown_by_check e.

End Vocabulary.

(** ** The stages of a run

    The shapes the trace of each stage of the pipeline can take, and the
    result that goes with each shape. *)

(** The evaluations the scheduler made, with their instants and answers. *)
Definition evaluations (evs : list Event) : list (BackupFrequency * Z * bool) :=
  omap (λ ev, match ev with
              | EvEvaluate f now due => Some (f, now, due)
              | _ => None
              end) evs.

(** The hashes that were computed, with how they ended. *)
Definition md5s (evs : list Event) : list (string * settled string) :=
  omap (λ ev, match ev with EvMD5 path r => Some (path, r) | _ => None end) evs.

(** The validity checks of archives, with the lengths they read. *)
Definition gzip_checks (evs : list Event) : list (string * Z) :=
  omap (λ ev, match ev with EvGzipHead path n => Some (path, n) | _ => None end) evs.

(** The errors with which the store rejected a listing or a deletion. *)
Definition store_rejections (evs : list Event) : list Error :=
  omap (λ ev, match ev with
              | EvList _ _ (Rejected e) | EvDelete _ _ (Rejected e) => Some e
              | _ => None
              end) evs.

(** The errors with which awaited promises were rejected: the dump, the
    hash, the upload, a listing, a deletion in the store, the deletion of
    the local file. *)
Definition rejections (evs : list Event) : list Error :=
  omap (λ ev, match ev with
              | EvExec _ (Rejected e) | EvMD5 _ (Rejected e)
              | EvUpload _ _ _ _ (Rejected e) | EvList _ _ (Rejected e)
              | EvDelete _ _ (Rejected e) | EvUnlink _ (Rejected e) => Some e
              | _ => None
              end) evs.

(** The kinds of events each stage can add to the trace. *)
Definition dump_kind (ev : Event) : bool :=
  match ev with
  | EvLog _ | EvError _ _ | EvExec _ _ | EvGzipHead _ _ | EvUncaught _ => true
  | _ => false
  end.

Definition hash_kind (ev : Event) : bool :=
  match ev with
  | EvLog _ | EvError _ _ | EvMD5 _ _ => true
  | _ => false
  end.

Definition cleanup_kind (ev : Event) : bool :=
  match ev with
  | EvLog _ | EvError _ _ | EvList _ _ _ | EvDelete _ _ _ => true
  | _ => false
  end.

Definition tail_kind (ev : Event) : bool :=
  match ev with
  | EvLog _ | EvError _ _ | EvUnlink _ _ => true
  | _ => false
  end.

(** The events a program piece added to the trace, between the state it
    started in and the state it left. *)
Definition added {W} (st st' : State W) : list Event :=
  drop (length (trace st)) (trace st').

(** A console line. *)
Definition console (ev : Event) : Prop :=
  match ev with
  | EvLog _ | EvError _ _ => True
  | _ => False
  end.

(** [dumpToFile]: the dump is rejected; or it resolves and the command of
    the validity check throws; or the archive is invalid; or it is valid and
    the examination of the file throws; or it is valid and the stage
    returns. *)
Inductive dump_trace (filePath : string) : list Event → result unit → Prop :=
| dump_rejected e :
    dump_trace filePath
      [EvLog "Dumping DB to file..."; EvExec filePath (Rejected e)]
      (Throw e)
| dump_check_threw stderr e :
    dump_trace filePath
      [EvLog "Dumping DB to file..."; EvExec filePath (Resolved stderr);
       EvUncaught e]
      (Uncaught e)
| dump_stat_threw stderr logs e :
    Forall console logs →
    dump_trace filePath
      (EvLog "Dumping DB to file..." :: EvExec filePath (Resolved stderr)
       :: EvGzipHead filePath 1 :: logs ++ [EvUncaught e])
      (Uncaught e)
| dump_invalid stderr n :
    n ≠ 1 →
    dump_trace filePath
      [EvLog "Dumping DB to file..."; EvExec filePath (Resolved stderr);
       EvGzipHead filePath n]
      (Throw "Backup archive file is invalid or empty; check for errors above")
| dump_valid stderr logs :
    Forall console logs →
    dump_trace filePath
      (EvLog "Dumping DB to file..." :: EvExec filePath (Resolved stderr)
       :: EvGzipHead filePath 1 :: logs)
      (Ok tt).

(** The loop of [cleanupOldBackups] over the objects to delete. *)
Inductive delete_trace (bucket : string)
    : list S3Object → list Event → result unit → Prop :=
| delete_done :
    delete_trace bucket [] [] (Ok tt)
| delete_skipped o objs evs r :
    candidate_key o = None →
    delete_trace bucket objs evs r →
    delete_trace bucket (o :: objs) evs r
| delete_resolved o key objs evs r :
    candidate_key o = Some key →
    delete_trace bucket objs evs r →
    delete_trace bucket (o :: objs)
      (EvDelete bucket key (Resolved tt)
       :: EvLog ("Deleted old backup: " +:+ key) :: evs)
      r
| delete_rejected o key e objs :
    candidate_key o = Some key →
    delete_trace bucket (o :: objs) [EvDelete bucket key (Rejected e)] (Throw e).

Section Stages.
Context {W : Type} `{!Collaborators W} (env : Env).

(** The name of the archive of a backup started at [now]. *)
Definition filename_at (now : Z) : string :=
  BACKUP_FILE_PREFIX env +:+ "-" +:+ replace_runs false (toISOString now)
    +:+ ".tar.gz".

(** The key under which the backup of [f] started at [now] is uploaded. *)
Definition key_at (f : BackupFrequency) (now : Z) : string :=
  key_prefix env +:+ frequency_name f +:+ "/" +:+ filename_at now.

(** [cleanupOldBackups]: the listing is rejected; or it has no [Contents];
    or it has, and the loop runs over the objects to delete. *)
Inductive cleanup_trace (bucket prefix : string) (f : BackupFrequency)
    : list Event → result unit → Prop :=
| cleanup_list_rejected e :
    cleanup_trace bucket prefix f
      [EvLog ("Cleaning up old " +:+ frequency_name f +:+ " backups...");
       EvList bucket (listing_prefix prefix f) (Rejected e)]
      (Throw e)
| cleanup_no_contents :
    cleanup_trace bucket prefix f
      [EvLog ("Cleaning up old " +:+ frequency_name f +:+ " backups...");
       EvList bucket (listing_prefix prefix f) (Resolved None)]
      (Ok tt)
| cleanup_listed contents evs r :
    delete_trace bucket (objectsToDelete env contents) evs r →
    cleanup_trace bucket prefix f
      (EvLog ("Cleaning up old " +:+ frequency_name f +:+ " backups...")
       :: EvList bucket (listing_prefix prefix f) (Resolved (Some contents))
       :: evs)
      r.

(** The hashing step of [uploadToS3]: off; or on and resolved with [h]; or
    on and rejected. *)
Inductive hash_trace (path : string)
    : list Event → result (option string) → Prop :=
| hash_off :
    SUPPORT_OBJECT_LOCK env = false →
    hash_trace path [] (Ok None)
| hash_resolved h :
    SUPPORT_OBJECT_LOCK env = true →
    hash_trace path
      [EvLog "MD5 hashing file..."; EvMD5 path (Resolved h);
       EvLog "Done hashing file"]
      (Ok (Some (hex_to_base64 h)))
| hash_rejected e :
    SUPPORT_OBJECT_LOCK env = true →
    hash_trace path
      [EvLog "MD5 hashing file..."; EvMD5 path (Rejected e)]
      (Throw e).

(** [uploadToS3]: the hashing throws; or the upload is rejected; or the
    upload resolves and the cleanup follows. *)
Inductive upload_trace (name path : string) (f : BackupFrequency)
    : list Event → result unit → Prop :=
| upload_hash_failed hashing e :
    hash_trace path hashing (Throw e) →
    upload_trace name path f
      (EvLog "Uploading backup to S3..." :: hashing)
      (Throw e)
| upload_rejected hashing md5 e :
    hash_trace path hashing (Ok md5) →
    upload_trace name path f
      (EvLog "Uploading backup to S3..." :: hashing ++
       [EvUpload (AWS_S3_BUCKET env)
          (key_prefix env +:+ frequency_name f +:+ "/" +:+ name) path md5
          (Rejected e)])
      (Throw e)
| upload_resolved hashing md5 cleaning r :
    hash_trace path hashing (Ok md5) →
    cleanup_trace (AWS_S3_BUCKET env) (key_prefix env) f cleaning r →
    upload_trace name path f
      (EvLog "Uploading backup to S3..." :: hashing ++
       EvUpload (AWS_S3_BUCKET env)
         (key_prefix env +:+ frequency_name f +:+ "/" +:+ name) path md5
         (Resolved tt)
       :: EvLog "Backup uploaded to S3" :: cleaning)
      r.

(** [runBackup]: the dump ends in an uncaught exception; or it throws; or
    the upload with its cleanup throws; or both return and the run ends with
    the deletion of the local file. *)
Inductive run_trace (f : BackupFrequency) (now : Z)
    : list Event → Outcome → Prop :=
| run_crashed dumping e :
    dump_trace (filepath_at env now) dumping (Uncaught e) →
    run_trace f now
      (EvLog ("Initiating " +:+ frequency_name f +:+ " backup...")
       :: EvNow now :: dumping)
      (Crashed e)
| run_dump_failed dumping e :
    dump_trace (filepath_at env now) dumping (Throw e) →
    run_trace f now
      (EvLog ("Initiating " +:+ frequency_name f +:+ " backup...")
       :: EvNow now :: dumping ++ [EvError "Backup failed:" e])
      (FailedEarly e)
| run_upload_failed dumping uploading e :
    dump_trace (filepath_at env now) dumping (Ok tt) →
    upload_trace (filename_at now) (filepath_at env now) f uploading (Throw e) →
    run_trace f now
      (EvLog ("Initiating " +:+ frequency_name f +:+ " backup...")
       :: EvNow now :: dumping ++ uploading ++ [EvError "Backup failed:" e])
      (FailedEarly e)
| run_unlink_failed dumping uploading e :
    dump_trace (filepath_at env now) dumping (Ok tt) →
    upload_trace (filename_at now) (filepath_at env now) f uploading (Ok tt) →
    run_trace f now
      (EvLog ("Initiating " +:+ frequency_name f +:+ " backup...")
       :: EvNow now :: dumping ++ uploading
       ++ trigger_tail env f now (FailedUnlink e))
      (FailedUnlink e)
| run_succeeded dumping uploading :
    dump_trace (filepath_at env now) dumping (Ok tt) →
    upload_trace (filename_at now) (filepath_at env now) f uploading (Ok tt) →
    run_trace f now
      (EvLog ("Initiating " +:+ frequency_name f +:+ " backup...")
       :: EvNow now :: dumping ++ uploading
       ++ trigger_tail env f now Succeeded)
      Succeeded.

End Stages.

(** ** A scripted world

    Collaborators whose answers are fixed in advance; the world is the
    current time, which [sleep] and the dump advance. *)
Record Script := {
  script_dump : settled string;
  script_dump_ms : Z;                 (* how long the dump takes *)
  script_gzip_head : completed Z;
  script_stat : completed string;
  script_upload : settled unit;
  script_listing : string → settled (option (list S3Object));
  script_delete : string → settled unit;
  script_unlink : settled unit
}.

Definition scripted (s : Script) : Collaborators Z := {|
  clock := λ t, (t, t);
  toISOString := λ _, "2025-01-01T00:00:00.000Z";
  tmpdir := "/tmp";
  exec_pg_dump := λ _ t, (script_dump s, t + script_dump_ms s);
  gzip_head_length := λ _ t, (script_gzip_head s, t);
  stat_filesize := λ _ t, (script_stat s, t);
  basename := λ p, p;
  createMD5 := λ _ t, (Resolved "00", t);
  hex_to_base64 := λ h, h;
  upload_done := λ _ _ _ _ t, (script_upload s, t);
  list_objects := λ _ prefix t, (script_listing s prefix, t);
  delete_object := λ _ key t, (script_delete s key, t);
  unlink := λ _ t, (script_unlink s, t);
  elapse := λ ms t, t + ms
|}.

Definition initial_state (t : Z) : State Z := mkState t ∅ [].

Definition obj (key : string) (t : Z) : S3Object :=
  {| Key := Some key; LastModified := Some t |}.

(** A store where everything succeeds and every prefix holds [objs]. *)
Definition healthy (objs : list S3Object) : Script := {|
  script_dump := Resolved "";
  script_dump_ms := 0;
  script_gzip_head := Returned 1;
  script_stat := Returned "1 kB";
  script_upload := Resolved tt;
  script_listing := λ _, Resolved (Some objs);
  script_delete := λ _, Resolved tt;
  script_unlink := Resolved tt
|}.

Definition test_env : Env := {|
  AWS_S3_BUCKET := "bucket";
  AWS_S3_ENDPOINT := "";
  BUCKET_SUBFOLDER := "db";
  BACKUP_FILE_PREFIX := "backup";
  BACKUP_RETENTION_COUNT := 2;
  SUPPORT_OBJECT_LOCK := false;
  RUN_ON_STARTUP := false;
  SINGLE_SHOT_MODE := false
|}.

Definition three_objects : list S3Object :=
  [obj "db/hourly/b" 2000; obj "db/hourly/c" 3000; obj "db/hourly/a" 1000].

Definition four_objects : list S3Object :=
  [ obj "db/hourly/b" 2000; obj "db/hourly/d" 4000;
    obj "db/hourly/a" 1000; obj "db/hourly/c" 3000 ].

(** The dump utility fails. *)
Definition failing_dump : Script := {|
  script_dump := Rejected "pg_dump: error: connection to server failed";
  script_dump_ms := 0;
  script_gzip_head := Returned 0;
  script_stat := Returned "1 kB";
  script_upload := Resolved tt;
  script_listing := λ _, Resolved (Some three_objects);
  script_delete := λ _, Resolved tt;
  script_unlink := Resolved tt
|}.

(** The local file cannot be deleted. *)
Definition failing_unlink : Script := {|
  script_dump := Resolved "";
  script_dump_ms := 0;
  script_gzip_head := Returned 1;
  script_stat := Returned "1 kB";
  script_upload := Resolved tt;
  script_listing := λ _, Resolved (Some three_objects);
  script_delete := λ _, Resolved tt;
  script_unlink := Rejected "EACCES: permission denied"
|}.

(** The store refuses to delete one object. *)
Definition failing_delete : Script := {|
  script_dump := Resolved "";
  script_dump_ms := 0;
  script_gzip_head := Returned 1;
  script_stat := Returned "1 kB";
  script_upload := Resolved tt;
  script_listing := λ _, Resolved (Some four_objects);
  script_delete := λ key,
    if bool_decide (key = "db/hourly/b") then Rejected "AccessDenied"
    else Resolved tt;
  script_unlink := Resolved tt
|}.

Definition single_shot_env : Env := {|
  AWS_S3_BUCKET := "bucket";
  AWS_S3_ENDPOINT := "";
  BUCKET_SUBFOLDER := "db";
  BACKUP_FILE_PREFIX := "backup";
  BACKUP_RETENTION_COUNT := 2;
  SUPPORT_OBJECT_LOCK := false;
  RUN_ON_STARTUP := false;
  SINGLE_SHOT_MODE := true
|}.

Definition retain_one_env : Env := {|
  AWS_S3_BUCKET := "bucket";
  AWS_S3_ENDPOINT := "";
  BUCKET_SUBFOLDER := "db";
  BACKUP_FILE_PREFIX := "backup";
  BACKUP_RETENTION_COUNT := 1;
  SUPPORT_OBJECT_LOCK := false;
  RUN_ON_STARTUP := false;
  SINGLE_SHOT_MODE := false
|}.

Definition archive : string := "/tmp/backup-2025-01-01T00-00-00-000Z.tar.gz".

(** The upload is rejected. *)
Definition failing_upload : Script := {|
  script_dump := Resolved "";
  script_dump_ms := 0;
  script_gzip_head := Returned 1;
  script_stat := Returned "1 kB";
  script_upload := Rejected "SlowDown";
  script_listing := λ _, Resolved (Some three_objects);
  script_delete := λ _, Resolved tt;
  script_unlink := Resolved tt
|}.

(** The store rejects every listing. *)
Definition failing_listing : Script := {|
  script_dump := Resolved "";
  script_dump_ms := 0;
  script_gzip_head := Returned 1;
  script_stat := Returned "1 kB";
  script_upload := Resolved tt;
  script_listing := λ _, Rejected "AccessDenied";
  script_delete := λ _, Resolved tt;
  script_unlink := Resolved tt
|}.

(** The archive is empty. *)
Definition empty_archive : Script := {|
  script_dump := Resolved "";
  script_dump_ms := 0;
  script_gzip_head := Returned 0;
  script_stat := Returned "1 kB";
  script_upload := Resolved tt;
  script_listing := λ _, Resolved (Some three_objects);
  script_delete := λ _, Resolved tt;
  script_unlink := Resolved tt
|}.

Definition object_lock_env : Env := {|
  AWS_S3_BUCKET := "bucket";
  AWS_S3_ENDPOINT := "";
  BUCKET_SUBFOLDER := "db";
  BACKUP_FILE_PREFIX := "backup";
  BACKUP_RETENTION_COUNT := 2;
  SUPPORT_OBJECT_LOCK := true;
  RUN_ON_STARTUP := false;
  SINGLE_SHOT_MODE := false
|}.

Definition run_on_startup_env : Env := {|
  AWS_S3_BUCKET := "bucket";
  AWS_S3_ENDPOINT := "";
  BUCKET_SUBFOLDER := "db";
  BACKUP_FILE_PREFIX := "backup";
  BACKUP_RETENTION_COUNT := 2;
  SUPPORT_OBJECT_LOCK := false;
  RUN_ON_STARTUP := true;
  SINGLE_SHOT_MODE := false
|}.

Definition retain_five_env : Env := {|
  AWS_S3_BUCKET := "bucket";
  AWS_S3_ENDPOINT := "";
  BUCKET_SUBFOLDER := "db";
  BACKUP_FILE_PREFIX := "backup";
  BACKUP_RETENTION_COUNT := 5;
  SUPPORT_OBJECT_LOCK := false;
  RUN_ON_STARTUP := false;
  SINGLE_SHOT_MODE := false
|}.

Definition hourly_interval : BackupInterval :=
  {| frequency := hourly; milliseconds := 60 * 60 * 1000 |}.

(** A listing with an object without key and one with an empty key. *)
Definition keyless_objects : list S3Object :=
  [ {| Key := None; LastModified := Some 1000 |};
    obj "db/hourly/d" 4000;
    {| Key := Some ""; LastModified := Some 2000 |};
    obj "db/hourly/c" 3000;
    obj "db/hourly/e" 500 ].

(** A listing with objects that carry no date. *)
Definition partly_dated_objects : list S3Object :=
  [ {| Key := Some "db/hourly/x"; LastModified := None |};
    obj "db/hourly/b" 2000;
    obj "db/hourly/c" 3000;
    {| Key := Some "db/hourly/y"; LastModified := None |} ].

Definition undated_objects : list S3Object :=
  [ {| Key := Some "db/hourly/x"; LastModified := None |};
    {| Key := Some "db/hourly/y"; LastModified := None |} ].

(** The dump takes eleven minutes. *)
Definition slow_dump : Script := {|
  script_dump := Resolved "";
  script_dump_ms := 11 * 60 * 1000;
  script_gzip_head := Returned 1;
  script_stat := Returned "1 kB";
  script_upload := Resolved tt;
  script_listing := λ _, Resolved (Some three_objects);
  script_delete := λ _, Resolved tt;
  script_unlink := Resolved tt
|}.

(** The store is empty and the command of the validity check cannot be
    run. *)
Definition throwing_check : Script := {|
  script_dump := Resolved "";
  script_dump_ms := 0;
  script_gzip_head := Threw "Error: spawnSync /bin/sh ENOMEM";
  script_stat := Returned "1 kB";
  script_upload := Resolved tt;
  script_listing := λ _, Resolved None;
  script_delete := λ _, Resolved tt;
  script_unlink := Resolved tt
|}.

(** The store is empty; the archive is valid but has gone when its size is
    asked for. *)
Definition vanished_archive : Script := {|
  script_dump := Resolved "";
  script_dump_ms := 0;
  script_gzip_head := Returned 1;
  script_stat := Threw "Error: ENOENT: no such file or directory, stat";
  script_upload := Resolved tt;
  script_listing := λ _, Resolved None;
  script_delete := λ _, Resolved tt;
  script_unlink := Resolved tt
|}.

(** ** A store that remembers

    Collaborators of a machine with a clock and an object store that keeps
    what is uploaded to it, dated at the time of the upload, and lists it
    by prefix.  Every dump takes [dump_ms] and nothing fails. *)
Record Machine := {
  machine_time : Z;
  stored : list S3Object
}.

Definition key_under (prefix : string) (o : S3Object) : bool :=
  match Key o with
  | Some key => String.prefix prefix key
  | None => false
  end.

Definition key_is (key : string) (o : S3Object) : bool :=
  bool_decide (Key o = Some key).

Definition later (ms : Z) (m : Machine) : Machine :=
  {| machine_time := machine_time m + ms; stored := stored m |}.

Definition remembering (dump_ms : Z) : Collaborators Machine := {|
  clock := λ m, (machine_time m, m);
  toISOString := λ _, "2025-01-01T00:00:00.000Z";
  tmpdir := "/tmp";
  exec_pg_dump := λ _ m, (Resolved "", later dump_ms m);
  gzip_head_length := λ _ m, (Returned 1, m);
  stat_filesize := λ _ m, (Returned "1 kB", m);
  basename := λ p, p;
  createMD5 := λ _ m, (Resolved "00", m);
  hex_to_base64 := λ h, h;
  upload_done := λ _ key _ _ m,
    (Resolved tt,
     {| machine_time := machine_time m;
        stored := List.filter (λ o, negb (key_is key o)) (stored m)
                  ++ [obj key (machine_time m)] |});
  list_objects := λ _ prefix m,
    (Resolved (match List.filter (key_under prefix) (stored m) with
               | [] => None
               | objs => Some objs
               end), m);
  delete_object := λ _ key m,
    (Resolved tt,
     {| machine_time := machine_time m;
        stored := List.filter (λ o, negb (key_is key o)) (stored m) |});
  unlink := λ _ m, (Resolved tt, m);
  elapse := later
|}.

(** A machine whose store is empty. *)
Definition fresh_machine (t : Z) : State Machine :=
  mkState {| machine_time := t; stored := [] |} ∅ [].

(** * Facts *)

(** ** Sorting and slicing *)

Lemma sort_insert_perm {A} (compareFn : A → A → Z) x l :
  sort_insert compareFn x l ≡ₚ x :: l.
Proof.
  induction l as [|y l IH]; simpl; [done|].
  destruct (compareFn x y <=? 0); [done|].
  by rewrite IH, Permutation_swap.
Qed.

Lemma array_sort_perm {A} (compareFn : A → A → Z) l :
  array_sort compareFn l ≡ₚ l.
Proof.
  induction l as [|x l IH]; simpl; [done|].
  by rewrite sort_insert_perm, IH.
Qed.

Lemma array_sort_length {A} (compareFn : A → A → Z) l :
  length (array_sort compareFn l) = length l.
Proof. by rewrite array_sort_perm. Qed.

Lemma sort_insert_newest_first x l :
  StronglySorted newer_or_equal l →
  StronglySorted newer_or_equal (sort_insert newest_first x l).
Proof.
  induction 1 as [|y l Hl IH Hy]; simpl.
  - repeat constructor.
  - destruct (Z.leb_spec (newest_first x y) 0) as [Hle|Hgt].
    + constructor; [by constructor|].
      constructor; [unfold newer_or_equal, newest_first in *; lia|].
      eapply Forall_impl; [exact Hy|].
      unfold newer_or_equal, newest_first in *; intros; lia.
    + constructor; [done|].
      rewrite sort_insert_perm. constructor; [|done].
      unfold newer_or_equal, newest_first in *; lia.
Qed.

Lemma array_sort_newest_first l :
  StronglySorted newer_or_equal (array_sort newest_first l).
Proof.
  induction l as [|x l IH]; simpl; [constructor|].
  by apply sort_insert_newest_first.
Qed.

(** The first element after sorting is an element of the array that no
    other element beats. *)
Lemma array_sort_head o objs first rest :
  array_sort newest_first (o :: objs) = first :: rest →
  first ∈ o :: objs ∧ ∀ o', o' ∈ o :: objs → time_or_0 o' <= time_or_0 first.
Proof.
  intros Hsort.
  pose proof (array_sort_perm newest_first (o :: objs)) as Hperm.
  pose proof (array_sort_newest_first (o :: objs)) as Hsorted.
  rewrite Hsort in Hperm, Hsorted.
  split.
  - rewrite <- Hperm. by left.
  - intros o' Ho'. rewrite <- Hperm in Ho'.
    apply StronglySorted_cons in Hsorted as [Hfirst _].
    apply elem_of_cons in Ho' as [->|Ho']; [lia|].
    rewrite Forall_forall in Hfirst. by apply Hfirst.
Qed.

(** When every object carries a date, the first element after sorting
    carries the latest one. *)
Lemma array_sort_head_latest o objs :
  Forall dated (o :: objs) →
  ∃ key d rest,
    array_sort newest_first (o :: objs)
      = {| Key := key; LastModified := Some d |} :: rest ∧
    latest d (o :: objs).
Proof.
  intros Hdated.
  destruct (array_sort newest_first (o :: objs)) as [|first rest] eqn:Hsort.
  { apply (f_equal length) in Hsort. by rewrite array_sort_length in Hsort. }
  destruct (array_sort_head _ _ _ _ Hsort) as [Hin Hmax].
  rewrite Forall_forall in Hdated.
  destruct (Hdated _ Hin) as [d Hd].
  destruct first as [key lm]; simpl in Hd; subst lm.
  exists key, d, rest. split; [done|]. split.
  - eexists; split; [exact Hin|done].
  - intros o' t Ho' Ht. specialize (Hmax _ Ho').
    unfold time_or_0 in Hmax; simpl in Hmax. by rewrite Ht in Hmax.
Qed.

Lemma array_slice_drop {A} (n : Z) (l : list A) :
  0 <= n → array_slice n l = drop (Z.to_nat n) l.
Proof.
  intros Hn. unfold array_slice.
  destruct (Z.ltb_spec n 0); [lia|].
  destruct (Z.le_gt_cases n (Z.of_nat (length l))).
  - by rewrite Z.min_l.
  - rewrite Z.min_r by lia. rewrite Nat2Z.id.
    rewrite !drop_ge; [done|lia|lia].
Qed.

(** ** The table of intervals *)

Lemma find_interval_total f :
  ∃ interval,
    find_interval f = Some interval ∧ interval ∈ BACKUP_INTERVALS ∧
    frequency interval = f.
Proof.
  destruct f; (eexists; split; [reflexivity|]; split; [|reflexivity]);
    unfold BACKUP_INTERVALS; set_solver.
Qed.

Lemma cadence_duration_values :
  cadence_duration weekly = 604800000 ∧ cadence_duration daily = 86400000 ∧
  cadence_duration hourly = 3600000 ∧ cadence_duration freq_10min = 600000.
Proof. done. Qed.

Lemma cadence_duration_pos f : 0 < cadence_duration f.
Proof. by destruct f. Qed.

(** ** Confinement is compositional *)

Section Confinement.
Context {W : Type} (P : Event → Prop).

Lemma state_eta (st : State W) :
  mkState (world st) (lastBackupTimes st) (trace st ++ []) = st.
Proof. destruct st; simpl. by rewrite app_nil_r. Qed.

Lemma confined_ret {A} (a : A) : confined P (ret (W:=W) a).
Proof. intros st. exists (Ok a), (world st), []. by rewrite state_eta. Qed.

Lemma confined_throw {A} e : confined P (throw (W:=W) (A:=A) e).
Proof. intros st. exists (Throw e), (world st), []. by rewrite state_eta. Qed.

Lemma confined_bind {A B} (m : M W A) (k : A → M W B) :
  confined P m → (∀ a, confined P (k a)) → confined P (bind m k).
Proof.
  intros Hm Hk st. unfold bind.
  destruct (Hm st) as (r & w & evs & -> & HP & Hr).
  destruct r as [a|e| | |e]; try done.
  - destruct (Hk a (mkState w (lastBackupTimes st) (trace st ++ evs)))
      as (r2 & w2 & evs2 & -> & HP2 & Hr2); simpl.
    exists r2, w2, (evs ++ evs2). rewrite app_assoc.
    split; [done|]. split; [by apply Forall_app|].
    destruct r2; try done. destruct Hr2 as [evs' ->].
    exists (evs ++ evs'). by rewrite app_assoc.
  - by exists (Throw e), w, evs.
  - by exists (Uncaught e), w, evs.
Qed.

Lemma confined_try_catch {A} (body : M W A) handler :
  confined P body → (∀ e, confined P (handler e)) →
  confined P (try_catch body handler).
Proof.
  intros Hm Hk st. unfold try_catch.
  destruct (Hm st) as (r & w & evs & -> & HP & Hr).
  destruct r as [a|e| | |e]; try done.
  - by exists (Ok a), w, evs.
  - destruct (Hk e (mkState w (lastBackupTimes st) (trace st ++ evs)))
      as (r2 & w2 & evs2 & -> & HP2 & Hr2); simpl.
    exists r2, w2, (evs ++ evs2). rewrite app_assoc.
    split; [done|]. split; [by apply Forall_app|].
    destruct r2; try done. destruct Hr2 as [evs' ->].
    exists (evs ++ evs'). by rewrite app_assoc.
  - by exists (Uncaught e), w, evs.
Qed.

Lemma confined_emit ev : P ev → confined P (emit (W:=W) ev).
Proof.
  intros Hev st. exists (Ok tt), (world st), [ev].
  split; [done|]. split; [by constructor|done].
Qed.

Lemma confined_call {A} (op : W → A * W) ev :
  (∀ a, P (ev a)) → confined P (call op ev).
Proof.
  intros Hev st. unfold call. destruct (op (world st)) as [a w].
  exists (Ok a), w, [ev a]. split; [done|]. split; [by constructor|done].
Qed.

Lemma confined_call_in_callback {A} (op : W → completed A * W) ev :
  (∀ a, P (ev a)) → (∀ e, P (EvUncaught e)) →
  confined P (call_in_callback op ev).
Proof.
  intros Hev Hun st. unfold call_in_callback.
  destruct (op (world st)) as [[a|e] w].
  - exists (Ok a), w, [ev a]. split; [done|]. split; [by constructor|done].
  - exists (Uncaught e), w, [EvUncaught e].
    split; [done|]. split; [by constructor|]. by exists [].
Qed.

Lemma confined_await {A} (op : W → settled A * W) ev :
  (∀ r, P (ev r)) → confined P (await op ev).
Proof.
  intros Hev st. unfold await. destruct (op (world st)) as [[a|e] w].
  - exists (Ok a), w, [ev (Resolved a)].
    split; [done|]. split; [by constructor|done].
  - exists (Throw e), w, [ev (Rejected e)].
    split; [done|]. split; [by constructor|done].
Qed.

Lemma confined_for_of {A} (xs : list A) (body : A → M W unit) :
  (∀ x, confined P (body x)) → confined P (for_of xs body).
Proof.
  intros Hbody. induction xs as [|x xs IH]; simpl.
  - apply confined_ret.
  - apply confined_bind; [apply Hbody|done].
Qed.
End Confinement.

(** Breaks a program into its statements. *)
Ltac confine :=
  repeat first
    [ apply confined_ret
    | apply confined_throw
    | apply confined_bind; [|intros]
    | apply confined_try_catch; [|intros]
    | apply confined_for_of; intros
    | apply confined_emit
    | apply confined_call; intros
    | apply confined_call_in_callback; intros
    | apply confined_await; intros
    | match goal with
      | |- confined _ (if ?b then _ else _) => destruct b
      | |- confined _ (match ?x with _ => _ end) => destruct x
      end ].

Lemma bind_ok {W A B} (m : M W A) (k : A → M W B) st a st' :
  m st = (Ok a, st') → bind m k st = k a st'.
Proof. unfold bind. by intros ->. Qed.

Lemma bind_throw {W A B} (m : M W A) (k : A → M W B) st e st' :
  m st = (Throw e, st') → bind m k st = (Throw e, st').
Proof. unfold bind. by intros ->. Qed.

Lemma bind_uncaught {W A B} (m : M W A) (k : A → M W B) st e st' :
  m st = (Uncaught e, st') → bind m k st = (Uncaught e, st').
Proof. unfold bind. by intros ->. Qed.

(** ** The backup pipeline *)

Section Pipeline.
Context {W : Type} `{!Collaborators W} (env : Env).

Lemma dumpToFile_confined f filePath :
  confined (before_unlink env f) (dumpToFile (W:=W) filePath).
Proof. unfold dumpToFile, console_log. confine; done. Qed.

Lemma cleanupOldBackups_confined f :
  confined (before_unlink env f)
           (cleanupOldBackups env (AWS_S3_BUCKET env) (key_prefix env) f).
Proof.
  unfold cleanupOldBackups, deleteObject, console_log. confine; done.
Qed.

Lemma uploadToS3_confined f name path :
  confined (before_unlink env f) (uploadToS3 env name path f).
Proof.
  unfold uploadToS3, cleanupOldBackups, deleteObject, console_log.
  confine; try done.
  split; [|done]. split; [done|by eexists].
Qed.

(** [runBackup] returns unless the run crashed; what it leaves behind is
    determined by how the run ended. *)
Lemma runBackup_spec f st :
  ∃ w evs o,
    Forall (before_unlink env f) evs ∧
    runBackup env f st =
      (ending o,
       mkState w (marked f (clock (world st)).1 o (lastBackupTimes st))
         (trace st ++
            EvLog ("Initiating " +:+ frequency_name f +:+ " backup...")
            :: EvNow (clock (world st)).1
            :: evs ++ trigger_tail env f (clock (world st)).1 o)).
Proof.
  unfold runBackup, console_log, new_Date, call, emit, bind at 1 2; simpl.
  destruct (clock (world st)) as [now w0]; simpl.
  unfold try_catch, runBackup_try.
  fold (filepath_at env now).
  set (st0 := mkState w0 _ _).
  destruct (dumpToFile_confined f (filepath_at env now) st0)
    as (r1 & w1 & evs1 & Heq1 & HP1 & Hr1).
  destruct r1 as [[]|e| | |e]; try done.
  2:{ erewrite bind_throw by exact Heq1.
      exists w1, evs1, (FailedEarly e). split; [done|].
      unfold console_error, emit; simpl.
      by rewrite <- !app_assoc. }
  2:{ erewrite bind_uncaught by exact Heq1.
      destruct Hr1 as [evs1' ->]. apply Forall_app in HP1 as [HP1 _].
      exists w1, evs1', (Crashed e). split; [done|].
      simpl. by rewrite <- !app_assoc. }
  erewrite bind_ok by exact Heq1.
  set (st1 := mkState w1 _ _).
  destruct (uploadToS3_confined f
              (BACKUP_FILE_PREFIX env +:+ "-" +:+
                 replace_runs false (toISOString now) +:+ ".tar.gz")
              (filepath_at env now) st1)
    as (r2 & w2 & evs2 & Heq2 & HP2 & Hr2).
  destruct r2 as [[]|e| | |e]; try done.
  2:{ erewrite bind_throw by exact Heq2.
      exists w2, (evs1 ++ evs2), (FailedEarly e).
      split; [by apply Forall_app|].
      unfold console_error, emit; simpl.
      by rewrite <- !app_assoc. }
  2:{ erewrite bind_uncaught by exact Heq2.
      destruct Hr2 as [evs2' ->]. apply Forall_app in HP2 as [HP2 _].
      exists w2, (evs1 ++ evs2'), (Crashed e).
      split; [by apply Forall_app|].
      simpl. by rewrite <- !app_assoc. }
  erewrite bind_ok by exact Heq2.
  unfold deleteFile, console_log, emit, await, lastBackupTimes_set,
    bind; simpl.
  destruct (unlink (filepath_at env now) w2) as [[[]|e] w3]; simpl.
  - exists w3, (evs1 ++ evs2), Succeeded.
    split; [by apply Forall_app|].
    simpl. by rewrite <- !app_assoc.
  - exists w3, (evs1 ++ evs2), (FailedUnlink e).
    split; [by apply Forall_app|].
    unfold console_error, emit; simpl. by rewrite <- !app_assoc.
Qed.
End Pipeline.

(** ** Where an uncaught exception can come from *)

Section Crashes.
Context {W : Type} `{!Collaborators W} (env : Env).

Lemma crashes_ret {A} (a : A) : crashes_in_check (ret (W:=W) a).
Proof. by intros st e st'. Qed.

Lemma crashes_throw {A} e : crashes_in_check (throw (W:=W) (A:=A) e).
Proof. by intros st e' st'. Qed.

Lemma crashes_exit {A} code : crashes_in_check (process_exit (W:=W) (A:=A) code).
Proof. by intros st e st'. Qed.

Lemma crashes_emit ev : crashes_in_check (emit (W:=W) ev).
Proof. by intros st e st'. Qed.

Lemma crashes_call {A} (op : W → A * W) ev : crashes_in_check (call op ev).
Proof. intros st e st'. unfold call. by destruct (op (world st)). Qed.

Lemma crashes_await {A} (op : W → settled A * W) ev :
  crashes_in_check (await op ev).
Proof. intros st e st'. unfold await. by destruct (op (world st)) as [[] ?]. Qed.

Lemma crashes_get f : crashes_in_check (lastBackupTimes_get (W:=W) f).
Proof. by intros st e st'. Qed.

Lemma crashes_set f date : crashes_in_check (lastBackupTimes_set (W:=W) f date).
Proof. by intros st e st'. Qed.

Lemma crashes_gzip filePath ev :
  crashes_in_check (call_in_callback (gzip_head_length filePath) ev).
Proof.
  intros st e st'. unfold call_in_callback.
  destruct (gzip_head_length filePath (world st)) as [[n|e'] w] eqn:Hcall;
    [done|].
  intros [= -> _]. exists filePath, (world st), w. by left.
Qed.

Lemma crashes_stat filePath ev :
  crashes_in_check (call_in_callback (stat_filesize filePath) ev).
Proof.
  intros st e st'. unfold call_in_callback.
  destruct (stat_filesize filePath (world st)) as [[n|e'] w] eqn:Hcall;
    [done|].
  intros [= -> _]. exists filePath, (world st), w. by right.
Qed.

Lemma crashes_bind {A B} (m : M W A) (k : A → M W B) :
  crashes_in_check m → (∀ a, crashes_in_check (k a)) →
  crashes_in_check (bind m k).
Proof.
  intros Hm Hk st e st'. unfold bind.
  destruct (m st) as [[a|e1|c| |e1] s1] eqn:Heq; try done.
  - apply Hk.
  - intros [= -> _]. by eapply Hm.
Qed.

Lemma crashes_try_catch {A} (body : M W A) handler :
  crashes_in_check body → (∀ e, crashes_in_check (handler e)) →
  crashes_in_check (try_catch body handler).
Proof.
  intros Hm Hk st e st'. unfold try_catch.
  destruct (body st) as [[a|e1|c| |e1] s1] eqn:Heq; try done.
  - apply Hk.
  - intros [= -> _]. by eapply Hm.
Qed.

Lemma crashes_for_of {A} (xs : list A) (body : A → M W unit) :
  (∀ x, crashes_in_check (body x)) → crashes_in_check (for_of xs body).
Proof.
  intros Hbody. induction xs as [|x xs IH]; simpl.
  - apply crashes_ret.
  - apply crashes_bind; [apply Hbody|done].
Qed.
End Crashes.

(** Breaks a program into its statements; [known] closes the calls of
    functions that were treated before. *)
Ltac crash_sites_using known :=
  repeat first
    [ known
    | apply crashes_ret
    | apply crashes_throw
    | apply crashes_exit
    | apply crashes_emit
    | apply crashes_call
    | apply crashes_await
    | apply crashes_get
    | apply crashes_set
    | apply crashes_gzip
    | apply crashes_stat
    | apply crashes_bind; [|intros]
    | apply crashes_try_catch; [|intros]
    | apply crashes_for_of; intros
    | match goal with
      | |- crashes_in_check (if ?b then _ else _) => destruct b
      | |- crashes_in_check (match ?x with _ => _ end) => destruct x
      end ].

Ltac crash_sites := crash_sites_using fail.

Section CrashSites.
Context {W : Type} `{!Collaborators W} (env : Env).

Lemma runBackup_crashes f : crashes_in_check (runBackup env f).
Proof.
  unfold runBackup, runBackup_try, dumpToFile, uploadToS3, cleanupOldBackups,
    deleteObject, deleteFile, new_Date, console_log, console_error.
  crash_sites.
Qed.

Lemma check_interval_crashes interval : crashes_in_check (check_interval env interval).
Proof.
  unfold check_interval, shouldRunBackup, new_Date, console_log.
  crash_sites_using ltac:(apply runBackup_crashes).
Qed.

Lemma tick_crashes : crashes_in_check (tick env).
Proof.
  unfold tick, new_Date, sleep.
  crash_sites_using ltac:(apply check_interval_crashes).
Qed.

Lemma scheduler_loop_crashes ticks : crashes_in_check (scheduler_loop env ticks).
Proof.
  induction ticks as [|n IH]; simpl; [by intros st e st'|].
  apply crashes_bind; [apply tick_crashes|done].
Qed.

Lemma getLastBackupTimes_crashes bucket prefix :
  crashes_in_check (getLastBackupTimes (W:=W) bucket prefix).
Proof.
  unfold getLastBackupTimes, console_log. apply crashes_bind; [crash_sites|].
  intros _. generalize (∅ : gmap BackupFrequency Z).
  induction BACKUP_INTERVALS as [|interval intervals IH]; intros result; simpl.
  - apply crashes_ret.
  - apply crashes_bind; [|done].
    unfold getLastBackupTime, console_log, console_error. crash_sites.
Qed.

Lemma start_crashes ticks : crashes_in_check (start env ticks).
Proof.
  unfold start, main, tryBackup, backup, startBackupScheduler, seed,
    console_log, console_error.
  crash_sites_using
    ltac:(first [ apply runBackup_crashes | apply getLastBackupTimes_crashes
                | apply scheduler_loop_crashes ]).
Qed.
End CrashSites.

(** ** Due-ness *)

Lemma due_at_later times f t t' :
  due_at times f t = true → t <= t' → due_at times f t' = true.
Proof.
  unfold due_at. destruct (times !! f) as [lastBackup|]; [|done].
  rewrite !bool_decide_eq_true. lia.
Qed.

Lemma evaluated_app evs1 evs2 :
  evaluated (evs1 ++ evs2) = evaluated evs1 ++ evaluated evs2.
Proof. apply omap_app. Qed.

Lemma sleeps_app evs1 evs2 : sleeps (evs1 ++ evs2) = sleeps evs1 ++ sleeps evs2.
Proof. apply omap_app. Qed.

Lemma deletions_app evs1 evs2 :
  deletions (evs1 ++ evs2) = deletions evs1 ++ deletions evs2.
Proof. apply omap_app. Qed.

Lemma listings_app evs1 evs2 :
  listings (evs1 ++ evs2) = listings evs1 ++ listings evs2.
Proof. apply omap_app. Qed.

(** ** How a run shows in the trace *)

Section Runs.
Context {W : Type} `{!Collaborators W} (env : Env).

Lemma trigger_tail_last f now o :
  ∃ evs, trigger_tail env f now o = evs ++ [final_event f o].
Proof.
  destruct o; simpl.
  - by eexists [_; _; _].
  - by exists [].
  - by eexists [_; _].
  - by exists [].
Qed.

Lemma run_events_last tr f now evs o :
  last (tr ++ run_events env f now evs o) = Some (final_event f o).
Proof.
  unfold run_events.
  destruct (trigger_tail_last f now o) as [evs' ->].
  rewrite !app_comm_cons, !app_assoc. apply last_snoc.
Qed.

Lemma final_event_succeeded f o :
  final_event f o
    = EvLog ("DB backup complete (" +:+ frequency_name f +:+ " backup)...") →
  o = Succeeded.
Proof. by destruct o. Qed.

Lemma final_event_failed f o e :
  final_event f o = EvError "Backup failed:" e →
  o = FailedEarly e ∨ o = FailedUnlink e.
Proof. destruct o; intros [=]; subst; auto. Qed.

(** [runBackup_spec], with the events of the run gathered. *)
Lemma runBackup_run f (st : State W) :
  ∃ w evs o,
    Forall (before_unlink env f) evs ∧
    runBackup env f st
    = (ending o,
       mkState w (marked f (clock (world st)).1 o (lastBackupTimes st))
         (trace st ++ run_events env f (clock (world st)).1 evs o)).
Proof.
  destruct (runBackup_spec env f st) as (w & evs & o & Hevs & Hrun).
  by exists w, evs, o.
Qed.

Lemma ending_uncaught o e : ending o = Uncaught e → o = Crashed e.
Proof. destruct o; intros [=]. by subst. Qed.

Lemma segment_ends f times seg times' r :
  segment env f times seg times' r →
  r = Ok tt ∨ ∃ e, r = Uncaught e.
Proof. destruct 1 as [|t now evs [] Hdue Hevs]; eauto. Qed.

Lemma segment_crashed f times seg times' e :
  segment env f times seg times' (Uncaught e) →
  times' = times ∧ (∃ seg', seg = seg' ++ [EvUncaught e]) ∧
  ∃ t, due_at times f t = true ∧ EvEvaluate f t true ∈ seg.
Proof.
  inversion 1 as [|t now evs o Hdue Hevs Hseg Htimes Ho]; subst.
  apply ending_uncaught in Ho as ->. split; [done|]. split.
  - exists (EvNow t :: EvEvaluate f t true
            :: EvLog ("Triggering " +:+ frequency_name f +:+ " backup")
            :: EvLog ("Initiating " +:+ frequency_name f +:+ " backup...")
            :: EvNow now :: evs).
    done.
  - exists t. split; [done|]. apply elem_of_cons; right. by left.
Qed.

Lemma segment_last f times seg times' r tr e :
  segment env f times seg times' r →
  last (tr ++ seg) = Some (EvError "Backup failed:" e) →
  r = Ok tt ∧ times' = times ∧
  ∃ t, due_at times f t = true ∧ EvEvaluate f t true ∈ seg.
Proof.
  destruct 1 as [t Hdue|t now evs o Hdue Hevs]; intros Hlast.
  - change [EvNow t; EvEvaluate f t false]
      with ([EvNow t] ++ [EvEvaluate f t false]) in Hlast.
    by rewrite app_assoc, last_snoc in Hlast.
  - assert (∀ a b c (l : list Event),
              tr ++ a :: b :: c :: l = (tr ++ [a; b; c]) ++ l) as Hassoc
      by (intros; by rewrite <- app_assoc).
    rewrite Hassoc, run_events_last in Hlast.
    injection Hlast as Hlast.
    apply final_event_failed in Hlast as [-> | ->];
      (split; [done|]; split; [done|]; exists t; split; [done|];
       apply elem_of_cons; right; by left).
Qed.
End Runs.

Section Scheduler.
Context {W : Type} `{!Collaborators W} (env : Env).

Lemma shouldRunBackup_spec f now (st : State W) :
  shouldRunBackup f now st = (Ok (due_at (lastBackupTimes st) f now), st).
Proof.
  unfold shouldRunBackup, lastBackupTimes_get, bind, due_at, cadence_duration.
  destruct (lastBackupTimes st !! f) as [lastBackup|]; [|done].
  by destruct (find_interval_total f) as (interval & -> & _).
Qed.

Lemma of_cadence_quiet f evs :
  Forall (of_cadence env f) evs → evaluated evs = [] ∧ sleeps evs = [].
Proof.
  induction 1 as [|ev evs Hev _ [IH1 IH2]]; [done|].
  by destruct ev.
Qed.

Lemma before_unlink_of_cadence f evs :
  Forall (before_unlink env f) evs → Forall (of_cadence env f) evs.
Proof. intros H. eapply Forall_impl; [exact H|]. by intros ev [? _]. Qed.

Lemma trigger_tail_of_cadence f now o :
  Forall (of_cadence env f) (trigger_tail env f now o).
Proof. destruct o; repeat constructor. Qed.

Lemma segment_evaluated f times seg times' r :
  segment env f times seg times' r → evaluated seg = [f].
Proof.
  destruct 1 as [t|t now evs o _ Hevs]; [done|].
  simpl. rewrite evaluated_app.
  apply before_unlink_of_cadence, of_cadence_quiet in Hevs as [-> _].
  pose proof (trigger_tail_of_cadence f now o) as Htail.
  by apply of_cadence_quiet in Htail as [-> _].
Qed.

Lemma segments_evaluated times fs evs times' :
  segments env times fs evs times' → evaluated evs = fs.
Proof.
  induction 1 as [|times f fs seg times1 evs times2 Hseg _ IH]; [done|].
  by rewrite evaluated_app, (segment_evaluated _ _ _ _ _ Hseg), IH.
Qed.

Lemma check_interval_spec interval (st : State W) :
  ∃ r st' seg,
    check_interval env interval st = (r, st') ∧
    trace st' = trace st ++ seg ∧
    segment env (frequency interval) (lastBackupTimes st) seg
      (lastBackupTimes st') r.
Proof.
  unfold check_interval, new_Date, call, bind at 1.
  destruct (clock (world st)) as [t w0] eqn:Hclock.
  erewrite bind_ok by apply shouldRunBackup_spec. simpl.
  destruct (due_at (lastBackupTimes st) (frequency interval) t) eqn:Hdue.
  - unfold emit, console_log, emit, bind; simpl.
    match goal with |- context [runBackup env ?f ?s] =>
      destruct (runBackup_spec env f s) as (w & evs & o & Hevs & ->) end.
    simpl. eexists _, _, _. split; [done|]. simpl.
    split; [by rewrite <- !app_assoc|]. simpl.
    by apply (segment_run env _ _ t (clock w0).1 evs o).
  - unfold emit, bind, ret; simpl.
    eexists _, _, _. split; [done|]. simpl.
    split; [by rewrite <- !app_assoc|]. by apply (segment_idle env _ _ t).
Qed.

(** The loop over the table: every check returned, or the checks before
    the first crash did. *)
Lemma check_intervals_spec intervals (st : State W) :
  ∃ r st' evs,
    for_of intervals (check_interval env) st = (r, st') ∧
    trace st' = trace st ++ evs ∧
    match r with
    | Ok _ =>
        segments env (lastBackupTimes st) (frequency <$> intervals) evs
          (lastBackupTimes st')
    | Uncaught e =>
        ∃ checked f unchecked segs times1 seg,
          frequency <$> intervals = checked ++ f :: unchecked ∧
          evs = segs ++ seg ∧
          segments env (lastBackupTimes st) checked segs times1 ∧
          segment env f times1 seg (lastBackupTimes st') (Uncaught e)
    | _ => False
    end.
Proof.
  revert st. induction intervals as [|interval intervals IH]; intros st; simpl.
  - exists (Ok tt), st, []. rewrite app_nil_r. split; [done|]. split; [done|].
    constructor.
  - destruct (check_interval_spec interval st) as (r1 & s1 & seg & H1 & T1 & S1).
    destruct (segment_ends _ _ _ _ _ _ S1) as [->|[e ->]].
    + erewrite bind_ok by exact H1.
      destruct (IH s1) as (r & s2 & evs & -> & T2 & S2).
      exists r, s2, (seg ++ evs). split; [done|].
      split; [by rewrite T2, T1, app_assoc|].
      destruct r as [[]| | | |e]; try done.
      * by econstructor.
      * destruct S2 as (checked & f & unchecked & segs & times1 & seg' &
                        Hfs & -> & Hsegs & Hseg').
        exists (frequency interval :: checked), f, unchecked, (seg ++ segs),
          times1, seg'.
        split; [simpl; f_equal; exact Hfs|]. split; [by rewrite app_assoc|].
        split; [by econstructor|done].
    + erewrite bind_uncaught by exact H1.
      exists (Uncaught e), s1, seg. split; [done|]. split; [done|].
      exists [], (frequency interval), (frequency <$> intervals), [],
        (lastBackupTimes st), seg.
      split; [done|]. split; [done|]. split; [constructor|done].
Qed.

Lemma segments_four times evs times' :
  segments env times [weekly; daily; hourly; freq_10min] evs times' →
  ∃ sw sd sh sm times1 times2 times3,
    evs = sw ++ sd ++ sh ++ sm ∧
    segment env weekly times sw times1 (Ok tt) ∧
    segment env daily times1 sd times2 (Ok tt) ∧
    segment env hourly times2 sh times3 (Ok tt) ∧
    segment env freq_10min times3 sm times' (Ok tt).
Proof.
  intros H.
  inversion H as [|? ? ? sw times1 e1 ? Hw H1]; subst.
  inversion H1 as [|? ? ? sd times2 e2 ? Hd H2]; subst.
  inversion H2 as [|? ? ? sh times3 e3 ? Hh H3]; subst.
  inversion H3 as [|? ? ? sm times4 e4 ? Hm H4]; subst.
  inversion H4; subst.
  exists sw, sd, sh, sm, times1, times2, times3.
  by rewrite app_nil_r.
Qed.

Lemma tick_spec (st : State W) :
  ∃ r st' evs,
    tick env st = (r, st') ∧ trace st' = trace st ++ evs ∧
    match r with
    | Ok _ => tick_events env (lastBackupTimes st) evs (lastBackupTimes st')
    | Uncaught e =>
        tick_cut_short env (lastBackupTimes st) evs (lastBackupTimes st') e
    | _ => False
    end.
Proof.
  unfold tick, new_Date, sleep, call, bind at 1 2; simpl.
  destruct (clock (world st)) as [t0 w0]; simpl.
  fold (waitMs t0). set (st0 := mkState _ _ _).
  destruct (check_intervals_spec BACKUP_INTERVALS st0)
    as (r & s1 & evs & H1 & T1 & S1).
  destruct r as [[]| | | |e]; try done.
  - erewrite bind_ok by exact H1. simpl.
    apply segments_four in S1
      as (sw & sd & sh & sm & times1 & times2 & times3 & -> & Hw & Hd & Hh & Hm).
    eexists (Ok tt), _, _. split; [done|]. simpl. split.
    + rewrite T1. unfold st0; simpl. rewrite <- !app_assoc. simpl. done.
    + by econstructor.
  - erewrite bind_uncaught by exact H1.
    destruct S1 as (checked & f & unchecked & segs & times1 & seg &
                    Hfs & -> & Hsegs & Hseg).
    eexists (Uncaught e), _, _. split; [done|]. split.
    + rewrite T1. unfold st0; simpl. rewrite <- !app_assoc. simpl. done.
    + by econstructor.
Qed.

Lemma tick_events_evaluated times evs times' :
  tick_events env times evs times' →
  evaluated evs = [weekly; daily; hourly; freq_10min].
Proof.
  destruct 1 as [t0 sw sd sh sm t1 t2 t3 t4 Hw Hd Hh Hm].
  simpl. rewrite !evaluated_app.
  rewrite (segment_evaluated _ _ _ _ _ Hw), (segment_evaluated _ _ _ _ _ Hd),
    (segment_evaluated _ _ _ _ _ Hh), (segment_evaluated _ _ _ _ _ Hm).
  done.
Qed.

(** A crash ends the iteration on the spot: the cadences before the one
    whose run crashed were evaluated, those after it were not. *)
Lemma tick_cut_short_evaluated times evs times' e :
  tick_cut_short env times evs times' e →
  ∃ checked f unchecked,
    [weekly; daily; hourly; freq_10min] = checked ++ f :: unchecked ∧
    evaluated evs = checked ++ [f] ∧
    sleeps evs ≠ [] ∧
    ∃ evs', evs = evs' ++ [EvUncaught e].
Proof.
  destruct 1 as [t0 checked f unchecked segs times1 seg times2 e Hfs Hsegs Hseg].
  exists checked, f, unchecked. split; [done|]. split.
  - simpl. rewrite evaluated_app, (segments_evaluated _ _ _ _ Hsegs).
    by rewrite (segment_evaluated _ _ _ _ _ Hseg).
  - split; [done|].
    apply segment_crashed in Hseg as (_ & [seg' ->] & _).
    exists (EvNow t0 :: EvSleep (waitMs t0) :: segs ++ seg').
    simpl. by rewrite <- !app_assoc.
Qed.

(** The loop never ends by itself: after any number of iterations it is
    still running, and every iteration has evaluated the four cadences,
    unless a run crashed, which ends the loop with its process. *)
Lemma scheduler_loop_spec ticks (st : State W) :
  ∃ r st' evs,
    scheduler_loop env ticks st = (r, st') ∧
    trace st' = trace st ++ evs ∧
    match r with
    | Pending =>
        evaluated evs
        = concat (replicate ticks [weekly; daily; hourly; freq_10min])
    | Uncaught e => ∃ evs', evs = evs' ++ [EvUncaught e]
    | _ => False
    end.
Proof.
  revert st. induction ticks as [|n IH]; intros st; simpl.
  - exists Pending, st, []. by rewrite app_nil_r.
  - destruct (tick_spec st) as (r1 & s1 & evs1 & H1 & T1 & E1).
    destruct r1 as [[]| | | |e]; try done.
    + destruct (IH s1) as (r & s2 & evs2 & H2 & T2 & E2).
      erewrite bind_ok by exact H1. rewrite H2.
      exists r, s2, (evs1 ++ evs2). split; [done|].
      split; [by rewrite T2, T1, app_assoc|].
      destruct r as [| | | |e]; try done.
      * rewrite evaluated_app, E2.
        by rewrite (tick_events_evaluated _ _ _ E1).
      * destruct E2 as [evs' ->]. exists (evs1 ++ evs').
        by rewrite app_assoc.
    + erewrite bind_uncaught by exact H1.
      exists (Uncaught e), s1, evs1. split; [done|]. split; [done|].
      by apply tick_cut_short_evaluated in E1 as (? & ? & ? & _ & _ & _ & E1).
Qed.
End Scheduler.

(** ** Seeding *)

Lemma first_date_latest o objs :
  Forall dated (o :: objs) →
  ∃ d, first_date (Resolved (Some (o :: objs))) = Some d ∧ latest d (o :: objs).
Proof.
  intros Hdated.
  destruct (array_sort_head_latest o objs Hdated) as (key & d & rest & Hs & Hd).
  exists d. split; [|done]. unfold first_date. by rewrite Hs.
Qed.

Lemma seeded_lookup f answer result :
  seeded f answer result !! f
  = match first_date answer with Some d => Some d | None => result !! f end.
Proof.
  unfold seeded. destruct (first_date answer); [|done].
  by rewrite lookup_insert_eq.
Qed.

Lemma seeded_lookup_ne f f' answer result :
  f ≠ f' → seeded f answer result !! f' = result !! f'.
Proof.
  intros Hne. unfold seeded. destruct (first_date answer); [|done].
  by rewrite lookup_insert_ne.
Qed.

Arguments array_sort : simpl never.

Section Seeding.
Context {W : Type} `{!Collaborators W} (env : Env).

Lemma getLastBackupTime_spec bucket prefix result interval (st : State W) :
  ∃ w logs,
    getLastBackupTime bucket prefix result interval st
    = (Ok (seeded (frequency interval)
             (list_objects bucket
                (listing_prefix prefix (frequency interval)) (world st)).1
             result),
       mkState w (lastBackupTimes st)
         (trace st ++
            EvList bucket (listing_prefix prefix (frequency interval))
              (list_objects bucket
                 (listing_prefix prefix (frequency interval)) (world st)).1
            :: logs)) ∧
    listings logs = [].
Proof.
  unfold getLastBackupTime, try_catch, await, bind, listing_prefix, seeded,
    first_date.
  destruct (list_objects _ _ _) as [[[[|o contents]|]|e] w]; simpl;
    try by (exists w, []).
  - destruct (array_sort newest_first (o :: contents))
      as [|[key [date|]] rest]; simpl; try by (exists w, []).
    eexists w, [_]. by rewrite <- app_assoc.
  - eexists w, [_]. by rewrite <- app_assoc.
Qed.

Lemma seed_list (l : list (BackupFrequency * Z)) (st : State W) :
  NoDup l.*1 →
  for_of l (λ entry, lastBackupTimes_set entry.1 entry.2) st
  = (Ok tt,
     mkState (world st) (list_to_map l ∪ lastBackupTimes st) (trace st)).
Proof.
  revert st. induction l as [|[f date] l IH]; intros st Hnodup; simpl.
  - rewrite (left_id_L ∅ (∪)). by destruct st.
  - apply NoDup_cons in Hnodup as [Hf Hnodup].
    unfold bind, lastBackupTimes_set at 1; simpl.
    rewrite IH by done. simpl. do 2 f_equal.
    rewrite <- insert_union_l.
    by rewrite insert_union_r by by apply not_elem_of_list_to_map_1.
Qed.

Lemma seed_spec initialBackupTimes (st : State W) :
  seed initialBackupTimes st
  = (Ok tt,
     mkState (world st) (initialBackupTimes ∪ lastBackupTimes st) (trace st)).
Proof.
  unfold seed. rewrite seed_list by apply NoDup_fst_map_to_list.
  by rewrite list_to_map_to_list.
Qed.
End Seeding.

Section SeedingAll.
Context {W : Type} `{!Collaborators W} (env : Env).

Lemma seeded_all_lookup answer f :
  seeded_all answer !! f = first_date (answer f).
Proof.
  unfold seeded_all.
  destruct f;
    repeat first [ rewrite seeded_lookup
                 | rewrite seeded_lookup_ne by done ];
    rewrite ?lookup_empty; by destruct (first_date _).
Qed.

Lemma getLastBackupTimes_spec bucket prefix (st : State W) :
  ∃ answer w evs,
    getLastBackupTimes bucket prefix st
    = (Ok (seeded_all answer),
       mkState w (lastBackupTimes st) (trace st ++ evs)) ∧
    listings evs = listings_asked prefix answer ∧
    ∀ f, ∃ w', answer f = (list_objects bucket (listing_prefix prefix f) w').1.
Proof.
  unfold getLastBackupTimes, console_log, emit, bind at 1; simpl.
  set (st0 := mkState _ _ _).
  destruct (getLastBackupTime_spec bucket prefix ∅
              {| frequency := weekly; milliseconds := 7 * 24 * 60 * 60 * 1000 |} st0)
    as (w1 & l1 & H1 & L1).
  set (a1 := (list_objects _ _ _).1) in H1. set (s1 := mkState _ _ _) in H1.
  destruct (getLastBackupTime_spec bucket prefix (seeded weekly a1 ∅)
              {| frequency := daily; milliseconds := 24 * 60 * 60 * 1000 |} s1)
    as (w2 & l2 & H2 & L2).
  set (a2 := (list_objects _ _ _).1) in H2. set (s2 := mkState _ _ _) in H2.
  destruct (getLastBackupTime_spec bucket prefix
              (seeded daily a2 (seeded weekly a1 ∅))
              {| frequency := hourly; milliseconds := 60 * 60 * 1000 |} s2)
    as (w3 & l3 & H3 & L3).
  set (a3 := (list_objects _ _ _).1) in H3. set (s3 := mkState _ _ _) in H3.
  destruct (getLastBackupTime_spec bucket prefix
              (seeded hourly a3 (seeded daily a2 (seeded weekly a1 ∅)))
              {| frequency := freq_10min; milliseconds := 10 * 60 * 1000 |} s3)
    as (w4 & l4 & H4 & L4).
  set (a4 := (list_objects _ _ _).1) in H4.
  exists (λ f, match f with
               | weekly => a1 | daily => a2 | hourly => a3 | freq_10min => a4
               end).
  unfold BACKUP_INTERVALS, getLastBackupTimes_loop.
  erewrite (bind_ok _ _ st0) by exact H1.
  erewrite (bind_ok _ _ s1) by exact H2.
  erewrite (bind_ok _ _ s2) by exact H3.
  erewrite (bind_ok _ _ s3) by exact H4.
  unfold ret. eexists w4, _. split; [|split].
  - unfold seeded_all. f_equal. f_equal.
    unfold s3, s2, s1, st0; simpl. rewrite <- !app_assoc. simpl. done.
  - simpl. rewrite !listings_app. simpl. rewrite !listings_app. simpl.
    rewrite !listings_app. simpl. by rewrite L1, L2, L3, L4.
  - intros []; by eexists.
Qed.

(** The state in which the loop of [startBackupScheduler] starts. *)
Lemma startBackupScheduler_seeds (st : State W) :
  ∃ answer w evs,
    getLastBackupTimes (AWS_S3_BUCKET env) (key_prefix env)
      (logged "Starting backup scheduler..." st)
    = (Ok (seeded_all answer),
       mkState w (lastBackupTimes st) (trace st ++ evs)) ∧
    startBackupScheduler env 0 st
    = (Pending,
       mkState w (seeded_all answer ∪ lastBackupTimes st) (trace st ++ evs)) ∧
    listings evs = listings_asked (key_prefix env) answer ∧
    ∀ f, ∃ w', answer f
               = (list_objects (AWS_S3_BUCKET env)
                    (listing_prefix (key_prefix env) f) w').1.
Proof.
  unfold startBackupScheduler, console_log, emit, bind at 1; simpl.
  fold (logged "Starting backup scheduler..." st).
  destruct (getLastBackupTimes_spec (AWS_S3_BUCKET env) (key_prefix env)
              (logged "Starting backup scheduler..." st))
    as (answer & w & evs & H & L & Hfrom).
  erewrite bind_ok by exact H.
  unfold bind. rewrite seed_spec. simpl.
  exists answer, w, (EvLog "Starting backup scheduler..." :: evs).
  split; [rewrite H; simpl; by rewrite <- app_assoc|].
  split; [by rewrite <- app_assoc|done].
Qed.
End SeedingAll.

(** ** Retention cleanup *)

Lemma candidate_keys_keyed objs :
  Forall keyed objs → candidate_keys objs = key_of <$> objs.
Proof.
  induction 1 as [|o objs (key & Hkey & Hne) _ IH]; [done|].
  unfold candidate_keys in *; csimpl. unfold candidate_key at 1, key_of at 1.
  rewrite Hkey; csimpl. rewrite bool_decide_eq_false_2 by done. by rewrite IH.
Qed.

Lemma for_of_app {W A} (xs ys : list A) (body : A → M W unit) st :
  for_of (xs ++ ys) body st = (for_of xs body ;;; for_of ys body) st.
Proof.
  revert st. induction xs as [|x xs IH]; intros st; simpl; [done|].
  unfold bind in *. destruct (body x st) as [[[]|e|c| |e] st1]; try done.
Qed.

Section Cleanup.
Context {W : Type} `{!Collaborators W} (env : Env).

Lemma deleteObject_skip bucket o (st : State W) :
  candidate_key o = None → deleteObject bucket o st = (Ok tt, st).
Proof.
  unfold candidate_key, deleteObject. destruct (Key o) as [key|]; [|done].
  by destruct (bool_decide (key = "")).
Qed.

Lemma deleteObject_resolved bucket o key w (st : State W) :
  candidate_key o = Some key →
  delete_object bucket key (world st) = (Resolved tt, w) →
  deleteObject bucket o st
  = (Ok tt,
     mkState w (lastBackupTimes st)
       (trace st ++ [ EvDelete bucket key (Resolved tt);
                      EvLog ("Deleted old backup: " +:+ key) ])).
Proof.
  unfold candidate_key, deleteObject. destruct (Key o) as [key'|]; [|done].
  destruct (bool_decide (key' = "")); [done|]. intros [= ->] Hdel.
  unfold await, console_log, emit, bind. rewrite Hdel; simpl.
  by rewrite <- app_assoc.
Qed.

Lemma deleteObject_rejected bucket o key e w (st : State W) :
  candidate_key o = Some key →
  delete_object bucket key (world st) = (Rejected e, w) →
  deleteObject bucket o st
  = (Throw e,
     mkState w (lastBackupTimes st)
       (trace st ++ [EvDelete bucket key (Rejected e)])).
Proof.
  unfold candidate_key, deleteObject. destruct (Key o) as [key'|]; [|done].
  destruct (bool_decide (key' = "")); [done|]. intros [= ->] Hdel.
  unfold await, console_log, emit, bind. by rewrite Hdel.
Qed.

(** A pass that returns has requested the deletion of every candidate, in
    order. *)
Lemma delete_loop_returned bucket objs (st st' : State W) :
  for_of objs (deleteObject bucket) st = (Ok tt, st') →
  ∃ evs, trace st' = trace st ++ evs ∧
         lastBackupTimes st' = lastBackupTimes st ∧
         deletions evs = candidate_keys objs.
Proof.
  revert st. induction objs as [|o objs IH]; intros st; simpl.
  - intros [= <-]. exists []. by rewrite app_nil_r.
  - unfold candidate_keys; csimpl.
    destruct (candidate_key o) as [key|] eqn:Hkey.
    + destruct (delete_object bucket key (world st)) as [[[]|e] w] eqn:Hdel.
      * erewrite bind_ok by by eapply deleteObject_resolved.
        intros (evs & Htr & Hlbt & Hdels)%IH. simpl in *.
        eexists (_ :: _ :: evs). split; [by rewrite Htr, <- app_assoc|].
        split; [done|]. unfold deletions in *; csimpl. by rewrite Hdels.
      * by erewrite bind_throw by by eapply deleteObject_rejected.
    + erewrite bind_ok by by apply deleteObject_skip.
      apply IH.
Qed.

(** When the store accepts the deletion of every candidate, the pass
    returns. *)
Lemma delete_loop_returns bucket objs (st : State W) :
  (∀ key, key ∈ candidate_keys objs →
          ∀ w, ∃ w', delete_object bucket key w = (Resolved tt, w')) →
  ∃ st', for_of objs (deleteObject bucket) st = (Ok tt, st').
Proof.
  revert st. induction objs as [|o objs IH]; intros st Hok; simpl.
  - by exists st.
  - unfold candidate_keys in Hok; csimpl in Hok.
    destruct (candidate_key o) as [key|] eqn:Hkey.
    + destruct (Hok key (list_elem_of_here _ _) (world st)) as [w Hdel].
      erewrite bind_ok by by eapply deleteObject_resolved.
      apply IH. intros key' Hin. apply Hok. by apply list_elem_of_further.
    + erewrite bind_ok by by apply deleteObject_skip.
      by apply IH.
Qed.

Lemma cleanupOldBackups_listed bucket prefix f contents w (st : State W) :
  list_objects bucket (listing_prefix prefix f) (world st)
    = (Resolved (Some contents), w) →
  cleanupOldBackups env bucket prefix f st
  = for_of (objectsToDelete env contents) (deleteObject bucket)
      (mkState w (lastBackupTimes st)
         (trace st ++
            [ EvLog ("Cleaning up old " +:+ frequency_name f +:+ " backups...");
              EvList bucket (listing_prefix prefix f)
                (Resolved (Some contents)) ])).
Proof.
  intros Hlist.
  unfold cleanupOldBackups, console_log, emit, await, bind at 1 2; simpl.
  fold (listing_prefix prefix f). rewrite Hlist.
  by rewrite <- app_assoc.
Qed.
End Cleanup.


(** ** What each stage leaves in the trace *)

Lemma omap_silent {A} (g : Event → option A) (P : Event → Prop) evs :
  Forall P evs → (∀ ev, P ev → g ev = None) → omap g evs = [].
Proof.
  intros Hevs Hg. induction Hevs as [|ev evs Hev _ IH]; [done|].
  csimpl. by rewrite (Hg ev Hev).
Qed.

Lemma console_dump_kind logs :
  Forall console logs → Forall (λ ev, dump_kind ev = true) logs.
Proof.
  intros H. eapply Forall_impl; [exact H|]. intros [] Hev; by simpl in *.
Qed.

Lemma dump_trace_kind path evs r :
  dump_trace path evs r → Forall (λ ev, dump_kind ev = true) evs.
Proof.
  destruct 1 as [e|stderr e|stderr logs e Hlogs|stderr n Hn|stderr logs Hlogs];
    repeat (constructor; [done|]); try constructor.
  - apply Forall_app. split; [by apply console_dump_kind|by repeat constructor].
  - by apply console_dump_kind.
Qed.

Lemma dump_trace_dumps path evs r : dump_trace path evs r → dumps evs = [path].
Proof.
  intros Hdump. pose proof (dump_trace_kind _ _ _ Hdump) as Hkind.
  destruct Hdump as [e|stderr e|stderr logs e Hlogs|stderr n Hn|stderr logs Hlogs];
    [done..| |done|].
  - unfold dumps; csimpl. f_equal. rewrite omap_app.
    rewrite (omap_silent _ _ _ Hlogs) by by intros []. done.
  - unfold dumps; csimpl. f_equal.
    eapply omap_silent; [exact Hlogs|]. by intros [].
Qed.

Lemma dump_trace_checked path evs r :
  dump_trace path evs r →
  match r with
  | Ok _ => gzip_checks evs = [(path, 1)] ∧
            ∃ stderr, EvExec path (Resolved stderr) ∈ evs
  | Throw _ => (path, 1) ∉ gzip_checks evs
  | Uncaught _ => gzip_checks evs = [] ∨ gzip_checks evs = [(path, 1)]
  | Exit _ | Pending => False
  end.
Proof.
  destruct 1 as [e|stderr e|stderr logs e Hlogs|stderr n Hn|stderr logs Hlogs].
  - by intros ?%elem_of_nil.
  - by left.
  - right. unfold gzip_checks; csimpl. f_equal. rewrite omap_app.
    rewrite (omap_silent _ _ _ Hlogs) by by intros []. done.
  - intros [[= ?]|?%elem_of_nil]%elem_of_cons; done.
  - split.
    + unfold gzip_checks; csimpl. f_equal.
      eapply omap_silent; [exact Hlogs|]. by intros [].
    + exists stderr. apply elem_of_cons; right. by left.
Qed.

(** A dump that ends in an uncaught exception ends with its report. *)
Lemma dump_trace_crashed path evs e :
  dump_trace path evs (Uncaught e) → ∃ evs', evs = evs' ++ [EvUncaught e].
Proof.
  inversion 1 as [|stderr e' Hevs Hr|stderr logs e' Hlogs Hevs Hr| |]; subst.
  - by eexists [_; _].
  - eexists (_ :: _ :: _ :: logs). done.
Qed.

Lemma delete_trace_kind bucket objs evs r :
  delete_trace bucket objs evs r → Forall (λ ev, cleanup_kind ev = true) evs.
Proof. induction 1; repeat (constructor; [done|]); done. Qed.

Lemma delete_trace_rejections bucket objs evs r :
  delete_trace bucket objs evs r →
  store_rejections evs = match r with Throw e => [e] | _ => [] end ∧
  listings evs = [] ∧ settles r.
Proof. induction 1; try done. Qed.

Section StageTraces.
Context {W : Type} `{!Collaborators W} (env : Env).

Lemma cleanup_trace_kind bucket prefix f evs r :
  cleanup_trace env bucket prefix f evs r →
  Forall (λ ev, cleanup_kind ev = true) evs.
Proof.
  destruct 1; repeat (constructor; [done|]); try constructor.
  by eapply delete_trace_kind.
Qed.

Lemma cleanup_trace_rejections bucket prefix f evs r :
  cleanup_trace env bucket prefix f evs r →
  store_rejections evs = match r with Throw e => [e] | _ => [] end ∧
  (∃ answer, listings evs = [(listing_prefix prefix f, answer)]) ∧
  settles r.
Proof.
  destruct 1 as [e| |contents evs r Hdel];
    [split; [done|]; split; [by eexists|done]..|].
  apply delete_trace_rejections in Hdel as (Hrej & Hlist & Hr).
  split; [done|]. split; [|done].
  eexists. unfold listings in *; csimpl. by rewrite Hlist.
Qed.

Lemma hash_trace_kind path evs r :
  hash_trace env path evs r → Forall (λ ev, hash_kind ev = true) evs.
Proof. destruct 1; repeat (constructor; [done|]); constructor. Qed.
End StageTraces.

Ltac silent_by H := eapply omap_silent; [exact H|by intros []].

Section UploadTraces.
Context {W : Type} `{!Collaborators W} (env : Env).

Lemma upload_trace_quiet name path f evs r :
  upload_trace env name path f evs r →
  dumps evs = [] ∧ gzip_checks evs = [] ∧ unlinks evs = [] ∧ settles r.
Proof.
  destruct 1 as [hashing e Hh|hashing md5 e Hh|hashing md5 cleaning r Hh Hc];
    inversion Hh; subst; try done.
  all: pose proof (cleanup_trace_kind env _ _ _ _ _ Hc) as Hk.
  all: destruct (cleanup_trace_rejections env _ _ _ _ _ Hc) as (_ & _ & Hr).
  all: unfold dumps, gzip_checks, unlinks; csimpl.
  all: repeat split; try done; silent_by Hk.
Qed.

(** The three ways an upload can go: the hashing failed and nothing was
    sent; the upload was rejected and no cleanup followed; the upload
    resolved and the cleanup followed. *)
Lemma upload_trace_uploads name path f evs r :
  upload_trace env name path f evs r →
  (uploads evs = [] ∧ listings evs = [] ∧ deletions evs = [] ∧
   store_rejections evs = [] ∧
   ∃ e, r = Throw e ∧ md5s evs = [(path, Rejected e)]) ∨
  (∃ e, r = Throw e ∧
        uploads evs
        = [(key_prefix env +:+ frequency_name f +:+ "/" +:+ name, Rejected e)] ∧
        listings evs = [] ∧ deletions evs = [] ∧ store_rejections evs = []) ∨
  (uploads evs
   = [(key_prefix env +:+ frequency_name f +:+ "/" +:+ name, Resolved tt)] ∧
   store_rejections evs = match r with Throw e => [e] | _ => [] end).
Proof.
  destruct 1 as [hashing e Hh|hashing md5 e Hh|hashing md5 cleaning r Hh Hc].
  - left. inversion Hh; subst. repeat split; try done. by exists e.
  - right; left. exists e. inversion Hh; subst; by repeat split.
  - right; right.
    pose proof (cleanup_trace_kind env _ _ _ _ _ Hc) as Hk.
    destruct (cleanup_trace_rejections env _ _ _ _ _ Hc) as (Hrej & _ & _).
    inversion Hh; subst; unfold uploads, store_rejections in *; csimpl;
      (split; [f_equal; silent_by Hk|exact Hrej]).
Qed.

(** What an upload event of the stage says. *)
Lemma upload_trace_event name path f evs r bucket key path' md5 res :
  upload_trace env name path f evs r →
  EvUpload bucket key path' md5 res ∈ evs →
  bucket = AWS_S3_BUCKET env ∧
  key = key_prefix env +:+ frequency_name f +:+ "/" +:+ name ∧
  path' = path ∧
  ((SUPPORT_OBJECT_LOCK env = false ∧ md5 = None ∧ md5s evs = []) ∨
   (SUPPORT_OBJECT_LOCK env = true ∧
    ∃ h, md5 = Some (hex_to_base64 h) ∧ md5s evs = [(path, Resolved h)])).
Proof.
  intros Hup Hin.
  assert (∀ l, Forall (λ ev, cleanup_kind ev = true) l →
               EvUpload bucket key path' md5 res ∈ l → False) as Hnot.
  { intros l Hl Hin'. rewrite Forall_forall in Hl. by apply Hl in Hin'. }
  destruct Hup as [hashing e Hh|hashing md5' e Hh|hashing md5' cleaning r Hh Hc].
  - inversion Hh; subst.
    repeat (apply elem_of_cons in Hin as [[=]|Hin]).
    by apply elem_of_nil in Hin.
  - inversion Hh; subst; simpl in Hin;
      repeat (apply elem_of_cons in Hin as [Hin|Hin]; [simplify_eq|]);
      try (by apply elem_of_nil in Hin).
    + split; [done|]. split; [done|]. split; [done|]. by left.
    + split; [done|]. split; [done|]. split; [done|]. right.
      split; [done|]. by exists h.
  - pose proof (cleanup_trace_kind env _ _ _ _ _ Hc) as Hk.
    assert (md5s cleaning = []) as Hmd5 by (unfold md5s; silent_by Hk).
    inversion Hh; subst; simpl in Hin;
      repeat (apply elem_of_cons in Hin as [Hin|Hin]; [simplify_eq|]);
      try (by destruct (Hnot _ Hk Hin)).
    + split; [done|]. split; [done|]. split; [done|]. left.
      split; [done|]. split; [done|]. exact Hmd5.
    + split; [done|]. split; [done|]. split; [done|]. right.
      split; [done|]. exists h. split; [done|].
      unfold md5s in *; csimpl. by rewrite Hmd5.
Qed.
End UploadTraces.

(** ** The stages of a run, from the program *)

Section StageFacts.
Context {W : Type} `{!Collaborators W} (env : Env).

Lemma dumpToFile_trace filePath (st : State W) :
  ∃ r w evs,
    dumpToFile filePath st
    = (r, mkState w (lastBackupTimes st) (trace st ++ evs)) ∧
    dump_trace filePath evs r.
Proof.
  unfold dumpToFile, console_log, emit, await, call_in_callback,
    bind at 1 2; simpl.
  destruct (exec_pg_dump filePath (world st)) as [[stderr|e] w1]; simpl.
  2:{ eexists _, _, [_; _]. split; [rewrite <- ?app_assoc; reflexivity|constructor]. }
  unfold bind at 1; simpl.
  destruct (gzip_head_length filePath w1) as [[n|e] w2]; simpl.
  2:{ eexists _, _, [_; _; _]. split; [rewrite <- ?app_assoc; reflexivity|].
      constructor. }
  unfold bind at 1. case_bool_decide as Hn; simpl.
  2:{ eexists _, _, [_; _; _]. split; [rewrite <- ?app_assoc; reflexivity|].
      by constructor. }
  subst n. unfold bind, ret; simpl.
  case_bool_decide; simpl;
    destruct (stat_filesize filePath w2) as [[size|e] w3]; simpl.
  - eexists _, _, (_ :: _ :: _ :: [_; _; _]).
    split; [rewrite <- ?app_assoc; reflexivity|].
    constructor. by repeat constructor.
  - eexists _, _, (_ :: _ :: _ :: [_] ++ [_]).
    split; [rewrite <- ?app_assoc; reflexivity|].
    constructor. by repeat constructor.
  - eexists _, _, (_ :: _ :: _ :: [_; _; _; _; _]).
    split; [rewrite <- ?app_assoc; reflexivity|].
    constructor. by repeat constructor.
  - eexists _, _, (_ :: _ :: _ :: [_; _] ++ [_]).
    split; [rewrite <- ?app_assoc; reflexivity|].
    constructor. by repeat constructor.
Qed.

Lemma delete_loop_trace bucket objs (st : State W) :
  ∃ r w evs,
    for_of objs (deleteObject bucket) st
    = (r, mkState w (lastBackupTimes st) (trace st ++ evs)) ∧
    delete_trace bucket objs evs r.
Proof.
  revert st. induction objs as [|o objs IH]; intros st; simpl.
  - exists (Ok tt), (world st), []. rewrite state_eta. split; [done|constructor].
  - destruct (candidate_key o) as [key|] eqn:Hkey.
    + destruct (delete_object bucket key (world st)) as [[[]|e] w1] eqn:Hdel.
      * erewrite bind_ok by by eapply deleteObject_resolved.
        match goal with |- context [for_of objs _ ?s] =>
          destruct (IH s) as (r & w & evs & -> & Htrace) end.
        simpl. eexists r, w, (_ :: _ :: evs).
        split; [rewrite <- ?app_assoc; reflexivity|]. by constructor.
      * erewrite bind_throw by by eapply deleteObject_rejected.
        eexists _, _, [_]. split; [done|]. by constructor.
    + erewrite bind_ok by by apply deleteObject_skip.
      destruct (IH st) as (r & w & evs & -> & Htrace).
      exists r, w, evs. split; [done|]. by constructor.
Qed.

Lemma cleanupOldBackups_trace bucket prefix f (st : State W) :
  ∃ r w evs,
    cleanupOldBackups env bucket prefix f st
    = (r, mkState w (lastBackupTimes st) (trace st ++ evs)) ∧
    cleanup_trace env bucket prefix f evs r.
Proof.
  destruct (list_objects bucket (listing_prefix prefix f) (world st))
    as [[[contents|]|e] w1] eqn:Hlist.
  - rewrite (cleanupOldBackups_listed env _ _ _ _ _ _ Hlist).
    match goal with |- context [for_of _ _ ?s] =>
      destruct (delete_loop_trace bucket (objectsToDelete env contents) s)
        as (r & w & evs & -> & Htrace) end.
    simpl. eexists r, w, (_ :: _ :: evs).
    split; [rewrite <- ?app_assoc; reflexivity|]. by constructor.
  - unfold cleanupOldBackups, console_log, emit, await, bind; simpl.
    fold (listing_prefix prefix f). rewrite Hlist. unfold ret.
    eexists _, _, [_; _]. split; [rewrite <- ?app_assoc; reflexivity|]. constructor.
  - unfold cleanupOldBackups, console_log, emit, await, bind; simpl.
    fold (listing_prefix prefix f). rewrite Hlist.
    eexists _, _, [_; _]. split; [rewrite <- ?app_assoc; reflexivity|]. constructor.
Qed.

Lemma uploadToS3_trace name path f (st : State W) :
  ∃ r w evs,
    uploadToS3 env name path f st
    = (r, mkState w (lastBackupTimes st) (trace st ++ evs)) ∧
    upload_trace env name path f evs r.
Proof.
  unfold uploadToS3, console_log, emit, bind at 1; simpl.
  destruct (SUPPORT_OBJECT_LOCK env) eqn:Hlock.
  - unfold emit, await, bind at 1 2 3; simpl.
    destruct (createMD5 path (world st)) as [[h|e] w1]; simpl.
    2:{ eexists _, _, (_ :: [_; _]). split; [rewrite <- ?app_assoc; reflexivity|].
        apply upload_hash_failed. by constructor. }
    unfold bind at 1; simpl.
    destruct (upload_done _ _ _ _ w1) as [[[]|e] w2]; simpl.
    2:{ eexists _, _, (_ :: [_; _; _] ++ [_]).
        split; [rewrite <- ?app_assoc; reflexivity|].
        apply upload_rejected. by constructor. }
    unfold bind at 1; simpl.
    match goal with |- context [cleanupOldBackups env ?b ?p f ?s] =>
      destruct (cleanupOldBackups_trace b p f s)
        as (r & w & evs & -> & Htrace) end.
    simpl. eexists r, w, (_ :: [_; _; _] ++ _ :: _ :: evs).
    split; [rewrite <- ?app_assoc; reflexivity|].
    apply upload_resolved; [by constructor|done].
  - unfold await, bind at 1 2; simpl.
    destruct (upload_done _ _ _ _ (world st)) as [[[]|e] w2]; simpl.
    2:{ eexists _, _, (_ :: [] ++ [_]).
        split; [rewrite <- ?app_assoc; reflexivity|].
        apply upload_rejected. by constructor. }
    unfold bind at 1; simpl.
    match goal with |- context [cleanupOldBackups env ?b ?p f ?s] =>
      destruct (cleanupOldBackups_trace b p f s)
        as (r & w & evs & -> & Htrace) end.
    simpl. eexists r, w, (_ :: [] ++ _ :: _ :: evs).
    split; [rewrite <- ?app_assoc; reflexivity|].
    apply upload_resolved; [by constructor|done].
Qed.

(** What [runBackup] adds to the trace is the trace of a run. *)
Lemma runBackup_trace f (st : State W) :
  ∃ w evs o,
    runBackup env f st
    = (ending o,
       mkState w (marked f (clock (world st)).1 o (lastBackupTimes st))
         (trace st ++ evs)) ∧
    run_trace env f (clock (world st)).1 evs o.
Proof.
  unfold runBackup, console_log, new_Date, call, emit, bind at 1 2; simpl.
  destruct (clock (world st)) as [now w0]; simpl.
  unfold try_catch, runBackup_try.
  fold (filename_at env now). fold (filepath_at env now).
  set (initiating := EvLog ("Initiating " +:+ frequency_name f +:+ " backup...")).
  destruct (dumpToFile_trace (filepath_at env now)
              (mkState w0 (lastBackupTimes st)
                 ((trace st ++ [initiating]) ++ [EvNow now])))
    as (r1 & w1 & evs1 & Heq1 & Hdump).
  simpl in Heq1.
  destruct r1 as [[]|e| | |e]; try by inversion Hdump.
  2:{ erewrite bind_throw by exact Heq1.
      exists w1, (initiating :: EvNow now :: evs1 ++ [EvError "Backup failed:" e]),
        (FailedEarly e).
      split; [|by apply run_dump_failed].
      unfold console_error, emit; simpl. by rewrite <- !app_assoc. }
  2:{ erewrite bind_uncaught by exact Heq1.
      exists w1, (initiating :: EvNow now :: evs1), (Crashed e).
      split; [|by apply run_crashed].
      simpl. by rewrite <- !app_assoc. }
  erewrite bind_ok by exact Heq1.
  destruct (uploadToS3_trace (filename_at env now) (filepath_at env now) f
              (mkState w1 (lastBackupTimes st)
                 (((trace st ++ [initiating]) ++ [EvNow now]) ++ evs1)))
    as (r2 & w2 & evs2 & Heq2 & Hupload).
  simpl in Heq2.
  destruct (upload_trace_quiet env _ _ _ _ _ Hupload) as (_ & _ & _ & Hsettles).
  destruct r2 as [[]|e| | |e]; try done.
  2:{ erewrite bind_throw by exact Heq2.
      exists w2,
        (initiating :: EvNow now :: evs1 ++ evs2 ++ [EvError "Backup failed:" e]),
        (FailedEarly e).
      split; [|by eapply run_upload_failed].
      unfold console_error, emit; simpl. by rewrite <- !app_assoc. }
  erewrite bind_ok by exact Heq2.
  unfold deleteFile, console_log, emit, await, lastBackupTimes_set,
    bind; simpl.
  destruct (unlink _ w2) as [[[]|e] w3]; simpl.
  - exists w3,
      (initiating :: EvNow now :: evs1 ++ evs2
       ++ trigger_tail env f now Succeeded), Succeeded.
    split; [|by eapply run_succeeded].
    simpl. by rewrite <- !app_assoc.
  - exists w3,
      (initiating :: EvNow now :: evs1 ++ evs2
       ++ trigger_tail env f now (FailedUnlink e)), (FailedUnlink e).
    split; [|by eapply run_unlink_failed].
    unfold console_error, emit; simpl. by rewrite <- !app_assoc.
Qed.
End StageFacts.

(** ** The ways a run can end *)

Lemma omap_run_shape {A} (g : Event → option A) i n D U T :
  omap g (i :: n :: D ++ U ++ T)
  = omap g [i; n] ++ omap g D ++ omap g U ++ omap g T.
Proof.
  change (i :: n :: D ++ U ++ T) with ([i; n] ++ D ++ U ++ T).
  by rewrite !omap_app.
Qed.

Lemma omap_dump_shape {A} (g : Event → option A) i n D T :
  omap g (i :: n :: D ++ T) = omap g [i; n] ++ omap g D ++ omap g T.
Proof.
  change (i :: n :: D ++ T) with ([i; n] ++ D ++ T).
  by rewrite !omap_app.
Qed.

Lemma dump_trace_silent path evs r :
  dump_trace path evs r →
  md5s evs = [] ∧ uploads evs = [] ∧ listings evs = [] ∧ deletions evs = [] ∧
  store_rejections evs = [] ∧ unlinks evs = [].
Proof.
  intros Hk%dump_trace_kind.
  unfold md5s, uploads, listings, deletions, store_rejections, unlinks.
  repeat split; eapply omap_silent; try exact Hk; by intros [].
Qed.

Section RunTraces.
Context {W : Type} `{!Collaborators W} (env : Env).

Lemma run_trace_summary f now evs o :
  run_trace env f now evs o →
  dumps evs = [filepath_at env now] ∧
  ((∃ e, o = FailedEarly e ∧
         ((filepath_at env now, 1) ∉ gzip_checks evs) ∧
         md5s evs = [] ∧ uploads evs = [] ∧ listings evs = [] ∧
         deletions evs = [] ∧ store_rejections evs = [] ∧ unlinks evs = []) ∨
   (∃ e, o = FailedEarly e ∧
         gzip_checks evs = [(filepath_at env now, 1)] ∧
         md5s evs = [(filepath_at env now, Rejected e)] ∧
         uploads evs = [] ∧ listings evs = [] ∧ deletions evs = [] ∧
         store_rejections evs = [] ∧ unlinks evs = []) ∨
   (∃ e, o = FailedEarly e ∧
         gzip_checks evs = [(filepath_at env now, 1)] ∧
         uploads evs = [(key_at env f now, Rejected e)] ∧
         listings evs = [] ∧ deletions evs = [] ∧
         store_rejections evs = [] ∧ unlinks evs = []) ∨
   (∃ e, o = FailedEarly e ∧
         gzip_checks evs = [(filepath_at env now, 1)] ∧
         uploads evs = [(key_at env f now, Resolved tt)] ∧
         store_rejections evs = [e] ∧ unlinks evs = []) ∨
   (∃ e, o = FailedUnlink e ∧
         gzip_checks evs = [(filepath_at env now, 1)] ∧
         uploads evs = [(key_at env f now, Resolved tt)] ∧
         store_rejections evs = [] ∧
         unlinks evs = [(filepath_at env now, Rejected e)]) ∨
   (o = Succeeded ∧
    gzip_checks evs = [(filepath_at env now, 1)] ∧
    uploads evs = [(key_at env f now, Resolved tt)] ∧
    store_rejections evs = [] ∧
    unlinks evs = [(filepath_at env now, Resolved tt)]) ∨
   (∃ e, o = Crashed e ∧
         (gzip_checks evs = [] ∨
          gzip_checks evs = [(filepath_at env now, 1)]) ∧
         md5s evs = [] ∧ uploads evs = [] ∧ listings evs = [] ∧
         deletions evs = [] ∧ store_rejections evs = [] ∧ unlinks evs = [])).
Proof.
  intros Hrun.
  destruct Hrun as [D e HD|D e HD|D U e HD HU|D U e HD HU|D U HD HU].
  all: pose proof (dump_trace_dumps _ _ _ HD) as Hdumps.
  all: pose proof (dump_trace_checked _ _ _ HD) as Hchecked; simpl in Hchecked.
  all: destruct (dump_trace_silent _ _ _ HD) as (Dm & Du & Dl & Dd & Ds & Dx).
  3-5: destruct (upload_trace_quiet env _ _ _ _ _ HU) as (Ud & Ug & Ux & _).
  3-5: destruct Hchecked as [Hchecked _].
  3-5: destruct (upload_trace_uploads env _ _ _ _ _ HU)
         as [(Uu & Ul & Udel & Us & e' & He' & Um)
            |[(e' & He' & Uu & Ul & Udel & Us)|(Uu & Us)]];
       simplify_eq.
  all: unfold trigger_tail, key_at.
  1: { split; [exact Hdumps|]. do 6 right. exists e.
       split; [done|]. split; [exact Hchecked|]. done. }
  all: unfold dumps, gzip_checks, md5s, uploads, listings, deletions,
         store_rejections, unlinks in *.
  all: rewrite ?omap_run_shape, ?omap_dump_shape.
  all: rewrite ?Hdumps, ?Hchecked, ?Dm, ?Du, ?Dl, ?Dd, ?Ds, ?Dx,
         ?Ud, ?Ug, ?Ux, ?Uu, ?Ul, ?Udel, ?Us, ?Um.
  all: csimpl.
  - split; [done|]. left. eexists. rewrite app_nil_r. by repeat split.
  - split; [done|]. right; left. by eexists.
  - split; [done|]. right; right; left. by eexists.
  - split; [done|]. right; right; right; left. by eexists.
  - split; [done|]. do 4 right. left. by eexists.
  - split; [done|]. do 5 right. left. done.
Qed.
End RunTraces.

Section RunFacts.
Context {W : Type} `{!Collaborators W} (env : Env).

Lemma run_trace_stages f now evs o :
  run_trace env f now evs o →
  ∃ D rD U T,
    evs = EvLog ("Initiating " +:+ frequency_name f +:+ " backup...")
          :: EvNow now :: D ++ U ++ T ∧
    dump_trace (filepath_at env now) D rD ∧
    (U = [] ∨
     ∃ rU, upload_trace env (filename_at env now) (filepath_at env now) f U rU) ∧
    Forall (λ ev, tail_kind ev = true) T.
Proof.
  destruct 1 as [D e HD|D e HD|D U e HD HU|D U e HD HU|D U HD HU].
  - exists D, (Uncaught e), [], [].
    split; [by rewrite !app_nil_r|]. split; [done|]. split; [by left|].
    constructor.
  - exists D, (Throw e), [], [EvError "Backup failed:" e].
    split; [done|]. split; [done|]. split; [by left|]. by repeat constructor.
  - exists D, (Ok tt), U, [EvError "Backup failed:" e].
    split; [done|]. split; [done|]. split; [by eauto|]. by repeat constructor.
  - eexists D, (Ok tt), U, _.
    split; [done|]. split; [done|]. split; [by eauto|]. by repeat constructor.
  - eexists D, (Ok tt), U, _.
    split; [done|]. split; [done|]. split; [by eauto|]. by repeat constructor.
Qed.

Lemma run_trace_last f now evs o tr :
  run_trace env f now evs o → last (tr ++ evs) = Some (final_event f o).
Proof.
  destruct 1 as [D e HD|D e HD|D U e HD HU|D U e HD HU|D U HD HU]; simpl.
  - apply dump_trace_crashed in HD as [D' ->].
    rewrite !app_comm_cons, !app_assoc. apply last_snoc.
  - rewrite !app_comm_cons, !app_assoc. apply last_snoc.
  - rewrite !app_comm_cons, !app_assoc. apply last_snoc.
  - change [EvLog "Deleting file...";
            EvUnlink (filepath_at env now) (Rejected e);
            EvError "Backup failed:" e]
      with ([EvLog "Deleting file...";
             EvUnlink (filepath_at env now) (Rejected e)]
            ++ [EvError "Backup failed:" e]).
    rewrite !app_comm_cons, !app_assoc. apply last_snoc.
  - match goal with |- context [[?a; ?b; ?c; ?d]] =>
      change [a; b; c; d] with ([a; b; c] ++ [d]) end.
    rewrite !app_comm_cons, !app_assoc. apply last_snoc.
Qed.

(** What a run leaves: [runBackup_trace], through [added]. *)
Lemma runBackup_added f (st : State W) :
  ∃ o,
    runBackup env f st = (ending o, (runBackup env f st).2) ∧
    lastBackupTimes (runBackup env f st).2
    = marked f (clock (world st)).1 o (lastBackupTimes st) ∧
    run_trace env f (clock (world st)).1
      (added st (runBackup env f st).2) o ∧
    last (trace (runBackup env f st).2) = Some (final_event f o).
Proof.
  destruct (runBackup_trace env f st) as (w & evs & o & Hrun & Htrace).
  exists o. rewrite Hrun. unfold added; simpl. rewrite drop_app_length.
  split; [done|]. split; [done|]. split; [done|].
  by eapply run_trace_last.
Qed.

Lemma run_trace_upload_event f now evs o bucket key path md5 res :
  run_trace env f now evs o →
  EvUpload bucket key path md5 res ∈ evs →
  bucket = AWS_S3_BUCKET env ∧ key = key_at env f now ∧
  path = filepath_at env now ∧
  ((SUPPORT_OBJECT_LOCK env = false ∧ md5 = None ∧ md5s evs = []) ∨
   (SUPPORT_OBJECT_LOCK env = true ∧
    ∃ h, md5 = Some (hex_to_base64 h) ∧
         md5s evs = [(filepath_at env now, Resolved h)])).
Proof.
  intros (D & rD & U & T & -> & HD & HU & HT)%run_trace_stages Hin.
  apply dump_trace_kind in HD as HDk.
  destruct (dump_trace_silent _ _ _ HD) as (Dm & _).
  assert (md5s T = []) as Tm by (unfold md5s; silent_by HT).
  assert (md5s (EvLog ("Initiating " +:+ frequency_name f +:+ " backup...")
                :: EvNow now :: D ++ U ++ T) = md5s U) as Hmd5.
  { unfold md5s in *. rewrite omap_run_shape, Dm, Tm. csimpl.
    by rewrite app_nil_r. }
  rewrite Hmd5.
  rewrite !elem_of_cons, !elem_of_app in Hin.
  rewrite Forall_forall in HDk, HT.
  destruct Hin as [[=]|[[=]|[Hin|[Hin|Hin]]]];
    [by apply HDk in Hin| |by apply HT in Hin].
  destruct HU as [->|[rU HU]]; [by apply elem_of_nil in Hin|].
  by eapply upload_trace_event.
Qed.
End RunFacts.

(** ** Rejections, listings and deletions of a run *)

Lemma rejections_app evs1 evs2 :
  rejections (evs1 ++ evs2) = rejections evs1 ++ rejections evs2.
Proof. apply omap_app. Qed.

Lemma dump_trace_rejections path evs r :
  dump_trace path evs r →
  rejections evs = [] ∨ ∃ e, r = Throw e ∧ rejections evs = [e].
Proof.
  intros Hdump.
  destruct Hdump as [e|stderr e|stderr logs e Hlogs|stderr n Hn|stderr logs Hlogs].
  - right. by exists e.
  - by left.
  - left. unfold rejections; csimpl. rewrite omap_app.
    by rewrite (omap_silent _ _ _ Hlogs) by by intros [].
  - by left.
  - left. unfold rejections; csimpl. eapply omap_silent; [exact Hlogs|].
    by intros [].
Qed.

(** What a deletion loop requested: the candidates, in order, up to and
    including the first one the store rejected. *)
Lemma delete_trace_deletions bucket objs evs r :
  delete_trace bucket objs evs r →
  listings evs = [] ∧
  rejections evs = match r with Throw e => [e] | _ => [] end ∧
  match r with
  | Ok _ => deletions evs = candidate_keys objs
  | Throw e =>
      ∃ pre o key post evs',
        objs = pre ++ o :: post ∧ candidate_key o = Some key ∧
        deletions evs = candidate_keys pre ++ [key] ∧
        evs = evs' ++ [EvDelete bucket key (Rejected e)]
  | _ => False
  end.
Proof.
  induction 1 as [|o objs evs r Hkey Hrest IH|o key objs evs r Hkey Hrest IH
                 |o key e objs Hkey].
  - done.
  - destruct IH as (Hl & Hr & IH). split; [done|]. split; [done|].
    destruct r as [[]|e| | |]; try done.
    + unfold candidate_keys in *; csimpl. by rewrite Hkey.
    + destruct IH as (pre & o' & key & post & evs' & -> & Hkey' & Hdels & ->).
      exists (o :: pre), o', key, post, evs'. split; [done|]. split; [done|].
      split; [|done]. unfold candidate_keys in *; csimpl. by rewrite Hkey.
  - destruct IH as (Hl & Hr & IH). split; [done|]. split; [done|].
    destruct r as [[]|e| | |]; try done.
    + unfold candidate_keys, deletions in *; csimpl. by rewrite Hkey, IH.
    + destruct IH as (pre & o' & key' & post & evs' & -> & Hkey' & Hdels & ->).
      exists (o :: pre), o', key', post,
        (EvDelete bucket key (Resolved tt)
         :: EvLog ("Deleted old backup: " +:+ key) :: evs').
      split; [done|]. split; [done|]. split; [|done].
      unfold candidate_keys, deletions in *; csimpl. by rewrite Hkey, Hdels.
  - split; [done|]. split; [done|].
    exists [], o, key, objs, []. by repeat split.
Qed.

Section RunRequests.
Context {W : Type} `{!Collaborators W} (env : Env).

Lemma cleanup_trace_requests bucket prefix f evs r :
  cleanup_trace env bucket prefix f evs r →
  rejections evs = match r with Throw e => [e] | _ => [] end ∧
  ∃ answer,
    listings evs = [(listing_prefix prefix f, answer)] ∧
    (r = Ok tt →
     ∃ response,
       answer = Resolved response ∧
       deletions evs
       = match response with
         | Some contents => candidate_keys (objectsToDelete env contents)
         | None => []
         end).
Proof.
  destruct 1 as [e| |contents evs r Hdel].
  - split; [done|]. by eexists.
  - split; [done|]. eexists. split; [done|]. intros _. by exists None.
  - apply delete_trace_deletions in Hdel as (Hl & Hr & Hdel).
    split; [done|]. eexists. split.
    + unfold listings in *; csimpl. by rewrite Hl.
    + intros ->. by exists (Some contents).
Qed.

Lemma hash_trace_requests path evs r :
  hash_trace env path evs r →
  rejections evs = match r with Throw e => [e] | _ => [] end ∧
  listings evs = [] ∧ deletions evs = [].
Proof. by destruct 1. Qed.

Lemma upload_trace_requests name path f evs r :
  upload_trace env name path f evs r →
  rejections evs = match r with Throw e => [e] | _ => [] end ∧
  (listings evs = [] ∨
   ∃ answer, listings evs = [(listing_prefix (key_prefix env) f, answer)]) ∧
  (r = Ok tt →
   ∃ response,
     listings evs
     = [(listing_prefix (key_prefix env) f, Resolved response)] ∧
     deletions evs
     = match response with
       | Some contents => candidate_keys (objectsToDelete env contents)
       | None => []
       end).
Proof.
  destruct 1 as [hashing e Hh|hashing md5 e Hh|hashing md5 cleaning r Hh Hc].
  - apply hash_trace_requests in Hh as (Hr & Hl & Hd).
    split; [done|]. split; [by left|done].
  - apply hash_trace_requests in Hh as (Hr & Hl & Hd).
    unfold rejections, listings in *; csimpl. rewrite !omap_app, Hr, Hl.
    split; [done|]. split; [by left|done].
  - apply hash_trace_requests in Hh as (Hr & Hl & Hd).
    apply cleanup_trace_requests in Hc as (Cr & answer & Cl & Cd).
    unfold rejections, listings, deletions in *; csimpl.
    rewrite !omap_app, Hr, Hl, Hd; csimpl. rewrite Cr, Cl.
    split; [done|]. split; [right; by exists answer|].
    intros Hok. destruct (Cd Hok) as (response & -> & Hdels).
    by exists response.
Qed.

Lemma tail_kind_requests T :
  Forall (λ ev, tail_kind ev = true) T → listings T = [] ∧ deletions T = [].
Proof. intros HT. unfold listings, deletions. split; silent_by HT. Qed.

(** The listings and the rejections of a run. *)
Lemma run_trace_requests f now evs o :
  run_trace env f now evs o →
  (∀ e, e ∈ rejections evs → o = FailedEarly e ∨ o = FailedUnlink e) ∧
  (listings evs = [] ∨
   ∃ answer, listings evs = [(listing_prefix (key_prefix env) f, answer)]) ∧
  (o = Succeeded →
   ∃ response,
     listings evs
     = [(listing_prefix (key_prefix env) f, Resolved response)] ∧
     deletions evs
     = match response with
       | Some contents => candidate_keys (objectsToDelete env contents)
       | None => []
       end).
Proof.
  destruct 1 as [D e HD|D e HD|D U e HD HU|D U e HD HU|D U HD HU].
  all: pose proof (dump_trace_rejections _ _ _ HD) as Dr.
  all: destruct (dump_trace_silent _ _ _ HD) as (_ & _ & Dl & Dd & _ & _).
  3-5: destruct (upload_trace_requests _ _ _ _ _ HU) as (Ur & Ul & Uok).
  all: unfold trigger_tail.
  all: unfold rejections, listings, deletions in *.
  all: rewrite ?omap_run_shape, ?omap_dump_shape; csimpl.
  all: rewrite ?Dl, ?Dd; csimpl.
  - destruct Dr as [->|(e' & [=] & _)].
    split; [by intros e' ?%elem_of_nil|]. split; [by left|done].
  - rewrite app_nil_r.
    split; [|split; [by left|done]].
    destruct Dr as [->|(e' & [= <-] & ->)]; [by intros e' ?%elem_of_nil|].
    intros e' ->%list_elem_of_singleton. by left.
  - destruct Dr as [Dr|(e' & [=] & _)]. rewrite Dr, Ur, !app_nil_r; csimpl.
    split; [|split; [done|done]].
    intros e' ->%list_elem_of_singleton. by left.
  - destruct Dr as [Dr|(e' & [=] & _)]. rewrite Dr, Ur, !app_nil_r; csimpl.
    split; [|split; [done|done]].
    intros e' ->%list_elem_of_singleton. by right.
  - destruct Dr as [Dr|(e' & [=] & _)]. rewrite Dr, Ur, !app_nil_r; csimpl.
    split; [by intros e' ?%elem_of_nil|]. split; [done|].
    intros _. by apply Uok.
Qed.
End RunRequests.

(** ** What an iteration decides *)

Lemma due_at_same times times' f t :
  times' !! f = times !! f → due_at times' f t = due_at times f t.
Proof. unfold due_at. by intros ->. Qed.

Lemma evaluations_app evs1 evs2 :
  evaluations (evs1 ++ evs2) = evaluations evs1 ++ evaluations evs2.
Proof. apply omap_app. Qed.

Section Decisions.
Context {W : Type} `{!Collaborators W} (env : Env).

Lemma run_events_quiet f now evs o :
  Forall (before_unlink env f) evs →
  evaluations (run_events env f now evs o) = [] ∧
  sleeps (run_events env f now evs o) = [].
Proof.
  intros Hevs%before_unlink_of_cadence.
  pose proof (trigger_tail_of_cadence env f now o) as Htail.
  unfold run_events, evaluations, sleeps; csimpl. rewrite !omap_app.
  split.
  - rewrite (omap_silent _ _ _ Hevs), (omap_silent _ _ _ Htail);
      [done|by intros []..].
  - rewrite (omap_silent _ _ _ Hevs), (omap_silent _ _ _ Htail);
      [done|by intros []..].
Qed.

Lemma segment_evaluations f times seg times' r :
  segment env f times seg times' r →
  (∃ t, evaluations seg = [(f, t, due_at times f t)]) ∧
  sleeps seg = [] ∧
  ∀ f', f' ≠ f → times' !! f' = times !! f'.
Proof.
  destruct 1 as [t Hdue|t now evs o Hdue Hevs].
  - split; [exists t; by rewrite Hdue|done].
  - destruct (run_events_quiet f now evs o Hevs) as [Hev Hsl].
    split; [|split].
    + exists t. rewrite Hdue.
      change (evaluations (?a :: EvEvaluate f t true :: ?b :: ?l))
        with ((f, t, true) :: evaluations l).
      by rewrite Hev.
    + change (sleeps (?a :: ?b :: ?c :: ?l)) with (sleeps l). exact Hsl.
    + intros f' Hne. destruct o; simpl; [|done..].
      by rewrite lookup_insert_ne.
Qed.

(** The decisions of a row of checks depend on the times recorded before
    the first of them. *)
Lemma segments_decisions times fs evs times' :
  NoDup fs → segments env times fs evs times' →
  sleeps evs = [] ∧
  (∀ f t due, (f, t, due) ∈ evaluations evs →
              f ∈ fs ∧ due = due_at times f t) ∧
  ∀ f', f' ∉ fs → times' !! f' = times !! f'.
Proof.
  intros Hnodup Hsegs.
  induction Hsegs as [|times f fs seg times1 evs times2 Hseg _ IH].
  - split; [done|]. split; [|done]. by intros f t due ?%elem_of_nil.
  - apply NoDup_cons in Hnodup as [Hf Hnodup].
    destruct (IH Hnodup) as (Hsl & Hev & Hkeep).
    apply segment_evaluations in Hseg as ([t0 Hev0] & Hsl0 & Hkeep0).
    split; [by rewrite sleeps_app, Hsl0, Hsl|]. split.
    + intros f' t due. rewrite evaluations_app, Hev0.
      intros [[= -> -> ->]%list_elem_of_singleton|Hin]%elem_of_app.
      * split; [by left|done].
      * destruct (Hev _ _ _ Hin) as [Hf' ->].
        split; [by right|]. apply due_at_same, Hkeep0. by intros ->.
    + intros f' Hf'. apply not_elem_of_cons in Hf' as [Hne Hf'].
      by rewrite Hkeep, Hkeep0.
Qed.

Lemma table_NoDup : NoDup [weekly; daily; hourly; freq_10min].
Proof. compute_done. Qed.

Lemma tick_events_segments times evs times' :
  tick_events env times evs times' →
  ∃ t0 segs,
    evs = EvNow t0 :: EvSleep (waitMs t0) :: segs ++ [EvSleep (60 * 1000)] ∧
    segments env times [weekly; daily; hourly; freq_10min] segs times'.
Proof.
  destruct 1 as [t0 sw sd sh sm times1 times2 times3 times4 Hw Hd Hh Hm].
  exists t0, (sw ++ sd ++ sh ++ sm ++ []).
  split; [by rewrite app_nil_r, <- !app_assoc|].
  repeat (econstructor; [eassumption|]). constructor.
Qed.

(** Every decision of an iteration, whether the iteration returns or is cut
    short, is made on the times recorded when the iteration started. *)
Lemma tick_decisions (st : State W) :
  ∀ f t due,
    (f, t, due) ∈ evaluations (added st (tick env st).2) →
    due = due_at (lastBackupTimes st) f t.
Proof.
  destruct (tick_spec env st) as (r & st' & evs & -> & Htr & Hev).
  unfold added. simpl. rewrite Htr, drop_app_length.
  destruct r as [[]| | | |e]; try done.
  - apply tick_events_segments in Hev as (t0 & segs & -> & Hsegs).
    apply segments_decisions in Hsegs as (_ & Hev & _); [|apply table_NoDup].
    intros f t due.
    change (evaluations (?a :: ?b :: ?l)) with (evaluations l).
    rewrite evaluations_app, app_nil_r. by intros [_ ->]%Hev.
  - destruct Hev as [t0 checked f0 unchecked segs times1 seg times2 e
                       Hfs Hsegs Hseg].
    pose proof table_NoDup as Hnodup. change (frequency <$> BACKUP_INTERVALS)
      with [weekly; daily; hourly; freq_10min] in Hfs. rewrite Hfs in Hnodup.
    apply NoDup_app in Hnodup as (Hchecked & Hnot & _).
    apply segments_decisions in Hsegs as (_ & Hev & Hkeep); [|done].
    apply segment_evaluations in Hseg as ([t1 Hev1] & _ & _).
    intros f t due.
    change (evaluations (?a :: ?b :: ?l)) with (evaluations l).
    rewrite evaluations_app, Hev1.
    intros [Hin|[= -> -> ->]%list_elem_of_singleton]%elem_of_app.
    + by destruct (Hev _ _ _ Hin) as [_ ->].
    + apply due_at_same, Hkeep. intros Hin. apply (Hnot _ Hin). by left.
Qed.

Lemma getLastBackupTimes_confined bucket prefix :
  confined unscheduled (getLastBackupTimes (W:=W) bucket prefix).
Proof.
  unfold getLastBackupTimes, BACKUP_INTERVALS, getLastBackupTimes_loop,
    getLastBackupTime, console_log, console_error.
  confine; done.
Qed.

Lemma unscheduled_quiet evs :
  Forall unscheduled evs → evaluations evs = [] ∧ sleeps evs = [].
Proof.
  intros Hevs. unfold evaluations, sleeps.
  split; (eapply omap_silent; [exact Hevs|by intros []]).
Qed.

(** [startBackupScheduler] is the seeding followed by the loop. *)
Lemma startBackupScheduler_spec ticks (st : State W) :
  ∃ initialBackupTimes st2 evs,
    getLastBackupTimes (AWS_S3_BUCKET env) (key_prefix env)
      (logged "Starting backup scheduler..." st)
    = (Ok initialBackupTimes, st2) ∧
    trace st2 = trace st ++ evs ∧ Forall unscheduled evs ∧
    startBackupScheduler env ticks st
    = scheduler_loop env ticks
        (mkState (world st2) (initialBackupTimes ∪ lastBackupTimes st)
           (trace st2)).
Proof.
  unfold startBackupScheduler, console_log, emit, bind at 1; simpl.
  fold (logged "Starting backup scheduler..." st).
  destruct (getLastBackupTimes_spec (AWS_S3_BUCKET env) (key_prefix env)
              (logged "Starting backup scheduler..." st))
    as (answer & w & evs & Hget & _).
  destruct (getLastBackupTimes_confined (AWS_S3_BUCKET env) (key_prefix env)
              (logged "Starting backup scheduler..." st))
    as (r & w' & evs' & Hget' & Hquiet & _).
  rewrite Hget in Hget'. injection Hget' as _ _ Htrace.
  apply app_inv_head in Htrace as <-.
  eexists (seeded_all answer), _, (EvLog "Starting backup scheduler..." :: evs).
  split; [exact Hget|]. simpl.
  split; [by rewrite <- app_assoc|]. split; [by constructor|].
  erewrite bind_ok by exact Hget.
  unfold bind at 1. by rewrite seed_spec.
Qed.

Lemma startBackupScheduler_ends ticks (st : State W) :
  match (startBackupScheduler env ticks st).1 with
  | Pending | Uncaught _ => True
  | _ => False
  end.
Proof.
  destruct (startBackupScheduler_spec ticks st)
    as (times & st2 & evs & _ & _ & _ & ->).
  match goal with |- context [scheduler_loop env ticks ?s] =>
    destruct (scheduler_loop_spec env ticks s) as (r & st' & evs' & -> & _ & Hr)
  end.
  by destruct r.
Qed.

(** The startup path of the entry point: one 10min run, then the
    scheduler, unless the run crashed. *)
Lemma start_on_startup ticks (st : State W) :
  RUN_ON_STARTUP env = true → SINGLE_SHOT_MODE env = false →
  start env ticks st
  = match runBackup env freq_10min (logged "Running on start backup..." st) with
    | (Ok _, st1) => startBackupScheduler env ticks st1
    | other => other
    end.
Proof.
  intros Hstartup Hsingle.
  unfold start, main, tryBackup, backup, try_catch.
  rewrite Hstartup, Hsingle. simpl.
  unfold console_log, emit, bind at 1 2 3; simpl.
  fold (logged "Running on start backup..." st).
  destruct (runBackup_run env freq_10min (logged "Running on start backup..." st))
    as (w & evs & o & _ & ->).
  destruct o; simpl; try done.
  all: unfold ret, bind at 1; simpl.
  all: match goal with |- context [startBackupScheduler env ?n ?s] =>
         pose proof (startBackupScheduler_ends n s) as Hends;
         destruct (startBackupScheduler env n s) as [[] ?]
       end; done.
Qed.

(** Without a startup run the entry point is the scheduler. *)
Lemma start_without_startup ticks (st : State W) :
  RUN_ON_STARTUP env = false → SINGLE_SHOT_MODE env = false →
  start env ticks st = startBackupScheduler env ticks st.
Proof.
  intros Hstartup Hsingle.
  unfold start, main, try_catch. rewrite Hstartup, Hsingle. simpl.
  unfold ret, bind at 1; simpl.
  pose proof (startBackupScheduler_ends ticks st) as Hends.
  by destruct (startBackupScheduler env ticks st) as [[] ?].
Qed.

(** In single-shot mode the entry point is one 10min run and the exit. *)
Lemma start_single_shot ticks (st : State W) :
  SINGLE_SHOT_MODE env = true →
  start env ticks st
  = match runBackup env freq_10min (logged "Running on start backup..." st) with
    | (Ok _, st1) => (Exit 0, logged "Database backup complete, exiting..." st1)
    | other => other
    end.
Proof.
  intros Hsingle.
  unfold start, main, tryBackup, backup, try_catch.
  rewrite Hsingle, orb_true_r.
  unfold console_log, emit, bind at 1 2 3; simpl.
  fold (logged "Running on start backup..." st).
  destruct (runBackup_run env freq_10min (logged "Running on start backup..." st))
    as (w & evs & o & _ & ->).
  by destruct o.
Qed.

Lemma scheduler_loop_one (st : State W) :
  (scheduler_loop env 1 st).2 = (tick env st).2.
Proof. simpl. unfold bind. by destruct (tick env st) as [[] ?]. Qed.

Lemma added_app (st st1 st2 : State W) evs1 evs2 :
  trace st1 = trace st ++ evs1 → trace st2 = trace st1 ++ evs2 →
  added st st2 = evs1 ++ added st1 st2.
Proof.
  intros H1 H2. unfold added. rewrite H2, H1, <- app_assoc.
  rewrite drop_app_length. by rewrite app_assoc, drop_app_length.
Qed.

Lemma tick_trace (st : State W) :
  ∃ evs, trace (tick env st).2 = trace st ++ evs.
Proof.
  destruct (tick_spec env st) as (r & st' & evs & -> & Htr & _). by exists evs.
Qed.

(** The decisions of the first iteration are made on the recorded times
    as the seeding left them. *)
Lemma startBackupScheduler_decisions (st : State W) :
  ∃ initialBackupTimes st2 evs,
    getLastBackupTimes (AWS_S3_BUCKET env) (key_prefix env)
      (logged "Starting backup scheduler..." st)
    = (Ok initialBackupTimes, st2) ∧
    trace (startBackupScheduler env 1 st).2 = trace st ++ evs ∧
    ∀ f t due,
      (f, t, due) ∈ evaluations evs →
      due = due_at (initialBackupTimes ∪ lastBackupTimes st) f t.
Proof.
  destruct (startBackupScheduler_spec 1 st)
    as (times & st2 & evs & Hget & Htr & Hquiet & ->).
  apply unscheduled_quiet in Hquiet as [Hquiet _].
  set (s2 := mkState _ _ _).
  destruct (tick_trace s2) as [evs3 Htr3].
  pose proof (tick_decisions s2) as Hdecide.
  exists times, st2, (evs ++ evs3). split; [done|].
  rewrite scheduler_loop_one, Htr3. unfold s2 at 1; simpl.
  split; [by rewrite Htr, app_assoc|].
  intros f t due. rewrite evaluations_app, Hquiet. simpl.
  unfold added in Hdecide. rewrite Htr3, drop_app_length in Hdecide.
  apply Hdecide.
Qed.
End Decisions.

(** * The claims *)

Section Claims.
Context {W : Type} `{!Collaborators W} (env : Env).

(** C6: the due-ness predicate.  For every cadence and every instant,
    [shouldRunBackup] returns without touching the state (the recorded
    times, the world and the trace are as before); a cadence with no
    recorded last backup is due; a cadence whose last backup is recorded
    at [lastBackup] is due if and only if [now - lastBackup] is at least
    the cadence's duration in the table, the boundary included. *)
Theorem shouldRunBackup_due_iff (f : BackupFrequency) (now : Z) (st : State W) :
  ∃ due interval,
    shouldRunBackup f now st = (Ok due, st) ∧
    interval ∈ BACKUP_INTERVALS ∧ frequency interval = f ∧
    match lastBackupTimes st !! f with
    | None => due = true
    | Some lastBackup =>
        due = true ↔ now - lastBackup >= milliseconds interval
    end.
Proof.
  destruct (find_interval_total f) as (interval & Hfind & Hin & Hf).
  exists (due_at (lastBackupTimes st) f now), interval.
  split; [apply shouldRunBackup_spec|]. split; [done|]. split; [done|].
  unfold due_at, cadence_duration. rewrite Hfind.
  destruct (lastBackupTimes st !! f) as [lastBackup|]; [|done].
  by rewrite bool_decide_eq_true.
Qed.

(** C4, as the code has it: the time recorded by a successful trigger is
    the instant at which it started.  For every cadence, after a run of
    [runBackup] that succeeded (its last console line is the completion
    line), the cadence is recorded at the instant [now] that the run took
    from the clock before the dump; evaluated at that instant
    [shouldRunBackup] returns false, and at any instant [t] it returns true
    exactly when [t - now] is at least the cadence's duration.  So at the
    instant at which the trigger completes, the reading [t_end] of the clock
    in the state the run leaves, it returns false exactly when the run took
    less than the cadence's duration. *)
Theorem due_after_success_from_start (f : BackupFrequency) (st : State W) :
  let now := (clock (world st)).1 in
  let st' := (runBackup env f st).2 in
  let t_end := (clock (world st')).1 in
  last (trace st')
    = Some (EvLog ("DB backup complete (" +:+ frequency_name f +:+ " backup)...")) →
  runBackup env f st = (Ok tt, st') ∧
  lastBackupTimes st' !! f = Some now ∧
  shouldRunBackup f now st' = (Ok false, st') ∧
  (∀ t, ∃ due, shouldRunBackup f t st' = (Ok due, st') ∧
               (due = true ↔ t - now >= cadence_duration f)) ∧
  (shouldRunBackup f t_end st' = (Ok false, st') ↔
   t_end - now < cadence_duration f).
Proof.
  intros now st' t_end. subst st' t_end.
  destruct (runBackup_run env f st) as (w & evs & o & Hevs & ->); simpl.
  rewrite run_events_last. intros [= ->%final_event_succeeded].
  split; [done|]. simpl. rewrite lookup_insert_eq. split; [done|].
  assert (∀ t, due_at (<[f:=now]> (lastBackupTimes st)) f t
               = bool_decide (t - now >= cadence_duration f)) as Hdue.
  { intros t. unfold due_at. by rewrite lookup_insert_eq. }
  split; [|split].
  - rewrite shouldRunBackup_spec. do 2 f_equal. simpl. rewrite Hdue.
    apply bool_decide_eq_false. pose proof (cadence_duration_pos f). lia.
  - intros t. eexists. split; [apply shouldRunBackup_spec|].
    simpl. rewrite Hdue. by rewrite bool_decide_eq_true.
  - rewrite shouldRunBackup_spec. simpl. rewrite Hdue. split.
    + intros [= Hfalse]. apply bool_decide_eq_false in Hfalse. lia.
    + intros Hlt. do 2 f_equal. apply bool_decide_eq_false. lia.
Qed.

(** C8, as the code has it: the rejections of a trigger stay inside it;
    an exception thrown by the validity check does not.
    (1) Whatever promise is rejected during a run (the dump, the hash, the
    upload, a listing, a deletion in the store, the deletion of the local
    file), [runBackup] catches the error, logs it as a failed backup and
    returns normally; a run that failed leaves the recorded times as they
    were.  [runBackup] does not return in one case only: an exception
    thrown by [execSync] or [statSync] in the callback of [exec] is caught
    by nobody and ends the process; no time is recorded then either.
    (2) The scheduler's check of a cadence returns normally unless its run
    ended so; when its run failed the recorded times are unchanged and the
    cadence, which was due at the instant [t] of the evaluation, is due at
    every instant from [t] on.
    (3) An iteration of the loop that returns has evaluated all four
    cadences; an iteration that an uncaught exception ends has evaluated
    the cadences up to the one whose run threw it, and not the others.
    (4) After any number of iterations the loop is still running and every
    iteration has evaluated all four cadences, unless an uncaught exception
    has ended it. *)
Theorem rejections_contained_exceptions_not :
  (∀ f (st : State W), ∃ r st',
      runBackup env f st = (r, st') ∧
      (∀ e, e ∈ rejections (added st st') →
            r = Ok tt ∧ last (trace st') = Some (EvError "Backup failed:" e)) ∧
      (∀ e, last (trace st') = Some (EvError "Backup failed:" e) →
            r = Ok tt ∧ lastBackupTimes st' = lastBackupTimes st) ∧
      (r = Ok tt ∨
       ∃ e, r = Uncaught e ∧ thrown_by_check e ∧
            last (trace st') = Some (EvUncaught e) ∧
            lastBackupTimes st' = lastBackupTimes st)) ∧
  (∀ interval (st : State W), ∃ r st',
      check_interval env interval st = (r, st') ∧
      (r = Ok tt ∨
       ∃ e, r = Uncaught e ∧ thrown_by_check e ∧
            last (trace st') = Some (EvUncaught e)) ∧
      ∀ e, last (trace st') = Some (EvError "Backup failed:" e) →
           r = Ok tt ∧
           lastBackupTimes st' = lastBackupTimes st ∧
           ∃ t, EvEvaluate (frequency interval) t true ∈ trace st' ∧
                ∀ t', t <= t' →
                      shouldRunBackup (frequency interval) t' st' = (Ok true, st')) ∧
  (∀ st : State W, ∃ r st' evs,
      tick env st = (r, st') ∧ trace st' = trace st ++ evs ∧
      match r with
      | Ok _ => evaluated evs = [weekly; daily; hourly; freq_10min]
      | Uncaught e =>
          thrown_by_check e ∧ last evs = Some (EvUncaught e) ∧
          ∃ checked f unchecked,
            [weekly; daily; hourly; freq_10min] = checked ++ f :: unchecked ∧
            evaluated evs = checked ++ [f]
      | _ => False
      end) ∧
  (∀ ticks (st : State W), ∃ r st' evs,
      scheduler_loop env ticks st = (r, st') ∧
      trace st' = trace st ++ evs ∧
      match r with
      | Pending =>
          evaluated evs
          = concat (replicate ticks [weekly; daily; hourly; freq_10min])
      | Uncaught e => thrown_by_check e ∧ last evs = Some (EvUncaught e)
      | _ => False
      end).
Proof.
  split; [|split; [|split]].
  - intros f st.
    destruct (runBackup_added env f st) as (o & Hrun & Htimes & Htrace & Hlast).
    exists (ending o), (runBackup env f st).2. split; [done|].
    apply run_trace_requests in Htrace as (Hrej & _).
    split; [|split].
    + intros e [-> | ->]%Hrej; by rewrite Hlast.
    + intros e. rewrite Hlast, Htimes. intros [= Ho].
      by apply final_event_failed in Ho as [-> | ->].
    + destruct o; try by left. right. exists e. rewrite Hlast, Htimes.
      split; [done|]. split; [|done].
      eapply runBackup_crashes. exact Hrun.
  - intros interval st.
    destruct (check_interval_spec env interval st) as (r & st' & seg & Hrun & Htr & Hseg).
    exists r, st'. split; [done|]. split.
    + destruct (segment_ends _ _ _ _ _ _ Hseg) as [->|[e ->]]; [by left|].
      right. exists e. split; [done|].
      split; [by eapply check_interval_crashes|].
      apply segment_crashed in Hseg as (_ & [seg' ->] & _).
      by rewrite Htr, app_assoc, last_snoc.
    + intros e Hlast. rewrite Htr in Hlast.
      destruct (segment_last env _ _ _ _ _ _ _ Hseg Hlast)
        as (-> & Htimes & t & Hdue & Hin).
      split; [done|]. split; [done|]. exists t.
      split; [rewrite Htr; apply elem_of_app; by right|].
      intros t' Ht'. rewrite shouldRunBackup_spec. do 2 f_equal.
      rewrite Htimes. by eapply due_at_later.
  - intros st. destruct (tick_spec env st) as (r & st' & evs & Htick & Htr & Hev).
    exists r, st', evs. split; [done|]. split; [done|].
    destruct r as [[]| | | |e]; try done.
    + by eapply tick_events_evaluated.
    + split; [by eapply tick_crashes|].
      apply tick_cut_short_evaluated in Hev
        as (checked & f & unchecked & Hfs & Hevaluated & _ & [evs' ->]).
      split; [by rewrite last_snoc|]. by exists checked, f, unchecked.
  - intros ticks st.
    destruct (scheduler_loop_spec env ticks st) as (r & st' & evs & Hloop & Htr & Hev).
    exists r, st', evs. split; [done|]. split; [done|].
    destruct r as [| | | |e]; try done.
    split; [by eapply scheduler_loop_crashes|].
    destruct Hev as [evs' ->]. by rewrite last_snoc.
Qed.

(** C9: on every tick the cadences are evaluated in the order of the
    table, weekly, daily, hourly, 10min.  An iteration that returns is the
    alignment sleep, then for each cadence in that order its clock reading,
    its evaluation and, when due, its whole run, each cadence starting from
    the recorded times the one before it left, then the one-minute sleep;
    the events of a run lie between the evaluation of its cadence and the
    next evaluation.  An iteration does not return when a run ends in an
    uncaught exception, which ends the process: then the cadences up to
    that run's were evaluated and run in the same order, one after the
    other, and the cadences after it are not reached. *)
Theorem tick_coarsest_first (st : State W) :
  frequency <$> BACKUP_INTERVALS = [weekly; daily; hourly; freq_10min] ∧
  ∃ r st' evs,
    tick env st = (r, st') ∧ trace st' = trace st ++ evs ∧
    match r with
    | Ok _ =>
        tick_events env (lastBackupTimes st) evs (lastBackupTimes st') ∧
        evaluated evs = [weekly; daily; hourly; freq_10min]
    | Uncaught e =>
        tick_cut_short env (lastBackupTimes st) evs (lastBackupTimes st') e ∧
        ∃ checked f unchecked,
          [weekly; daily; hourly; freq_10min] = checked ++ f :: unchecked ∧
          evaluated evs = checked ++ [f]
    | _ => False
    end.
Proof.
  split; [done|].
  destruct (tick_spec env st) as (r & st' & evs & Htick & Htr & Hev).
  exists r, st', evs. repeat (split; [done|]).
  destruct r as [[]| | | |e]; try done.
  - split; [done|]. by eapply tick_events_evaluated.
  - split; [done|].
    apply tick_cut_short_evaluated in Hev
      as (checked & f & unchecked & Hfs & Hevaluated & _).
    by exists checked, f, unchecked.
Qed.
End Claims.

Section BackupClaims.
Context {W : Type} `{!Collaborators W} (env : Env).

Lemma run_events_of_cadence f now evs o :
  Forall (before_unlink env f) evs →
  Forall (of_cadence env f) (run_events env f now evs o).
Proof.
  intros Hevs. unfold run_events. repeat (constructor; [done|]).
  apply Forall_app. split; [by apply before_unlink_of_cadence|].
  apply trigger_tail_of_cadence.
Qed.

Lemma uploads_event key r evs :
  (key, r) ∈ uploads evs → ∃ bucket path md5, EvUpload bucket key path md5 r ∈ evs.
Proof.
  intros (ev & Hin & Hev)%list_elem_of_omap.
  destruct ev; simplify_eq. by eexists _, _, _.
Qed.

(** C10, as the code has it: a manual, startup or single-shot backup runs
    under the 10min cadence, and a startup run is followed by the seeding.
    (1) The run of [backup] dumps once; every upload it makes goes to the
    key [<subfolder>/10min/<file name>] and every listing it asks for is of
    the prefix [<subfolder>/10min/]; it never changes the recorded time of
    another cadence, whose due-ness is therefore what it was.  When it
    succeeded it has uploaded the archive under that key, listed that
    prefix once and requested the deletion of the objects to delete of that
    listing, and the 10min cadence is recorded at the instant [now] the run
    took from the clock when it started, so that the cadence is due at [t]
    exactly when [t - now] is at least ten minutes; when it did not succeed,
    no recorded time changed.
    (2) After a startup run the scheduler seeds before its first iteration:
    in that iteration a cadence is triggered at the instant [t] of its
    evaluation exactly when [t] is at least the cadence's duration after the
    date that [getLastBackupTimes] returned for it or, if it returned none,
    exactly when it is due at [t] by the times recorded when the startup run
    ended.  So the startup run decides about the first 10min trigger only
    when the seeding finds no date under the 10min prefix, and even then it
    does not suppress it once ten minutes have passed since the run
    started. *)
Theorem backup_runs_as_10min (st : State W) :
  let now := (clock (world st)).1 in
  let prefix := key_prefix env +:+ "10min/" in
  let object_key := key_prefix env +:+ "10min/" +:+ filename_at env now in
  (∃ o st',
     let evs := added st st' in
     backup env st = (ending o, st') ∧
     last (trace st') = Some (final_event freq_10min o) ∧
     dumps evs = [filepath_at env now] ∧
     (∀ key r, (key, r) ∈ uploads evs → key = object_key) ∧
     (∀ p r, (p, r) ∈ listings evs → p = prefix) ∧
     (∀ f, f ≠ freq_10min →
           lastBackupTimes st' !! f = lastBackupTimes st !! f ∧
           ∀ t, shouldRunBackup f t st'
                = (Ok (due_at (lastBackupTimes st) f t), st')) ∧
     match o with
     | Succeeded =>
         uploads evs = [(object_key, Resolved tt)] ∧
         (∃ response,
            listings evs = [(prefix, Resolved response)] ∧
            deletions evs
            = match response with
              | Some contents => candidate_keys (objectsToDelete env contents)
              | None => []
              end) ∧
         lastBackupTimes st' = <[freq_10min := now]> (lastBackupTimes st) ∧
         ∀ t, shouldRunBackup freq_10min t st'
              = (Ok (bool_decide (t - now >= 10 * 60 * 1000)), st')
     | FailedEarly _ | FailedUnlink _ | Crashed _ =>
         lastBackupTimes st' = lastBackupTimes st
     end) ∧
  (RUN_ON_STARTUP env = true → SINGLE_SHOT_MODE env = false →
   let st1 :=
     (runBackup env freq_10min (logged "Running on start backup..." st)).2 in
   ∃ initialBackupTimes st2 r st',
     getLastBackupTimes (AWS_S3_BUCKET env) (key_prefix env)
       (logged "Starting backup scheduler..." st1)
     = (Ok initialBackupTimes, st2) ∧
     start env 1 st = (r, st') ∧
     ∀ f t due,
       (f, t, due) ∈ evaluations (added st st') →
       due = match initialBackupTimes !! f with
             | Some d => bool_decide (t - d >= cadence_duration f)
             | None => due_at (lastBackupTimes st1) f t
             end).
Proof.
  intros now prefix object_key. split.
  - unfold backup.
    destruct (runBackup_added env freq_10min st)
      as (o & Hrun & Htimes & Htrace & Hlast).
    exists o, (runBackup env freq_10min st).2. cbv zeta.
    set (st' := (runBackup env freq_10min st).2) in *.
    set (evs := added st st') in *.
    destruct (run_trace_summary env _ _ _ _ Htrace) as (Hdumps & Hcases).
    destruct (run_trace_requests env _ _ _ _ Htrace) as (_ & Hlistings & Hok).
    split; [done|]. split; [done|]. split; [done|]. split; [|split; [|split]].
    + intros key r (bucket & path & md5 & Hin)%uploads_event.
      destruct (run_trace_upload_event env _ _ _ _ _ _ _ _ _ Htrace Hin)
        as (_ & -> & _).
      reflexivity.
    + intros p r Hin.
      destruct Hlistings as [Hnone|[answer Hone]].
      * rewrite Hnone in Hin. by apply elem_of_nil in Hin.
      * rewrite Hone in Hin. by apply list_elem_of_singleton in Hin as [= -> _].
    + intros f Hf.
      assert (lastBackupTimes st' !! f = lastBackupTimes st !! f) as Hsame.
      { rewrite Htimes. destruct o; simpl; [|done..].
        by rewrite lookup_insert_ne. }
      split; [done|]. intros t. rewrite shouldRunBackup_spec.
      do 2 f_equal. by apply due_at_same.
    + destruct o; try by rewrite Htimes.
      destruct (Hok eq_refl) as (response & Hlist & Hdels).
      destruct Hcases as [(e & [=] & _)|[(e & [=] & _)|[(e & [=] & _)
                         |[(e & [=] & _)|[(e & [=] & _)
                         |[(_ & _ & Huploads & _)|(e & [=] & _)]]]]]].
      split; [done|]. split; [by exists response|]. split; [done|].
      intros t. rewrite shouldRunBackup_spec. do 2 f_equal.
      rewrite Htimes. unfold due_at; simpl. by rewrite lookup_insert_eq.
  - intros Hstartup Hsingle st1. rewrite start_on_startup by done.
    destruct (runBackup_run env freq_10min (logged "Running on start backup..." st))
      as (w & evs & o & Hevs & Hrun).
    destruct (run_events_quiet env _ (clock (world st)).1 _ o Hevs) as [Hquiet _].
    assert (trace st1 = trace st ++
              EvLog "Running on start backup..."
              :: run_events env freq_10min (clock (world st)).1 evs o) as Htr1.
    { subst st1. rewrite Hrun. simpl. by rewrite <- app_assoc. }
    assert (runBackup env freq_10min (logged "Running on start backup..." st)
            = (ending o, st1)) as Hst1 by (subst st1; by rewrite Hrun).
    clearbody st1. rewrite Hst1. clear Hrun Hst1.
    destruct (startBackupScheduler_decisions env st1)
      as (times & st2 & evs2 & Hget & Htr2 & Hdecide).
    exists times, st2.
    assert (∀ f t, due_at (times ∪ lastBackupTimes st1) f t
                   = match times !! f with
                     | Some d => bool_decide (t - d >= cadence_duration f)
                     | None => due_at (lastBackupTimes st1) f t
                     end) as Hdue.
    { intros f t. unfold due_at. destruct (times !! f) as [d|] eqn:Hd.
      - by rewrite (lookup_union_Some_l _ _ _ _ Hd).
      - by rewrite lookup_union_r. }
    assert (∃ r st', startBackupScheduler env 1 st1 = (r, st') ∧
              ∀ f t due, (f, t, due) ∈ evaluations (added st st') →
                due = match times !! f with
                      | Some d => bool_decide (t - d >= cadence_duration f)
                      | None => due_at (lastBackupTimes st1) f t
                      end) as (r & st' & Hsched & Hall).
    { exists (startBackupScheduler env 1 st1).1, (startBackupScheduler env 1 st1).2.
      split; [by destruct (startBackupScheduler env 1 st1)|].
      intros f t due. unfold added. rewrite Htr2, Htr1, <- app_assoc.
      rewrite drop_app_length.
      change (evaluations ((?a :: ?l) ++ ?l')) with (evaluations (l ++ l')).
      rewrite evaluations_app, Hquiet. simpl.
      intros ->%Hdecide. apply Hdue. }
    destruct o; cbn [ending]; try by (exists r, st'; split; [done|]; split).
    eexists _, _. split; [done|]. split; [done|].
    intros f t due. unfold added. rewrite Htr1, drop_app_length.
    change (evaluations (?a :: ?l)) with (evaluations l).
    rewrite Hquiet. by intros ?%elem_of_nil.
Qed.

(** C1: what the entry point does in single-shot mode.  For every
    configuration with [SINGLE_SHOT_MODE] set and in every state, the
    process makes exactly one run of [runBackup], for the 10min cadence,
    after its first console line, never sleeps and never evaluates a
    cadence.  When the run returns, the process logs its last line and
    exits with code 0, however the run ended: the outcome [o] may be a
    success or a failure of the dump, the upload, the cleanup or the local
    deletion.  The run does not return only when the validity check threw
    an exception, which nobody catches: the process then ends on the spot,
    without that last line. *)
Theorem single_shot_exits_0 (ticks : nat) (st : State W) :
  SINGLE_SHOT_MODE env = true →
  let now := (clock (world st)).1 in
  ∃ w evs o,
    start env ticks st
    = (match o with Crashed e => Uncaught e | _ => Exit 0 end,
       mkState w (marked freq_10min now o (lastBackupTimes st))
         (trace st ++
            EvLog "Running on start backup..."
            :: run_events env freq_10min now evs o
            ++ match o with
               | Crashed _ => []
               | _ => [EvLog "Database backup complete, exiting..."]
               end)) ∧
    Forall (before_unlink env freq_10min) evs ∧
    sleeps (run_events env freq_10min now evs o) = [] ∧
    evaluated (run_events env freq_10min now evs o) = [] ∧
    ∀ e, o = Crashed e → thrown_by_check e.
Proof.
  intros Hsingle now.
  pose proof (start_crashes env ticks st) as Hcrash.
  rewrite start_single_shot in * by done.
  destruct (runBackup_run env freq_10min
              (logged "Running on start backup..." st))
    as (w & evs & o & Hevs & Hrun).
  rewrite Hrun in *.
  pose proof (run_events_of_cadence freq_10min now evs o Hevs) as Hall.
  apply of_cadence_quiet in Hall as [Hevaluated Hsleeps].
  exists w, evs, o. split; [|split; [done|split; [done|split; [done|]]]].
  - unfold run_events, logged. subst now.
    destruct o; simpl; do 2 f_equal;
      rewrite <- !app_assoc; simpl; by rewrite <- ?app_assoc, ?app_nil_r.
  - intros e ->. by eapply Hcrash.
Qed.

(** C3, as the code has it: the deletion of the local file is not
    best-effort.  In every run in which the deletion of the local file is
    rejected with [e] (it is only attempted once the dump and the upload
    with its cleanup have succeeded), the error is caught by [runBackup],
    which logs it as a failed backup and returns normally, and the recorded
    times are left as they were: the cadence is not marked. *)
Theorem unlink_failure_fails_run (f : BackupFrequency) (st : State W) path e :
  let st' := (runBackup env f st).2 in
  EvUnlink path (Rejected e) ∈ drop (length (trace st)) (trace st') →
  runBackup env f st = (Ok tt, st') ∧
  lastBackupTimes st' = lastBackupTimes st ∧
  last (trace st') = Some (EvError "Backup failed:" e).
Proof.
  intros st'. subst st'.
  destruct (runBackup_run env f st) as (w & evs & o & Hevs & ->); simpl.
  rewrite drop_app_length, run_events_last.
  unfold run_events. rewrite !elem_of_cons, elem_of_app.
  intros [[=]|[[=]|[Hin|Hin]]].
  - rewrite Forall_forall in Hevs. by destruct (Hevs _ Hin) as [_ []].
  - destruct o; simpl in Hin;
      repeat match goal with
             | H : _ ∈ _ :: _ |- _ => apply elem_of_cons in H as [H|H]
             | H : _ ∈ [] |- _ => by apply elem_of_nil in H
             end; by simplify_eq.
Qed.
End BackupClaims.

Section StoreClaims.
Context {W : Type} `{!Collaborators W} (env : Env).

(** C5: seeding takes the maximum.  Take a store that dates every object
    it lists.  When the scheduler starts it asks the store for one listing
    per cadence, in the order of the table and under the prefix of the
    cadence.  For a cadence whose listing is answered with a non-empty array,
    [getLastBackupTimes] returns, and the scheduler records, a date that is
    the last-modified date of a listed object and that no listed object
    exceeds: the maximum, wherever it stands in the listing.  For a cadence
    whose listing is empty, absent or rejected, [getLastBackupTimes] returns
    nothing and the recorded time of the cadence is left as it was. *)
Theorem seeding_takes_latest (st : State W) :
  (∀ bucket prefix w objs,
      (list_objects bucket prefix w).1 = Resolved (Some objs) →
      Forall dated objs) →
  ∃ answer initialBackupTimes st1 st' evs,
    getLastBackupTimes (AWS_S3_BUCKET env) (key_prefix env)
      (logged "Starting backup scheduler..." st)
    = (Ok initialBackupTimes, st1) ∧
    startBackupScheduler env 0 st = (Pending, st') ∧
    trace st' = trace st ++ evs ∧
    listings evs = listings_asked (key_prefix env) answer ∧
    ∀ f,
      match answer f with
      | Resolved (Some (o :: objs)) =>
          ∃ d, latest d (o :: objs) ∧
               initialBackupTimes !! f = Some d ∧
               lastBackupTimes st' !! f = Some d
      | Resolved (Some []) | Resolved None | Rejected _ =>
          initialBackupTimes !! f = None ∧
          lastBackupTimes st' !! f = lastBackupTimes st !! f
      end.
Proof.
  intros Hstore.
  destruct (startBackupScheduler_seeds env st)
    as (answer & w & evs & Hget & Hstart & Hlist & Hfrom).
  eexists answer, _, _, _, evs.
  split; [exact Hget|]. split; [exact Hstart|]. split; [done|].
  split; [done|]. intros f. simpl.
  pose proof (seeded_all_lookup answer f) as Hlookup.
  destruct (Hfrom f) as [w' Hw'].
  destruct (answer f) as [[[|o objs]|]|e] eqn:Hanswer.
  - split; [done|]. by rewrite lookup_union_r.
  - symmetry in Hw'. apply Hstore in Hw' as Hdated.
    destruct (first_date_latest o objs Hdated) as (d & Hd & Hlatest).
    rewrite Hd in Hlookup.
    exists d. split; [done|]. split; [done|].
    by apply lookup_union_Some_l.
  - split; [done|]. by rewrite lookup_union_r.
  - split; [done|]. by rewrite lookup_union_r.
Qed.
End StoreClaims.

Section RetentionClaims.
Context {W : Type} `{!Collaborators W} (env : Env).

(** C7, as the code has it: a cleanup pass keeps the newest [N] objects
    and requests the deletion of those of the rest that have a usable key,
    until the store rejects one.  Take a pass with retention count [N] whose
    listing is answered with [M > N] objects.  The objects are ordered by
    last-modified time, newest first (a permutation of the listing in which
    no object is older than one that follows it, an object without a date
    counting as dated at time 0); the first [N] are kept and the [M - N]
    remaining ones, none of which is newer than a kept one, are the objects
    to delete.  The pass goes through them in order, passes over those
    whose key is missing or empty and requests the deletion of the others;
    it returns when it has gone through all of them, and it throws at the
    first deletion that the store rejects, having requested nothing for the
    objects after that one.  So deletion is requested for exactly the
    [M - N] remaining objects when all of them have a usable key and the
    pass returns, which it does on a store that rejects no deletion. *)
Theorem cleanup_deletes_oldest bucket prefix f contents w (st : State W) :
  list_objects bucket (listing_prefix prefix f) (world st)
    = (Resolved (Some contents), w) →
  0 <= BACKUP_RETENTION_COUNT env < Z.of_nat (length contents) →
  let sortedObjects := array_sort newest_first contents in
  let N := Z.to_nat (BACKUP_RETENTION_COUNT env) in
  let excess := drop N sortedObjects in
  ∃ r st' evs,
    cleanupOldBackups env bucket prefix f st = (r, st') ∧
    trace st' = trace st ++ evs ∧
    sortedObjects ≡ₚ contents ∧
    StronglySorted newer_or_equal sortedObjects ∧
    length excess = (length contents - N)%nat ∧
    (∀ kept gone,
        kept ∈ take N sortedObjects → gone ∈ excess →
        newer_or_equal kept gone) ∧
    match r with
    | Ok _ => deletions evs = candidate_keys excess
    | Throw e =>
        ∃ pre o key post,
          excess = pre ++ o :: post ∧ candidate_key o = Some key ∧
          deletions evs = candidate_keys pre ++ [key] ∧
          last evs = Some (EvDelete bucket key (Rejected e))
    | _ => False
    end ∧
    ((∀ key w, ∃ w', delete_object bucket key w = (Resolved tt, w')) →
     r = Ok tt) ∧
    (Forall keyed excess → r = Ok tt →
     deletions evs = key_of <$> excess ∧
     length (deletions evs) = (length contents - N)%nat).
Proof.
  intros Hlist Hcount sortedObjects N excess. subst sortedObjects excess.
  rewrite (cleanupOldBackups_listed env _ _ _ _ _ _ Hlist).
  assert (objectsToDelete env contents
          = drop N (array_sort newest_first contents)) as Hexcess.
  { unfold objectsToDelete. by rewrite array_slice_drop by lia. }
  rewrite Hexcess. set (st0 := mkState _ _ _).
  destruct (delete_loop_trace bucket (drop N (array_sort newest_first contents)) st0)
    as (r & w' & evs & Hloop & Htrace).
  apply delete_trace_deletions in Htrace as (_ & _ & Hdels).
  assert (length (drop N (array_sort newest_first contents))
          = (length contents - N)%nat) as Hlength
    by by rewrite length_drop, array_sort_length.
  eexists r, _,
    (EvLog ("Cleaning up old " +:+ frequency_name f +:+ " backups...")
     :: EvList bucket (listing_prefix prefix f) (Resolved (Some contents))
     :: evs).
  split; [exact Hloop|].
  split; [unfold st0; simpl; by rewrite <- app_assoc|].
  split; [apply array_sort_perm|].
  split; [apply array_sort_newest_first|].
  split; [done|]. split; [|split; [|split]].
  - intros kept gone Hkept Hgone.
    eapply (StronglySorted_app_1_elem_of _
              (take N (array_sort newest_first contents))
              (drop N (array_sort newest_first contents))); [|done..].
    rewrite take_drop. apply array_sort_newest_first.
  - change (deletions (?a :: ?b :: ?l)) with (deletions l).
    destruct r as [[]|e| | |]; try done.
    destruct Hdels as (pre & o & key & post & evs' & Hsplit & Hkey & Hdels & ->).
    exists pre, o, key, post. repeat (split; [done|]).
    by rewrite !app_comm_cons, last_snoc.
  - intros Hok.
    destruct (delete_loop_returns bucket
                (drop N (array_sort newest_first contents)) st0)
      as [st' Hret]; [intros; apply Hok|].
    rewrite Hloop in Hret. by injection Hret as ->.
  - intros Hkeyed ->.
    change (deletions (?a :: ?b :: ?l)) with (deletions l).
    assert (deletions evs
            = key_of <$> drop N (array_sort newest_first contents)) as ->.
    { rewrite Hdels. by apply candidate_keys_keyed. }
    split; [done|]. by rewrite length_fmap.
Qed.

(** C2, as the code has it: a rejected deletion ends the pass.  Take a
    pass whose objects to delete are [pre ++ o :: post], on a store that
    accepts the deletion of the candidates of [pre] and rejects that of
    [o] with [e].  The pass throws [e] to its caller; deletion has been
    requested for the candidates of [pre] and for [o], in order, and for
    nothing else: for no object of [post]. *)
Theorem delete_failure_ends_pass bucket prefix f contents w pre o post key e
    (st : State W) :
  list_objects bucket (listing_prefix prefix f) (world st)
    = (Resolved (Some contents), w) →
  objectsToDelete env contents = pre ++ o :: post →
  (∀ k, k ∈ candidate_keys pre →
        ∀ w, ∃ w', delete_object bucket k w = (Resolved tt, w')) →
  candidate_key o = Some key →
  (∀ w, ∃ w', delete_object bucket key w = (Rejected e, w')) →
  ∃ st' evs,
    cleanupOldBackups env bucket prefix f st = (Throw e, st') ∧
    trace st' = trace st ++ evs ∧
    deletions evs = candidate_keys pre ++ [key] ∧
    lastBackupTimes st' = lastBackupTimes st.
Proof.
  intros Hlist Hexcess Hpre Hkey Hfail.
  rewrite (cleanupOldBackups_listed env _ _ _ _ _ _ Hlist), Hexcess.
  set (st0 := mkState _ _ _).
  destruct (delete_loop_returns bucket pre st0 Hpre) as [st1 Hloop].
  destruct (delete_loop_returned _ _ _ _ Hloop) as (evs & Htr & Hlbt & Hdels).
  destruct (Hfail (world st1)) as [w2 Hdel].
  rewrite for_of_app. erewrite bind_ok by exact Hloop. simpl.
  erewrite bind_throw by by eapply deleteObject_rejected.
  eexists _,
    (EvLog ("Cleaning up old " +:+ frequency_name f +:+ " backups...")
     :: EvList bucket (listing_prefix prefix f) (Resolved (Some contents))
     :: evs ++ [EvDelete bucket key (Rejected e)]).
  split; [done|]. simpl.
  split; [rewrite Htr; unfold st0; simpl; by rewrite <- !app_assoc|].
  split; [|done].
  change (deletions (?a :: ?b :: ?l)) with (deletions l).
  by rewrite deletions_app, Hdels.
Qed.
End RetentionClaims.

(** * Concrete runs *)

Example replace_runs_iso :
  replace_runs false "2025-01-01T00:00:00.000Z" = "2025-01-01T00-00-00-000Z".
Proof. reflexivity. Qed.

Example replace_runs_collapses : replace_runs false "a:.:b..c" = "a-b-c".
Proof. reflexivity. Qed.

Example array_sort_is_stable :
  array_sort newest_first [obj "x" 1; obj "y" 2; obj "z" 1; obj "w" 2]
  = [obj "y" 2; obj "w" 2; obj "x" 1; obj "z" 1].
Proof. reflexivity. Qed.

Example array_slice_negative : array_slice (-1) [1; 2; 3] = [3].
Proof. reflexivity. Qed.

(** Seeding from a listing whose newest object is neither first nor last. *)
Lemma seeding_takes_latest_witness :
  ∃ st',
    @startBackupScheduler Z (scripted (healthy three_objects)) test_env 0
      (initial_state 5000) = (Pending, st') ∧
    lastBackupTimes st' !! hourly = Some 3000.
Proof.
  destruct (@seeding_takes_latest Z (scripted (healthy three_objects)) test_env
              (initial_state 5000))
    as (answer & initialBackupTimes & st1 & st' & evs
        & _ & Hstart & Htrace & Hlistings & Hseeded).
  - intros bucket prefix w objs [= <-]. repeat constructor; by eexists.
  - exists st'. split; [exact Hstart|].
    vm_compute in Hstart. injection Hstart as <-.
    simpl in Htrace. subst evs.
    vm_compute in Hlistings. injection Hlistings as _ _ Hhourly _.
    specialize (Hseeded hourly). rewrite <- Hhourly in Hseeded.
    destruct Hseeded as (d & [(o & Hin & Hd) Hmax] & _ & ->).
    f_equal. apply Z.le_antisymm.
    + apply list_elem_of_In in Hin.
      destruct Hin as [<-|[<-|[<-|[]]]]; injection Hd as <-; lia.
    + apply (Hmax (obj "db/hourly/c" 3000)); [|done].
      apply list_elem_of_In. right; left; reflexivity.
Defined.

Example seeding_example :
  lastBackupTimes
    (@startBackupScheduler Z (scripted (healthy three_objects)) test_env 0
       (initial_state 5000)).2
  = {[ weekly := 3000; daily := 3000; hourly := 3000; freq_10min := 3000 ]}.
Proof. apply map_eq. intros []; vm_compute; reflexivity. Qed.

(** C4, refuted as stated: a run of the 10min cadence that starts at 5000
    and whose dump takes eleven minutes succeeds and completes at 665000;
    the cadence is recorded at 5000, and [shouldRunBackup] evaluated at the
    instant of completion returns true. *)
Lemma due_again_at_completion :
  let run :=
    @runBackup Z (scripted slow_dump) test_env freq_10min (initial_state 5000) in
  let st' := run.2 in
  run.1 = Ok tt ∧
  last (trace st') = Some (EvLog "DB backup complete (10min backup)...") ∧
  lastBackupTimes st' !! freq_10min = Some 5000 ∧
  (@clock Z (scripted slow_dump) (world st')).1 = 665000 ∧
  @shouldRunBackup Z freq_10min 665000 st' = (Ok true, st').
Proof. vm_compute. by repeat split. Qed.

(** A healthy run of the hourly cadence that started at 5000 is not due at
    5000, the instant at which it also completes when nothing takes
    time. *)
Lemma due_after_success_from_start_witness :
  let st' :=
    (@runBackup Z (scripted (healthy three_objects)) test_env hourly
       (initial_state 5000)).2 in
  lastBackupTimes st' !! hourly = Some 5000 ∧
  @shouldRunBackup Z hourly 5000 st' = (Ok false, st').
Proof.
  assert (last (trace (@runBackup Z (scripted (healthy three_objects)) test_env
                         hourly (initial_state 5000)).2)
          = Some (EvLog ("DB backup complete (" +:+ frequency_name hourly
                           +:+ " backup)..."))) as Hlast
    by (vm_compute; reflexivity).
  destruct (@due_after_success_from_start Z (scripted (healthy three_objects))
              test_env hourly (initial_state 5000) Hlast)
    as (_ & Hrecorded & Hnot & _).
  split; [exact Hrecorded|exact Hnot].
Defined.

(** C8 at the failing input: the dump of the weekly run resolves and the
    command of the validity check cannot be run.  The exception is the one
    the check threw; the iteration ends with it, the daily, hourly and 10min
    cadences are not evaluated, and nothing is recorded. *)
Lemma rejections_contained_exceptions_not_witness :
  let boom := "Error: spawnSync /bin/sh ENOMEM" in
  let run := @tick Z (scripted throwing_check) test_env (initial_state 5000) in
  run.1 = Uncaught boom ∧
  @thrown_by_check Z (scripted throwing_check) boom ∧
  evaluated (trace run.2) = [weekly] ∧
  lastBackupTimes run.2 !! weekly = None.
Proof.
  destruct (@rejections_contained_exceptions_not Z (scripted throwing_check)
              test_env) as (_ & _ & Htick & _).
  destruct (Htick (initial_state 5000)) as (r & st' & evs & Hrun & Htrace & Hr).
  rewrite Hrun. vm_compute in Hrun. injection Hrun as <- <-.
  destruct Hr as (Hthrown & _). split; [reflexivity|].
  split; [exact Hthrown|]. split; reflexivity.
Defined.

(** The whole of a single-shot run whose validity check throws: the
    process ends with the uncaught exception, exit code 1, without the
    lines of a failed backup and of the exit. *)
Example single_shot_uncaught_check :
  let run :=
    @start Z (scripted throwing_check) single_shot_env 0 (initial_state 5000) in
  run
  = (Uncaught "Error: spawnSync /bin/sh ENOMEM",
     mkState 5000 ∅
       [ EvLog "Running on start backup...";
         EvLog "Initiating 10min backup...";
         EvNow 5000;
         EvLog "Dumping DB to file...";
         EvExec archive (Resolved "");
         EvUncaught "Error: spawnSync /bin/sh ENOMEM" ]) ∧
  exit_code run.1 = Some 1.
Proof. vm_compute. by split. Qed.

(** The archive is valid but cannot be examined: the scheduler ends with
    the exception in its first run, after the validity line. *)
Example scheduler_uncaught_stat :
  let run :=
    @start Z (scripted vanished_archive) test_env 3 (initial_state 5000) in
  run.1 = Uncaught "Error: ENOENT: no such file or directory, stat" ∧
  evaluated (trace run.2) = [weekly] ∧
  gzip_checks (trace run.2) = [(archive, 1)] ∧
  uploads (trace run.2) = [] ∧
  last (trace run.2)
  = Some (EvUncaught "Error: ENOENT: no such file or directory, stat").
Proof. vm_compute. by repeat split. Qed.

(** C10, refuted as stated: a startup run that succeeded does not suppress
    the 10min trigger of the first iteration.
    (1) On a store whose newest object under every prefix is dated 3000, the
    startup run starts at 1000000 and succeeds, and 1000000 is recorded for
    the 10min cadence; the seeding replaces it by 3000; the first iteration
    evaluates the 10min cadence at 1020000, twenty seconds after the startup
    run, and triggers it.
    (2) On a machine whose store is empty at first and remembers what is
    uploaded, and where a dump takes four minutes, the startup run starts
    at 1000000 and succeeds; the seeding finds its object, dated 1240000,
    under the 10min prefix and nothing under the others; the first
    iteration runs the weekly, daily and hourly cadences and then evaluates
    the 10min cadence at 1980000, and triggers it. *)
Lemma startup_run_does_not_suppress :
  (let startup :=
     @runBackup Z (scripted (healthy three_objects)) run_on_startup_env
       freq_10min (logged "Running on start backup..." (initial_state 1000000)) in
   let run :=
     @start Z (scripted (healthy three_objects)) run_on_startup_env 1
       (initial_state 1000000) in
   startup.1 = Ok tt ∧
   last (trace startup.2) = Some (EvLog "DB backup complete (10min backup)...") ∧
   lastBackupTimes startup.2 !! freq_10min = Some 1000000 ∧
   run.1 = Pending ∧
   evaluations (trace run.2)
   = [ (weekly, 1020000, false); (daily, 1020000, false);
       (hourly, 1020000, false); (freq_10min, 1020000, true) ] ∧
   length (dumps (trace run.2)) = 2%nat) ∧
  (let startup :=
     @runBackup Machine (remembering (4 * 60 * 1000)) run_on_startup_env
       freq_10min (logged "Running on start backup..." (fresh_machine 1000000)) in
   let run :=
     @start Machine (remembering (4 * 60 * 1000)) run_on_startup_env 1
       (fresh_machine 1000000) in
   startup.1 = Ok tt ∧
   last (trace startup.2) = Some (EvLog "DB backup complete (10min backup)...") ∧
   lastBackupTimes startup.2 !! freq_10min = Some 1000000 ∧
   run.1 = Pending ∧
   evaluations (trace run.2)
   = [ (weekly, 1260000, true); (daily, 1500000, true);
       (hourly, 1740000, true); (freq_10min, 1980000, true) ] ∧
   length (dumps (trace run.2)) = 5%nat).
Proof. split; vm_compute; by repeat split. Qed.

(** The first of these runs, through the amended statement: the date the
    seeding returned for the 10min cadence, 3000, decides. *)
Lemma backup_runs_as_10min_witness :
  let decisions :=
    evaluations
      (added (initial_state 1000000)
         (@start Z (scripted (healthy three_objects)) run_on_startup_env 1
            (initial_state 1000000)).2) in
  (freq_10min, 1020000, true) ∈ decisions ∧
  (freq_10min, 1020000, false) ∉ decisions.
Proof.
  split.
  - apply list_elem_of_In. vm_compute. do 3 right. left. reflexivity.
  - intros Hin.
    destruct (@backup_runs_as_10min Z (scripted (healthy three_objects))
                run_on_startup_env (initial_state 1000000)) as [_ Hstartup].
    destruct (Hstartup eq_refl eq_refl)
      as (times & st2 & r & st' & Hget & Hstart & Hdecide).
    rewrite Hstart in Hin. apply Hdecide in Hin.
    vm_compute in Hget. injection Hget as <- _. discriminate Hin.
Defined.

(** In single-shot mode a failed dump still ends in exit code 0. *)
Lemma single_shot_exits_0_witness :
  (@start Z (scripted failing_dump) single_shot_env 0 (initial_state 5000)).1
  = Exit 0.
Proof.
  destruct (@single_shot_exits_0 Z (scripted failing_dump) single_shot_env 0
              (initial_state 5000) eq_refl) as (w & evs & o & Hstart & _).
  destruct o; try (rewrite Hstart; reflexivity).
  vm_compute in Hstart. discriminate Hstart.
Defined.

(** The whole of a single-shot run whose dump fails. *)
Example single_shot_failed_dump :
  @start Z (scripted failing_dump) single_shot_env 0 (initial_state 5000)
  = (Exit 0,
     mkState 5000 ∅
       [ EvLog "Running on start backup...";
         EvLog "Initiating 10min backup...";
         EvNow 5000;
         EvLog "Dumping DB to file...";
         EvExec archive (Rejected "pg_dump: error: connection to server failed");
         EvError "Backup failed:" "pg_dump: error: connection to server failed";
         EvLog "Database backup complete, exiting..." ]).
Proof. vm_compute. reflexivity. Qed.

(** C3, refuted as stated: a run whose dump and upload succeeded and whose
    local file could not be deleted does not record the cadence. *)
Lemma unlink_failure_not_best_effort :
  let st' :=
    (@runBackup Z (scripted failing_unlink) test_env hourly
       (initial_state 5000)).2 in
  dumps (trace st') = [archive] ∧
  uploads (trace st')
    = [("db/hourly/backup-2025-01-01T00-00-00-000Z.tar.gz", Resolved tt)] ∧
  unlinks (trace st') = [(archive, Rejected "EACCES: permission denied")] ∧
  last (trace st')
    = Some (EvError "Backup failed:" "EACCES: permission denied") ∧
  lastBackupTimes st' !! hourly = None ∧
  lastBackupTimes st' !! hourly ≠ Some 5000.
Proof. vm_compute. repeat split; discriminate. Qed.

(** The same run, through the amended statement. *)
Lemma unlink_failure_fails_run_witness :
  let st' :=
    (@runBackup Z (scripted failing_unlink) test_env hourly
       (initial_state 5000)).2 in
  lastBackupTimes st' = ∅ ∧
  last (trace st') = Some (EvError "Backup failed:" "EACCES: permission denied").
Proof.
  assert (EvUnlink archive (Rejected "EACCES: permission denied")
          ∈ drop (length (trace (initial_state 5000)))
                 (trace (@runBackup Z (scripted failing_unlink) test_env hourly
                           (initial_state 5000)).2)) as Hin.
  { apply list_elem_of_In. vm_compute.
    repeat first [left; reflexivity | right]. }
  destruct (@unlink_failure_fails_run Z (scripted failing_unlink) test_env
              hourly (initial_state 5000) _ _ Hin) as (_ & Htimes & Hlast).
  split; [exact Htimes|exact Hlast].
Defined.

Lemma keyed_obj key t : key ≠ "" → keyed (obj key t).
Proof. intros Hne. by exists key. Qed.

(** C7, refuted as stated: fewer deletions than excess objects.  With a
    retention count of two and five listed objects, three are to delete, but
    two of them have no usable key and deletion is requested for one only;
    with a retention count of one and four listed objects, three are to
    delete, but the store rejects the second deletion and the third is never
    requested. *)
Lemma cleanup_requests_fewer_deletions :
  let pass1 :=
    @cleanupOldBackups Z (scripted (healthy keyless_objects)) test_env
      "bucket" "db/" hourly (initial_state 5000) in
  let pass2 :=
    @cleanupOldBackups Z (scripted failing_delete) retain_one_env
      "bucket" "db/" hourly (initial_state 5000) in
  (length keyless_objects = 5%nat ∧ BACKUP_RETENTION_COUNT test_env = 2 ∧
   pass1.1 = Ok tt ∧ deletions (trace pass1.2) = ["db/hourly/e"]) ∧
  (length four_objects = 4%nat ∧ BACKUP_RETENTION_COUNT retain_one_env = 1 ∧
   pass2.1 = Throw "AccessDenied" ∧
   deletions (trace pass2.2) = ["db/hourly/c"; "db/hourly/b"]).
Proof. vm_compute. by repeat split. Qed.

(** With three objects and a retention count of two, the oldest goes. *)
Lemma cleanup_deletes_oldest_witness :
  ∃ st' evs,
    @cleanupOldBackups Z (scripted (healthy three_objects)) test_env
      "bucket" "db/" hourly (initial_state 5000) = (Ok tt, st') ∧
    trace st' = evs ∧
    deletions evs = ["db/hourly/a"].
Proof.
  destruct (@cleanup_deletes_oldest Z (scripted (healthy three_objects))
              test_env "bucket" "db/" hourly three_objects 5000
              (initial_state 5000))
    as (r & st' & evs & Hrun & Htrace & _ & _ & _ & _ & _ & Hreturns & Hexactly).
  - reflexivity.
  - simpl. lia.
  - assert (r = Ok tt) as -> by (apply Hreturns; intros key w; by exists w).
    exists st', evs. split; [exact Hrun|]. split; [exact Htrace|].
    apply Hexactly; [|done]. repeat constructor; by apply keyed_obj.
Defined.

(** C2, refuted as stated: with a retention count of one the objects to
    delete are [c], [b] and [a]; the store would delete [a], but the
    rejection of [b] ends the pass and the deletion of [a] is never
    requested. *)
Lemma delete_failure_blocks_rest :
  let run :=
    @cleanupOldBackups Z (scripted failing_delete) retain_one_env
      "bucket" "db/" hourly (initial_state 5000) in
  objectsToDelete retain_one_env four_objects
    = [obj "db/hourly/c" 3000; obj "db/hourly/b" 2000; obj "db/hourly/a" 1000] ∧
  script_delete failing_delete "db/hourly/a" = Resolved tt ∧
  run.1 = Throw "AccessDenied" ∧
  deletions (trace run.2) = ["db/hourly/c"; "db/hourly/b"] ∧
  "db/hourly/a" ∉ deletions (trace run.2).
Proof.
  vm_compute. repeat split.
  intros Hin. apply list_elem_of_In in Hin. vm_compute in Hin.
  destruct Hin as [Hin|[Hin|[]]]; discriminate Hin.
Qed.

(** The same pass, through the amended statement: [pre] is [c], the
    rejected object is [b], and [post] is [a]. *)
Lemma delete_failure_ends_pass_witness :
  ∃ st' evs,
    @cleanupOldBackups Z (scripted failing_delete) retain_one_env
      "bucket" "db/" hourly (initial_state 5000) = (Throw "AccessDenied", st') ∧
    trace st' = evs ∧
    deletions evs = ["db/hourly/c"; "db/hourly/b"].
Proof.
  destruct (@delete_failure_ends_pass Z (scripted failing_delete)
              retain_one_env "bucket" "db/" hourly four_objects 5000
              [obj "db/hourly/c" 3000] (obj "db/hourly/b" 2000)
              [obj "db/hourly/a" 1000] "db/hourly/b" "AccessDenied"
              (initial_state 5000))
    as (st' & evs & Hrun & Htrace & Hdeletions & _).
  - reflexivity.
  - reflexivity.
  - intros k Hk w. apply list_elem_of_In in Hk. vm_compute in Hk.
    destruct Hk as [<-|[]]. by exists w.
  - reflexivity.
  - intros w. by exists w.
  - exists st', evs. split; [exact Hrun|]. split; [exact Htrace|].
    exact Hdeletions.
Defined.

(** * Further properties *)

(** ** The alignment of the loop *)

(** X1: the alignment wait.  Whatever the instant [now], the wait computed
    by the scheduler is more than nothing and at most a minute, and it ends
    on a minute boundary: at a boundary the loop waits a whole minute, not
    zero. *)
Theorem waitMs_reaches_minute (now : Z) :
  0 < waitMs now <= 60 * 1000 ∧ (now + waitMs now) `mod` (60 * 1000) = 0.
Proof.
  unfold waitMs, getSeconds, getMilliseconds.
  pose proof (Z.div_mod now 1000 ltac:(lia)) as Hms.
  pose proof (Z.mod_pos_bound now 1000 ltac:(lia)) as Hms_bound.
  pose proof (Z.div_mod (now `div` 1000) 60 ltac:(lia)) as Hs.
  pose proof (Z.mod_pos_bound (now `div` 1000) 60 ltac:(lia)) as Hs_bound.
  split; [lia|].
  replace (now + ((60 - (now `div` 1000) `mod` 60) * 1000 - now `mod` 1000))
    with (((now `div` 1000) `div` 60 + 1) * (60 * 1000)) by lia.
  apply Z.mod_mul. lia.
Qed.

(** ** The timestamp in the file name *)

Lemma replace_runs_chars (in_run : bool) (s : string) :
  (∀ c, In c (list_ascii_of_string (replace_runs in_run s)) →
        c ≠ ":"%char ∧ c ≠ "."%char) ∧
  (String.length (replace_runs in_run s) <= String.length s)%nat.
Proof.
  revert in_run. induction s as [|c s IH]; intros in_run; simpl.
  - split; [intros c []|lia].
  - destruct (colon_or_period c) eqn:Hc.
    + destruct in_run; simpl.
      * destruct (IH true) as [Hchars Hlen]. split; [done|lia].
      * destruct (IH true) as [Hchars Hlen]. split; [|lia].
        intros c' [<-|Hin]; [by split|by apply Hchars].
    + simpl. destruct (IH false) as [Hchars Hlen]. split; [|lia].
      intros c' [<-|Hin]; [|by apply Hchars].
      unfold colon_or_period in Hc. apply orb_false_elim in Hc as [H1 H2].
      apply bool_decide_eq_false in H1, H2. done.
Qed.

(** X3: the replacement leaves no colon and no period.  Whatever string the
    date is printed as, no character of the result is a colon or a period,
    and the result is not longer than the string. *)
Theorem replace_runs_safe (in_run : bool) (s : string) :
  (∀ c, In c (list_ascii_of_string (replace_runs in_run s)) →
        c ≠ ":"%char ∧ c ≠ "."%char) ∧
  (String.length (replace_runs in_run s) <= String.length s)%nat.
Proof. apply replace_runs_chars. Qed.

Lemma replace_runs_clean (in_run : bool) (s : string) :
  (∀ c, In c (list_ascii_of_string s) → colon_or_period c = false) →
  replace_runs in_run s = s.
Proof.
  revert in_run. induction s as [|c s IH]; intros in_run Hclean; simpl; [done|].
  rewrite (Hclean c) by by left.
  f_equal. apply IH. intros c' Hin. apply Hclean. by right.
Qed.

(** X4: the replacement is idempotent.  Replacing again in a string that
    was already treated changes nothing. *)
Theorem replace_runs_idempotent (s : string) :
  replace_runs false (replace_runs false s) = replace_runs false s.
Proof.
  apply replace_runs_clean. intros c Hin.
  destruct (replace_runs_chars false s) as [Hsafe _].
  destruct (Hsafe c Hin) as [H1 H2].
  unfold colon_or_period. by rewrite !bool_decide_eq_false_2.
Qed.

(** ** Stability of the sort *)

Lemma sort_insert_stable (t : Z) (x : S3Object) (l : list S3Object) :
  filter (λ o, time_or_0 o = t) (sort_insert newest_first x l)
  = filter (λ o, time_or_0 o = t) (x :: l).
Proof.
  induction l as [|y l IH]; simpl; [done|].
  destruct (Z.leb_spec (newest_first x y) 0) as [Hle|Hgt]; [done|].
  rewrite filter_cons, IH, !filter_cons.
  unfold newest_first in Hgt.
  repeat case_decide; try done; lia.
Qed.

(** X5: objects with the same last-modified time keep the order of the
    listing.  For every time [t], the objects of time [t] stand in the
    sorted array in the order in which the store listed them; so among
    objects of equal time the retention keeps those listed first. *)
Theorem array_sort_stable (t : Z) (l : list S3Object) :
  filter (λ o, time_or_0 o = t) (array_sort newest_first l)
  = filter (λ o, time_or_0 o = t) l.
Proof.
  induction l as [|x l IH]; [done|].
  change (array_sort newest_first (x :: l))
    with (sort_insert newest_first x (array_sort newest_first l)).
  by rewrite sort_insert_stable, !filter_cons, IH.
Qed.


(** ** Properties of a run *)

Section RunProperties.
Context {W : Type} `{!Collaborators W} (env : Env).

(** X6: nothing leaves the machine before the archive is validated.  Every
    run of [runBackup] starts exactly one dump, to
    [<tmpdir>/<prefix>-<timestamp>.tar.gz].  Unless the validity check of
    that archive read exactly one byte, the run hashes nothing, uploads
    nothing, asks the store for no listing and no deletion, does not try to
    delete the local file, and records no time. *)
Theorem run_needs_valid_archive (f : BackupFrequency) (st : State W) :
  let now := (clock (world st)).1 in
  let st' := (runBackup env f st).2 in
  let evs := added st st' in
  dumps evs = [filepath_at env now] ∧
  (gzip_checks evs = [(filepath_at env now, 1)] ∨
   (md5s evs = [] ∧ uploads evs = [] ∧ listings evs = [] ∧
    deletions evs = [] ∧ unlinks evs = [] ∧
    lastBackupTimes st' = lastBackupTimes st)).
Proof.
  intros now st' evs. subst now st' evs.
  destruct (runBackup_added env f st) as (o & _ & -> & Hrun & _).
  destruct (run_trace_summary env _ _ _ _ Hrun) as (Hdumps & Hcases).
  split; [done|].
  destruct Hcases as [(e & -> & _ & ? & ? & ? & ? & _ & ?)|Hcases];
    [right; by repeat split|].
  destruct Hcases as [(e & _ & ? & _)|[(e & _ & ? & _)|[(e & _ & ? & _)
                     |[(e & _ & ? & _)|[(_ & ? & _)|Hcrashed]]]]];
    try by left.
  destruct Hcrashed as (e & -> & _ & ? & ? & ? & ? & _ & ?).
  right. by repeat split.
Qed.

(** X7: what is uploaded is what was dumped.  A run uploads at most once;
    an upload goes to the configured bucket, under the key
    [<subfolder>/<cadence>/<prefix>-<timestamp>.tar.gz], and sends the very
    file the run dumped. *)
Theorem run_uploads_its_archive (f : BackupFrequency) (st : State W) :
  let now := (clock (world st)).1 in
  let evs := added st (runBackup env f st).2 in
  (length (uploads evs) <= 1)%nat ∧
  ∀ bucket key path md5 res,
    EvUpload bucket key path md5 res ∈ evs →
    bucket = AWS_S3_BUCKET env ∧ key = key_at env f now ∧
    path = filepath_at env now ∧ dumps evs = [path].
Proof.
  intros now evs. subst now evs.
  destruct (runBackup_added env f st) as (o & _ & _ & Hrun & _).
  destruct (run_trace_summary env _ _ _ _ Hrun) as (Hdumps & Hcases).
  split.
  - destruct Hcases as [(e & _ & _ & _ & -> & _)|[(e & _ & _ & _ & -> & _)
                       |[(e & _ & _ & -> & _)|[(e & _ & _ & -> & _)
                       |[(e & _ & _ & -> & _)|[(_ & _ & -> & _)
                       |(e & _ & _ & _ & -> & _)]]]]]];
      simpl; lia.
  - intros bucket key path md5 res Hin.
    destruct (run_trace_upload_event env _ _ _ _ _ _ _ _ _ Hrun Hin)
      as (-> & -> & -> & _).
    done.
Qed.

(** X8: the digest goes with object lock.  Without [SUPPORT_OBJECT_LOCK]
    an upload carries no digest and the run hashes nothing.  With it, an
    upload carries the base64 form of the hash of the archive, computed in
    the same run; in particular a run whose hashing was rejected uploads
    nothing. *)
Theorem upload_digest_follows_object_lock (f : BackupFrequency) (st : State W) :
  let now := (clock (world st)).1 in
  let evs := added st (runBackup env f st).2 in
  ∀ bucket key path md5 res,
    EvUpload bucket key path md5 res ∈ evs →
    if SUPPORT_OBJECT_LOCK env
    then ∃ h, md5 = Some (hex_to_base64 h) ∧
              md5s evs = [(filepath_at env now, Resolved h)]
    else md5 = None ∧ md5s evs = [].
Proof.
  intros now evs bucket key path md5 res Hin. subst now evs.
  destruct (runBackup_added env f st) as (o & _ & _ & Hrun & _).
  destruct (run_trace_upload_event env _ _ _ _ _ _ _ _ _ Hrun Hin)
    as (_ & _ & _ & [(-> & Hmd5)|(-> & Hmd5)]); done.
Qed.

(** X9: a rejected upload.  When the upload of a run is rejected with [e],
    the run fails with [e]: no time is recorded, the retention cleanup does
    not run (no listing, no deletion), and the local archive is not deleted:
    it stays in the temporary directory. *)
Theorem rejected_upload_keeps_archive (f : BackupFrequency) (st : State W) key e :
  let now := (clock (world st)).1 in
  let st' := (runBackup env f st).2 in
  let evs := added st st' in
  (key, Rejected e) ∈ uploads evs →
  key = key_at env f now ∧
  lastBackupTimes st' = lastBackupTimes st ∧
  listings evs = [] ∧ deletions evs = [] ∧ unlinks evs = [] ∧
  last (trace st') = Some (EvError "Backup failed:" e).
Proof.
  intros now st' evs. subst now st' evs.
  destruct (runBackup_added env f st) as (o & _ & -> & Hrun & ->).
  destruct (run_trace_summary env _ _ _ _ Hrun) as (_ & Hcases).
  destruct Hcases as [(e' & -> & _ & _ & -> & _)|[(e' & -> & _ & _ & -> & _)
                     |[(e' & -> & _ & -> & ? & ? & _ & ?)|[(e' & -> & _ & -> & _)
                     |[(e' & -> & _ & -> & _)|[(-> & _ & -> & _)
                     |(e' & -> & _ & _ & -> & _)]]]]]];
    intros Hin; try (by apply elem_of_nil in Hin);
    apply list_elem_of_singleton in Hin; by simplify_eq.
Qed.

(** X10: a failed cleanup.  When the store rejects the listing or a
    deletion of the cleanup with [e], the run fails with [e] although its
    upload resolved: the object is in the store, but no time is recorded (the
    cadence stays due and the next tick uploads again) and the local archive
    is not deleted. *)
Theorem failed_cleanup_fails_run (f : BackupFrequency) (st : State W) e :
  let now := (clock (world st)).1 in
  let st' := (runBackup env f st).2 in
  let evs := added st st' in
  e ∈ store_rejections evs →
  uploads evs = [(key_at env f now, Resolved tt)] ∧
  lastBackupTimes st' = lastBackupTimes st ∧
  unlinks evs = [] ∧
  last (trace st') = Some (EvError "Backup failed:" e).
Proof.
  intros now st' evs. subst now st' evs.
  destruct (runBackup_added env f st) as (o & _ & -> & Hrun & ->).
  destruct (run_trace_summary env _ _ _ _ Hrun) as (_ & Hcases).
  destruct Hcases
    as [(e' & -> & _ & _ & _ & _ & _ & -> & _)
       |[(e' & -> & _ & _ & _ & _ & _ & -> & _)
       |[(e' & -> & _ & _ & _ & _ & -> & _)
       |[(e' & -> & _ & -> & -> & ->)
       |[(e' & -> & _ & _ & -> & _)|[(-> & _ & _ & -> & _)
       |(e' & -> & _ & _ & _ & _ & _ & -> & _)]]]]]];
    intros Hin; try (by apply elem_of_nil in Hin).
  apply list_elem_of_singleton in Hin. by subst.
Qed.

(** X19: a run that ends in an uncaught exception.  [runBackup] fails to
    return only with an exception that [execSync] or [statSync] threw in
    the validity check, after a dump that resolved: no promise was rejected
    in the run, nothing was hashed or uploaded, the store was not asked for
    anything, the local archive is not deleted, no time is recorded, and
    the last thing in the trace is the runtime's report: the line of a
    failed backup is not logged. *)
Theorem crashed_run_leaves_archive (f : BackupFrequency) (st : State W) e :
  let now := (clock (world st)).1 in
  let st' := (runBackup env f st).2 in
  let evs := added st st' in
  (runBackup env f st).1 = Uncaught e →
  thrown_by_check e ∧
  (∃ stderr, EvExec (filepath_at env now) (Resolved stderr) ∈ evs) ∧
  dumps evs = [filepath_at env now] ∧ rejections evs = [] ∧
  md5s evs = [] ∧ uploads evs = [] ∧ listings evs = [] ∧
  deletions evs = [] ∧ unlinks evs = [] ∧
  lastBackupTimes st' = lastBackupTimes st ∧
  last (trace st') = Some (EvUncaught e).
Proof.
  intros now st' evs. subst now st' evs. intros Hended.
  assert (thrown_by_check e) as Hthrown.
  { apply (runBackup_crashes env f st e (runBackup env f st).2).
    rewrite <- Hended. by destruct (runBackup env f st). }
  destruct (runBackup_added env f st) as (o & Hrun & Htimes & Htrace & Hlast).
  rewrite Hrun in Hended. simpl in Hended.
  apply ending_uncaught in Hended as ->.
  destruct (run_trace_summary env _ _ _ _ Htrace) as (Hdumps & Hcases).
  destruct (run_trace_requests env _ _ _ _ Htrace) as (Hrej & _).
  split; [done|]. split.
  { inversion Htrace as [D e' HD| | | |]; subst.
    inversion HD; subst; eexists; apply elem_of_cons; right;
      apply elem_of_cons; right; apply elem_of_cons; right; by left. }
  split; [done|]. split.
  { destruct (rejections _) as [|e' l] eqn:Hl; [done|].
    by destruct (Hrej e' (list_elem_of_here _ _)). }
  destruct Hcases as [(e' & [=] & _)|[(e' & [=] & _)|[(e' & [=] & _)
                     |[(e' & [=] & _)|[(e' & [=] & _)
                     |[([=] & _)|(e' & _ & _ & ? & ? & ? & ? & _ & ?)]]]]]].
  by repeat split.
Qed.
End RunProperties.

(** ** Properties of the cleanup *)

Section CleanupProperties.
Context {W : Type} `{!Collaborators W} (env : Env).

(** X11: nothing to prune.  When the listing has no [Contents], or holds no
    more objects than the (non-negative) retention count, the cleanup asks
    for no deletion and returns. *)
Theorem cleanup_nothing_to_prune bucket prefix f response w (st : State W) :
  list_objects bucket (listing_prefix prefix f) (world st)
    = (Resolved response, w) →
  0 <= BACKUP_RETENTION_COUNT env →
  (∀ contents, response = Some contents →
               Z.of_nat (length contents) <= BACKUP_RETENTION_COUNT env) →
  ∃ st',
    cleanupOldBackups env bucket prefix f st = (Ok tt, st') ∧
    deletions (added st st') = [] ∧
    lastBackupTimes st' = lastBackupTimes st.
Proof.
  intros Hlist Hcount Hfew. destruct response as [contents|].
  - rewrite (cleanupOldBackups_listed env _ _ _ _ _ _ Hlist).
    unfold objectsToDelete. rewrite array_slice_drop by done.
    rewrite drop_ge by (rewrite array_sort_length; specialize (Hfew _ eq_refl); lia).
    eexists. split; [done|]. unfold added; simpl.
    by rewrite drop_app_length.
  - unfold cleanupOldBackups, console_log, emit, await, bind; simpl.
    fold (listing_prefix prefix f). rewrite Hlist. unfold ret.
    eexists. split; [done|]. unfold added; simpl.
    by rewrite <- app_assoc, drop_app_length.
Qed.

(** X12: objects without a usable key.  On a store that rejects no
    deletion the cleanup returns, whatever the retention count; it asks, in
    order, for the deletion of those objects to delete that have a non-empty
    key, and passes over the others without stopping. *)
Theorem cleanup_skips_unusable_keys bucket prefix f contents w (st : State W) :
  list_objects bucket (listing_prefix prefix f) (world st)
    = (Resolved (Some contents), w) →
  (∀ key w, ∃ w', delete_object bucket key w = (Resolved tt, w')) →
  ∃ st',
    cleanupOldBackups env bucket prefix f st = (Ok tt, st') ∧
    deletions (added st st') = candidate_keys (objectsToDelete env contents) ∧
    Forall (λ key, key ≠ "") (deletions (added st st')) ∧
    ∀ key, key ∈ deletions (added st st') →
           ∃ o, o ∈ objectsToDelete env contents ∧ Key o = Some key.
Proof.
  intros Hlist Hok.
  rewrite (cleanupOldBackups_listed env _ _ _ _ _ _ Hlist).
  match goal with |- context [for_of _ _ ?s] => set (st0 := s) end.
  destruct (delete_loop_returns bucket (objectsToDelete env contents) st0)
    as [st' Hloop]; [intros; apply Hok|].
  destruct (delete_loop_returned _ _ _ _ Hloop) as (evs & Htr & _ & Hdels).
  exists st'. split; [done|].
  assert (deletions (added st st') = candidate_keys (objectsToDelete env contents))
    as ->.
  { unfold added. rewrite Htr. unfold st0; simpl.
    rewrite <- app_assoc, drop_app_length. exact Hdels. }
  split; [done|].
  assert (∀ key, key ∈ candidate_keys (objectsToDelete env contents) →
                 key ≠ "" ∧ ∃ o, o ∈ objectsToDelete env contents ∧
                                 Key o = Some key) as Hkeys.
  { intros key (o & Ho & Hkey)%list_elem_of_omap.
    unfold candidate_key in Hkey. destruct (Key o) as [key'|] eqn:HK; [|done].
    case_bool_decide; [done|]. injection Hkey as <-. split; [done|].
    by exists o. }
  split; [apply Forall_forall; intros key Hin; by apply Hkeys|].
  intros key Hin. by apply Hkeys.
Qed.
End CleanupProperties.

(** ** Properties of the seeding *)

Section SeedingProperties.
Context {W : Type} `{!Collaborators W} (env : Env).

(** X13: objects without a date do not hide dated ones.  When the listing
    of a cadence holds an object dated after the epoch, the seeding records
    for the cadence the maximum of the dates the listed objects carry,
    whether or not other listed objects carry none. *)
Theorem seeding_passes_over_undated bucket prefix result interval objs o t
    (st : State W) :
  (list_objects bucket (listing_prefix prefix (frequency interval)) (world st)).1
    = Resolved (Some objs) →
  o ∈ objs → LastModified o = Some t → 0 < t →
  ∃ d st',
    getLastBackupTime bucket prefix result interval st
    = (Ok (<[frequency interval := d]> result), st') ∧
    latest d objs.
Proof.
  intros Hlist Ho Ht Hpos.
  destruct (getLastBackupTime_spec bucket prefix result interval st)
    as (w & logs & -> & _).
  rewrite Hlist. unfold seeded, first_date.
  destruct objs as [|o1 objs]; [by apply elem_of_nil in Ho|].
  destruct (array_sort newest_first (o1 :: objs)) as [|first rest] eqn:Hsort.
  { apply (f_equal length) in Hsort. by rewrite array_sort_length in Hsort. }
  destruct (array_sort_head _ _ _ _ Hsort) as [Hin Hmax].
  pose proof (Hmax _ Ho) as Hle. unfold time_or_0 at 1 in Hle.
  rewrite Ht in Hle.
  destruct (LastModified first) as [d|] eqn:Hd;
    [|unfold time_or_0 in Hle; rewrite Hd in Hle; lia].
  exists d. eexists. split; [done|]. split; [by exists first|].
  intros o' t' Ho' Ht'. specialize (Hmax _ Ho').
  unfold time_or_0 in Hmax. by rewrite Ht', Hd in Hmax.
Qed.

(** X14: a listing without dates.  When no listed object carries a date,
    the seeding records nothing for the cadence, however many objects the
    listing holds. *)
Theorem seeding_needs_a_date bucket prefix result interval objs (st : State W) :
  (list_objects bucket (listing_prefix prefix (frequency interval)) (world st)).1
    = Resolved (Some objs) →
  Forall (λ o, LastModified o = None) objs →
  ∃ st', getLastBackupTime bucket prefix result interval st = (Ok result, st').
Proof.
  intros Hlist Hundated.
  destruct (getLastBackupTime_spec bucket prefix result interval st)
    as (w & logs & -> & _).
  rewrite Hlist. unfold seeded, first_date.
  destruct objs as [|o1 objs]; [by eexists|].
  destruct (array_sort newest_first (o1 :: objs)) as [|first rest] eqn:Hsort;
    [by eexists|].
  destruct (array_sort_head _ _ _ _ Hsort) as [Hin _].
  rewrite Forall_forall in Hundated. rewrite (Hundated _ Hin). by eexists.
Qed.
End SeedingProperties.

(** ** Properties of the scheduler and of the entry point *)

Section SchedulerProperties.
Context {W : Type} `{!Collaborators W} (env : Env).


(** X2: the sleeps of an iteration.  Every iteration of the loop that
    returns has slept exactly twice, whatever its triggers did: first the
    alignment wait computed from the clock reading [t0] with which the
    iteration starts, last one minute.  A failed run adds no wait and a run
    never sleeps; an iteration that an uncaught exception cuts short has
    slept once, the alignment wait. *)
Theorem tick_sleeps_twice (st : State W) :
  ∃ r st' t0 rest,
    tick env st = (r, st') ∧
    match r with
    | Ok _ =>
        added st st'
        = EvNow t0 :: EvSleep (waitMs t0) :: rest ++ [EvSleep (60 * 1000)] ∧
        sleeps (added st st') = [waitMs t0; 60 * 1000]
    | Uncaught e =>
        added st st'
        = EvNow t0 :: EvSleep (waitMs t0) :: rest ++ [EvUncaught e] ∧
        sleeps (added st st') = [waitMs t0]
    | _ => False
    end.
Proof.
  destruct (tick_spec env st) as (r & st' & evs & Htick & Htr & Hev).
  destruct r as [[]| | | |e]; try done.
  - destruct Hev as [t0 sw sd sh sm times1 times2 times3 times4 Hw Hd Hh Hm].
    apply segment_evaluations in Hw as (_ & Sw & _).
    apply segment_evaluations in Hd as (_ & Sd & _).
    apply segment_evaluations in Hh as (_ & Sh & _).
    apply segment_evaluations in Hm as (_ & Sm & _).
    exists (Ok tt), st', t0, (sw ++ sd ++ sh ++ sm).
    split; [done|]. unfold added. rewrite Htr, drop_app_length.
    split; [by rewrite <- !app_assoc|].
    change (sleeps (?a :: EvSleep ?w :: ?l)) with (w :: sleeps l).
    by rewrite !sleeps_app, Sw, Sd, Sh, Sm.
  - destruct Hev as [t0 checked f unchecked segs times1 seg times2 e
                       Hfs Hsegs Hseg].
    pose proof table_NoDup as Hnodup.
    change (frequency <$> BACKUP_INTERVALS)
      with [weekly; daily; hourly; freq_10min] in Hfs.
    rewrite Hfs in Hnodup. apply NoDup_app in Hnodup as (Hchecked & _ & _).
    apply segments_decisions in Hsegs as (Ssegs & _ & _); [|done].
    apply segment_evaluations in Hseg as Hquiet. destruct Hquiet as (_ & Sseg & _).
    apply segment_crashed in Hseg as (_ & [seg' ->] & _).
    exists (Uncaught e), st', t0, (segs ++ seg').
    split; [done|]. unfold added. rewrite Htr, drop_app_length.
    split; [by rewrite <- !app_assoc|].
    change (sleeps (?a :: EvSleep ?w :: ?l)) with (w :: sleeps l).
    by rewrite sleeps_app, Ssegs, Sseg.
Qed.

(** X16: the process ends with exit code 1 only through an uncaught
    exception.  With the collaborators of this model, the entry point
    ends in exit code 0 in single-shot mode, and otherwise is still running
    after any number of iterations, unless [execSync] or [statSync] threw in
    the validity check of an archive: that exception is caught by nobody
    and the runtime ends the process, with exit code 1.  No rejection of
    the dump, the store or the file system reaches one of the three
    [process.exit(1)] of [index.ts]; so on a machine where the two calls of
    the validity check always return, the process never ends with exit
    code 1. *)
Theorem exit_1_only_by_uncaught_exception (ticks : nat) (st : State W) :
  ∃ r st',
    start env ticks st = (r, st') ∧
    match r with
    | Exit code => code = 0 ∧ SINGLE_SHOT_MODE env = true
    | Pending => SINGLE_SHOT_MODE env = false
    | Uncaught e => thrown_by_check e ∧ last (trace st') = Some (EvUncaught e)
    | Ok _ | Throw _ => False
    end ∧
    (exit_code r = Some 1 ↔ ∃ e, r = Uncaught e) ∧
    ((∀ filePath w, ∃ n w',
         gzip_head_length filePath w = (Returned n, w')) →
     (∀ filePath w, ∃ size w',
         stat_filesize filePath w = (Returned size, w')) →
     r = if SINGLE_SHOT_MODE env then Exit 0 else Pending).
Proof.
  assert (∀ s, ∃ r st',
            startBackupScheduler env ticks s = (r, st') ∧
            match r with
            | Pending => True
            | Uncaught e => last (trace st') = Some (EvUncaught e)
            | _ => False
            end) as Hsched.
  { intros s.
    destruct (startBackupScheduler_spec env ticks s)
      as (times & st2 & evs & _ & _ & _ & ->).
    match goal with |- context [scheduler_loop env ticks ?s2] =>
      destruct (scheduler_loop_spec env ticks s2)
        as (r & st' & evs' & -> & Htr & Hr)
    end.
    exists r, st'. split; [done|]. destruct r as [| | | |e]; try done.
    destruct Hr as [evs'' ->]. by rewrite Htr, app_assoc, last_snoc. }
  assert (∃ r st',
            start env ticks st = (r, st') ∧
            match r with
            | Exit code => code = 0 ∧ SINGLE_SHOT_MODE env = true
            | Pending => SINGLE_SHOT_MODE env = false
            | Uncaught e => last (trace st') = Some (EvUncaught e)
            | Ok _ | Throw _ => False
            end) as (r & st' & Hstart & Hr).
  { destruct (runBackup_run env freq_10min (logged "Running on start backup..." st))
      as (w & evs & o & _ & Hrun).
    destruct (SINGLE_SHOT_MODE env) eqn:Hsingle.
    - rewrite start_single_shot, Hrun by done.
      destruct o; simpl; try by eexists _, _.
      eexists _, _. split; [done|]. simpl. apply run_events_last.
    - destruct (RUN_ON_STARTUP env) eqn:Hstartup.
      + rewrite start_on_startup, Hrun by done.
        destruct o; simpl;
          try (match goal with |- context [startBackupScheduler env ticks ?s] =>
                 destruct (Hsched s) as (r & st' & -> & Hr) end;
               exists r, st'; split; [done|]; by destruct r).
        eexists _, _. split; [done|]. simpl. apply run_events_last.
      + rewrite start_without_startup by done.
        destruct (Hsched st) as (r & st' & -> & Hr).
        exists r, st'. split; [done|]. by destruct r. }
  exists r, st'. split; [done|].
  assert (∀ e, r = Uncaught e → thrown_by_check e) as Hcrash
    by (intros e ->; by eapply start_crashes).
  split; [|split].
  - destruct r as [| |code| |e]; try done. split; [by apply Hcrash|done].
  - split.
    + destruct r as [| |code| |e]; try done; [|by exists e].
      destruct Hr as [-> _]. done.
    + by intros [e ->].
  - intros Hgzip Hstat.
    destruct r as [| |code| |e]; try done.
    + destruct Hr as [-> ->]. done.
    + by rewrite Hr.
    + destruct (Hcrash e eq_refl) as (filePath & w & w' & [Hthrew|Hthrew]).
      * destruct (Hgzip filePath w) as (n & w'' & Hreturned).
        by rewrite Hreturned in Hthrew.
      * destruct (Hstat filePath w) as (size & w'' & Hreturned).
        by rewrite Hreturned in Hthrew.
Qed.

(** X17: the seeding overrides the startup backup.  With [RUN_ON_STARTUP]
    and without single-shot mode, the process makes one 10min run and then
    seeds; when the loop starts, the time recorded for a cadence is the date
    the seeding took from the store's listing for it, if it took one, and
    otherwise what the startup run left.  So the time recorded by a
    successful startup backup survives only if the listing of the 10min
    prefix yields no date.  (When the startup run ends in an uncaught
    exception, the process ends with it and nothing is seeded.) *)
Theorem seeding_overrides_startup_backup (st : State W) :
  RUN_ON_STARTUP env = true → SINGLE_SHOT_MODE env = false →
  let run := runBackup env freq_10min (logged "Running on start backup..." st) in
  let st1 := run.2 in
  ∃ answer r st',
    start env 0 st = (r, st') ∧
    (∀ f, ∃ w', answer f
                = (list_objects (AWS_S3_BUCKET env)
                     (listing_prefix (key_prefix env) f) w').1) ∧
    match r with
    | Pending =>
        run.1 = Ok tt ∧
        ∀ f, lastBackupTimes st' !! f
             = match first_date (answer f) with
               | Some d => Some d
               | None => lastBackupTimes st1 !! f
               end
    | Uncaught e => run = (Uncaught e, st')
    | _ => False
    end.
Proof.
  intros Hstartup Hsingle run st1. subst st1 run.
  rewrite start_on_startup by done.
  destruct (runBackup_run env freq_10min (logged "Running on start backup..." st))
    as (w & evs & o & _ & ->).
  assert (∀ s : State W, ∃ answer st',
            startBackupScheduler env 0 s = (Pending, st') ∧
            (∀ f, ∃ w', answer f
                        = (list_objects (AWS_S3_BUCKET env)
                             (listing_prefix (key_prefix env) f) w').1) ∧
            ∀ f, lastBackupTimes st' !! f
                 = match first_date (answer f) with
                   | Some d => Some d
                   | None => lastBackupTimes s !! f
                   end) as Hseeds.
  { intros s.
    destruct (startBackupScheduler_seeds env s)
      as (answer & w' & evs' & _ & Hstart & _ & Hfrom).
    eexists answer, _. split; [exact Hstart|]. split; [done|].
    intros f. simpl.
    pose proof (seeded_all_lookup answer f) as Hlookup.
    destruct (first_date (answer f)) as [d|].
    - by apply lookup_union_Some_l.
    - by rewrite lookup_union_r. }
  destruct o; simpl;
    try (match goal with |- context [startBackupScheduler env 0 ?s] =>
           destruct (Hseeds s) as (answer & st' & -> & Hfrom & Htimes) end;
         by exists answer, Pending, st').
  eexists (λ f, (list_objects (AWS_S3_BUCKET env)
                   (listing_prefix (key_prefix env) f) (world st)).1), _, _.
  split; [done|]. split; [|done]. intros f. by eexists.
Qed.
End SchedulerProperties.

(** ** Concrete runs for the further properties *)

Example waitMs_at_a_boundary : waitMs 120000 = 60000 ∧ waitMs 125250 = 54750.
Proof. done. Qed.

(** With object lock the upload carries the digest computed in the run. *)
Lemma upload_digest_follows_object_lock_witness :
  md5s (added (initial_state 5000)
          (@runBackup Z (scripted (healthy three_objects)) object_lock_env
             hourly (initial_state 5000)).2)
  = [(archive, Resolved "00")].
Proof.
  assert (EvUpload "bucket" "db/hourly/backup-2025-01-01T00-00-00-000Z.tar.gz"
            archive (Some "00") (Resolved tt)
          ∈ added (initial_state 5000)
              (@runBackup Z (scripted (healthy three_objects)) object_lock_env
                 hourly (initial_state 5000)).2) as Hin.
  { apply list_elem_of_In. vm_compute.
    repeat first [left; reflexivity | right]. }
  destruct (@upload_digest_follows_object_lock Z
              (scripted (healthy three_objects)) object_lock_env hourly
              (initial_state 5000) _ _ _ _ _ Hin) as (h & Hmd5 & Hhashes).
  injection Hmd5 as <-. exact Hhashes.
Defined.

(** The validity check throws in an hourly run: nothing uploaded, nothing
    recorded, and the report of the exception ends the trace. *)
Lemma crashed_run_leaves_archive_witness :
  let st' :=
    (@runBackup Z (scripted throwing_check) test_env hourly
       (initial_state 5000)).2 in
  uploads (added (initial_state 5000) st') = [] ∧
  lastBackupTimes st' = ∅ ∧
  last (trace st') = Some (EvUncaught "Error: spawnSync /bin/sh ENOMEM").
Proof.
  destruct (@crashed_run_leaves_archive Z (scripted throwing_check) test_env
              hourly (initial_state 5000) "Error: spawnSync /bin/sh ENOMEM"
              eq_refl)
    as (_ & _ & _ & _ & _ & Huploads & _ & _ & _ & Htimes & Hlast).
  split; [exact Huploads|]. split; [exact Htimes|exact Hlast].
Defined.

(** A rejected upload: nothing recorded, the archive not deleted. *)
Lemma rejected_upload_keeps_archive_witness :
  let st' :=
    (@runBackup Z (scripted failing_upload) test_env hourly
       (initial_state 5000)).2 in
  lastBackupTimes st' = ∅ ∧ unlinks (added (initial_state 5000) st') = [] ∧
  last (trace st') = Some (EvError "Backup failed:" "SlowDown").
Proof.
  assert (("db/hourly/backup-2025-01-01T00-00-00-000Z.tar.gz", Rejected "SlowDown")
          ∈ uploads (added (initial_state 5000)
                       (@runBackup Z (scripted failing_upload) test_env hourly
                          (initial_state 5000)).2)) as Hin.
  { apply list_elem_of_In. vm_compute. left; reflexivity. }
  destruct (@rejected_upload_keeps_archive Z (scripted failing_upload) test_env
              hourly (initial_state 5000) _ _ Hin)
    as (_ & Htimes & _ & _ & Hunlinks & Hlast).
  split; [exact Htimes|]. split; [exact Hunlinks|exact Hlast].
Defined.

(** A rejected cleanup listing: uploaded, but nothing recorded and the
    archive not deleted. *)
Lemma failed_cleanup_fails_run_witness :
  let st' :=
    (@runBackup Z (scripted failing_listing) test_env hourly
       (initial_state 5000)).2 in
  uploads (added (initial_state 5000) st')
  = [(@key_at Z (scripted failing_listing) test_env hourly 5000, Resolved tt)] ∧
  lastBackupTimes st' = ∅ ∧ unlinks (added (initial_state 5000) st') = [].
Proof.
  assert ("AccessDenied"
          ∈ store_rejections
              (added (initial_state 5000)
                 (@runBackup Z (scripted failing_listing) test_env hourly
                    (initial_state 5000)).2)) as Hin.
  { apply list_elem_of_In. vm_compute. left; reflexivity. }
  destruct (@failed_cleanup_fails_run Z (scripted failing_listing) test_env
              hourly (initial_state 5000) _ Hin)
    as (Huploads & Htimes & Hunlinks & _).
  split; [exact Huploads|]. split; [exact Htimes|exact Hunlinks].
Defined.

(** Three objects and a retention count of five: nothing to prune. *)
Lemma cleanup_nothing_to_prune_witness :
  ∃ st',
    @cleanupOldBackups Z (scripted (healthy three_objects)) retain_five_env
      "bucket" "db/" hourly (initial_state 5000) = (Ok tt, st') ∧
    deletions (added (initial_state 5000) st') = [].
Proof.
  destruct (@cleanup_nothing_to_prune Z (scripted (healthy three_objects))
              retain_five_env "bucket" "db/" hourly (Some three_objects) 5000
              (initial_state 5000))
    as (st' & Hrun & Hdeletions & _).
  - reflexivity.
  - simpl. lia.
  - intros contents [= <-]. simpl. lia.
  - exists st'. split; [exact Hrun|exact Hdeletions].
Defined.

(** Of the three objects to delete only one has a usable key. *)
Lemma cleanup_skips_unusable_keys_witness :
  ∃ st',
    @cleanupOldBackups Z (scripted (healthy keyless_objects)) test_env
      "bucket" "db/" hourly (initial_state 5000) = (Ok tt, st') ∧
    deletions (added (initial_state 5000) st') = ["db/hourly/e"].
Proof.
  destruct (@cleanup_skips_unusable_keys Z (scripted (healthy keyless_objects))
              test_env "bucket" "db/" hourly keyless_objects 5000
              (initial_state 5000))
    as (st' & Hrun & Hdeletions & _).
  - reflexivity.
  - intros key w. by exists w.
  - exists st'. split; [exact Hrun|]. rewrite Hdeletions. reflexivity.
Defined.

(** Two dated objects between two undated ones: the later date is taken. *)
Lemma seeding_passes_over_undated_witness :
  ∃ st',
    @getLastBackupTime Z (scripted (healthy partly_dated_objects))
      "bucket" "db/" ∅ hourly_interval (initial_state 5000)
    = (Ok {[ hourly := 3000 ]}, st').
Proof.
  destruct (@seeding_passes_over_undated Z
              (scripted (healthy partly_dated_objects)) "bucket" "db/" ∅
              hourly_interval partly_dated_objects (obj "db/hourly/c" 3000) 3000
              (initial_state 5000))
    as (d & st' & Hrun & (o & Hin & Hd) & Hmax).
  - reflexivity.
  - apply list_elem_of_In. right; right; left; reflexivity.
  - reflexivity.
  - lia.
  - exists st'. rewrite Hrun. do 2 f_equal.
    assert (d = 3000) as ->; [|done].
    apply Z.le_antisymm.
    + apply list_elem_of_In in Hin.
      destruct Hin as [<-|[<-|[<-|[<-|[]]]]]; simpl in Hd; simplify_eq; lia.
    + apply (Hmax (obj "db/hourly/c" 3000)); [|done].
      apply list_elem_of_In. right; right; left; reflexivity.
Defined.

(** Two objects without date: nothing is recorded. *)
Lemma seeding_needs_a_date_witness :
  ∃ st',
    @getLastBackupTime Z (scripted (healthy undated_objects))
      "bucket" "db/" ∅ hourly_interval (initial_state 5000)
    = (Ok ∅, st').
Proof.
  apply (@seeding_needs_a_date Z (scripted (healthy undated_objects))
           "bucket" "db/" ∅ hourly_interval undated_objects (initial_state 5000)).
  - reflexivity.
  - by repeat constructor.
Defined.

(** A startup backup at 5000 succeeds; the store's newest object is dated
    3000, and that is what the loop starts with. *)
Lemma seeding_overrides_startup_backup_witness :
  ∃ st',
    @start Z (scripted (healthy three_objects)) run_on_startup_env 0
      (initial_state 5000) = (Pending, st') ∧
    lastBackupTimes
      (@runBackup Z (scripted (healthy three_objects)) run_on_startup_env
         freq_10min (logged "Running on start backup..." (initial_state 5000))).2
      !! freq_10min = Some 5000 ∧
    lastBackupTimes st' !! freq_10min = Some 3000.
Proof.
  destruct (@seeding_overrides_startup_backup Z
              (scripted (healthy three_objects)) run_on_startup_env
              (initial_state 5000) eq_refl eq_refl)
    as (answer & r & st' & Hstart & Hfrom & Hr).
  assert (r = Pending) as ->.
  { vm_compute in Hstart. by injection Hstart as <- _. }
  destruct Hr as [_ Htimes].
  exists st'. split; [exact Hstart|]. split; [vm_compute; reflexivity|].
  rewrite Htimes. destruct (Hfrom freq_10min) as [w' ->]. reflexivity.
Defined.

Section CheckProperties.
Context {W : Type} `{!Collaborators W} (env : Env).

(** X18: one dump per due cadence, none otherwise.  The scheduler's check
    of a cadence reads the clock at [t]; if the cadence is due at [t] it
    makes one run, which starts exactly one dump; if not, it does nothing
    else: no dump, no request to the store, no change of the recorded
    times.  The check returns, unless the validity check of the run's
    archive threw an exception. *)
Theorem check_dumps_iff_due (interval : BackupInterval) (st : State W) :
  let t := (clock (world st)).1 in
  let due := due_at (lastBackupTimes st) (frequency interval) t in
  ∃ r st',
    check_interval env interval st = (r, st') ∧
    (r = Ok tt ∨ ∃ e, r = Uncaught e ∧ due = true ∧ thrown_by_check e) ∧
    length (dumps (added st st')) = (if due then 1 else 0)%nat ∧
    (if due then EvEvaluate (frequency interval) t true ∈ added st st'
     else added st st' = [EvNow t; EvEvaluate (frequency interval) t false] ∧
          lastBackupTimes st' = lastBackupTimes st).
Proof.
  intros t due. subst t due.
  unfold check_interval, new_Date, call, bind at 1.
  destruct (clock (world st)) as [t w0] eqn:Hclock.
  erewrite bind_ok by apply shouldRunBackup_spec. simpl.
  destruct (due_at (lastBackupTimes st) (frequency interval) t) eqn:Hdue.
  - unfold emit, console_log, emit, bind; simpl.
    match goal with |- context [runBackup env ?f ?s] =>
      destruct (runBackup_trace env f s) as (w & evs & o & Heq & Hrun);
      pose proof (runBackup_crashes env f s) as Hcrash
    end.
    rewrite Heq. simpl. eexists _, _. split; [done|].
    split; [|unfold added; simpl].
    + destruct o; simpl; try by left. right. exists e.
      split; [done|]. split; [done|]. eapply Hcrash. exact Heq.
    + rewrite <- !app_assoc, drop_app_length. simpl.
      destruct (run_trace_summary env _ _ _ _ Hrun) as (Hdumps & _).
      split.
      * change (dumps (?a :: ?b :: ?c :: evs)) with (dumps evs).
        by rewrite Hdumps.
      * apply elem_of_cons; right. by left.
  - unfold emit, bind, ret; simpl.
    eexists _, _. split; [done|]. split; [by left|]. unfold added; simpl.
    rewrite <- !app_assoc, drop_app_length. by simpl.
Qed.
End CheckProperties.
